(** * v9_deployment_manager: the deployment reconciler

    A shallow embedding of [worker/worker.go] and
    [deployment/actionManger.go], and the properties of the reconciliation
    pass [HandleDirtyState] stated over it.

    Go's [(T, error)] results are values of [Result]; the reconciler's
    calls to its collaborators (the database driver, the activator, the
    workers' HTTP API and [math/rand]) go through an interface [Env] over an
    abstract world, and every call is recorded in an event log, so that
    "which RPCs were issued, in which order" is a statement about a list. *)

From Stdlib Require Import Floats.SpecFloat.
From stdpp Require Import gmap strings list.

(** Go's [error] values are opaque to the reconciler: it only tests them
    against [nil] and passes them on.  A message stands for one. *)
Definition error := string.

Inductive Result (A : Type) : Type :=
| Ok (a : A)
| Err (e : error).
Arguments Ok {A} a.
Arguments Err {A} e.

(** A [float64] is an IEEE 754 binary64 datum; the reconciler carries the
    workers' statistics around and never computes with them. *)
Definition float64 := spec_float.

(** The zero value of a [float64] field. *)
Definition float64_zero : float64 := S754_zero false.

(* ================================================================== *)
(** * worker/worker.go *)
(* ================================================================== *)

Module Worker.
#[local] Open Scope string_scope.

Record V9Worker := { URL : string }.

Record ComponentPath := { path_User : string; path_Repo : string }.

Record ComponentID := { id_User : string; id_Repo : string; id_Hash : string }.

Record ComponentStats := {
  ID : ComponentID;
  Color : string;
  StatWindow : float64;
  Hits : float64;
  AvgResponseBytes : float64;
  AvgMsLatency : float64;
  LatencyPercentiles : list float64
}.

Record StatusResponse := {
  CPUUsage : float64;
  MemoryUsage : float64;
  NetworkUsage : float64;
  ActiveComponents : list ComponentStats
}.

#[global] Instance V9Worker_eq_dec : EqDecision V9Worker.
Proof. solve_decision. Defined.

#[global] Instance ComponentPath_eq_dec : EqDecision ComponentPath.
Proof. solve_decision. Defined.

#[global] Instance ComponentID_eq_dec : EqDecision ComponentID.
Proof. solve_decision. Defined.

#[global] Instance ComponentPath_countable : Countable ComponentPath.
Proof.
  refine (inj_countable'
            (fun p => (path_User p, path_Repo p))
            (fun q => {| path_User := q.1; path_Repo := q.2 |}) _).
  by intros [??].
Defined.

(** The [(user, repo)] part of an ID: the struct literal
    [ComponentPath{User: id.User, Repo: id.Repo}] that the reconciler builds
    in several places. *)
Definition path_of (id : ComponentID) : ComponentPath :=
  {| path_User := id_User id; path_Repo := id_Repo id |}.

(** [runningComp.ID == compID]: Go compares the three string fields. *)
Definition ComponentID_eqb (a b : ComponentID) : bool :=
  String.eqb (id_User a) (id_User b)
  && String.eqb (id_Repo a) (id_Repo b)
  && String.eqb (id_Hash a) (id_Hash b).

Fixpoint contains (l : list ComponentPath) (v : ComponentID) : bool :=
  match l with
  | [] => false
  | comp :: l' =>
      if String.eqb (path_Repo comp) (id_Repo v)
         && String.eqb (path_User comp) (id_User v)
      then true
      else contains l' v
  end.

Fixpoint FindNonactive_loop (running : list ComponentStats)
    (activeComponents : list ComponentPath) (nonActive : list ComponentID)
  : list ComponentID :=
  match running with
  | [] => nonActive
  | runningComponent :: rest =>
      if negb (contains activeComponents (ID runningComponent))
      then FindNonactive_loop rest activeComponents
             (nonActive ++ [ID runningComponent])
      else FindNonactive_loop rest activeComponents nonActive
  end.

Definition FindNonactive (s : StatusResponse)
    (activeComponents : list ComponentPath) : list ComponentID :=
  FindNonactive_loop (ActiveComponents s) activeComponents [].

Fixpoint ContainsPath_loop (running : list ComponentStats)
    (compPath : ComponentPath) : bool :=
  match running with
  | [] => false
  | runningComponent :: rest =>
      if String.eqb (id_User (ID runningComponent)) (path_User compPath)
         && String.eqb (id_Repo (ID runningComponent)) (path_Repo compPath)
      then true
      else ContainsPath_loop rest compPath
  end.

Definition ContainsPath (s : StatusResponse) (compPath : ComponentPath) : bool :=
  ContainsPath_loop (ActiveComponents s) compPath.

Fixpoint ContainsExactly_loop (running : list ComponentStats)
    (compID : ComponentID) : bool :=
  match running with
  | [] => false
  | runningComponent :: rest =>
      if ComponentID_eqb (ID runningComponent) compID
      then true
      else ContainsExactly_loop rest compID
  end.

Definition ContainsExactly (s : StatusResponse) (compID : ComponentID) : bool :=
  ContainsExactly_loop (ActiveComponents s) compID.

(** ** The HTTP client: [get] and [Status]

    [net/http], [io/ioutil] and [encoding/json] are taken as given.  What
    [http.Get] hands back on success is a response carrying the status
    line's code and a body stream; [Body] is the outcome of reading that
    stream to its end with [ioutil.ReadAll]. *)

Record Response := {
  StatusCode : Z;
  Body : Result string
}.

Section Client.

(** [http.Get url]: an error only when no response was obtained. *)
Variable http_Get : string -> Result Response.

(** [json.Unmarshal body &statusResponse]. *)
Variable json_Unmarshal : string -> Result StatusResponse.

Definition get (worker : V9Worker) (route : string) : Result Response :=
  let url := "http://" ++ URL worker ++ route in
  match http_Get url with
  | Err err => Err err
  | Ok resp => Ok resp
  end.

Definition Status (worker : V9Worker) : Result StatusResponse :=
  match get worker "/meta/status" with
  | Err err => Err err
  | Ok resp =>
      match Body resp with
      | Err err => Err err
      | Ok respBody =>
          match json_Unmarshal respBody with
          | Err err => Err err
          | Ok statusResponse => Ok statusResponse
          end
      end
  end.

End Client.

(** ** The log endpoint: [Logs]

    [Log] and [Error] are [*string] fields: absent or a string.
    [DedupNumber] is a [uint64] that the client only carries. *)

Record ComponentLog := {
  log_ID : ComponentID;
  log_DedupNumber : N;
  log_Log : option string;
  log_Error : option string
}.

Record LogResponse := { logs_Logs : list ComponentLog }.

Section LogsClient.

Variable http_Get : string -> Result Response.

(** [json.Unmarshal body &logResponse]. *)
Variable json_Unmarshal : string -> Result LogResponse.

Definition Logs (worker : V9Worker) : Result LogResponse :=
  let url := "http://" ++ URL worker ++ "/meta/logs" in
  match http_Get url with
  | Err err => Err err
  | Ok resp =>
      match Body resp with
      | Err err => Err err
      | Ok respBody =>
          match json_Unmarshal respBody with
          | Err err => Err err
          | Ok logResponse => Ok logResponse
          end
      end
  end.

End LogsClient.

(** ** The commands of the client: [post], [Activate], [Deactivate] and
    [DeactivateComponentEverywhere]

    A POST changes what a worker runs, so [http.Post] is a function of the
    state [Net] of the network.  A command comes to its result, the network
    it leaves and the requests it sent, in order. *)

Record activateRequest := {
  activate_ID : ComponentID;
  ExecutableFile : string;
  ExecutionMethod : string
}.

Record deactivateRequest := { deactivate_ID : ComponentID }.

Inductive Request : Type :=
| POST (url contentType body : string).

Section Commands.

Context {Net : Type}.

(** [http.Post url contentType body]: an error only when no response was
    obtained. *)
Variable http_Post : string -> string -> string -> Net -> Result Response * Net.

(** [json.Marshal] at the two request types. *)
Variable json_Marshal_activateRequest : activateRequest -> Result string.
Variable json_Marshal_deactivateRequest : deactivateRequest -> Result string.

Definition createActivateBody (compID : ComponentID) (tarPath : string)
    (executionMethod : string) : Result string :=
  json_Marshal_activateRequest
    {| activate_ID := compID;
       ExecutableFile := tarPath;
       ExecutionMethod := executionMethod |}.

Definition createDeactivateBody (compID : ComponentID) : Result string :=
  json_Marshal_deactivateRequest {| deactivate_ID := compID |}.

Definition post (worker : V9Worker) (route : string) (body : string)
    (net : Net) : Result Response * Net * list Request :=
  let url := "http://" ++ URL worker ++ route in
  match http_Post url "application/json" body net with
  | (Err err, net') => (Err err, net', [POST url "application/json" body])
  | (Ok resp, net') => (Ok resp, net', [POST url "application/json" body])
  end.

Definition Activate (worker : V9Worker) (component : ComponentID)
    (tarPath : string) (net : Net) : Result unit * Net * list Request :=
  match createActivateBody component tarPath "docker-archive" with
  | Err err => (Err err, net, [])
  | Ok body =>
      match post worker "/meta/activate" body net with
      | (Err err, net', sent) => (Err err, net', sent)
      | (Ok resp, net', sent) =>
          match Body resp with
          | Err err => (Err err, net', sent)
          | Ok respBody => (Ok tt, net', sent)
          end
      end
  end.

Definition Deactivate (worker : V9Worker) (component : ComponentID)
    (net : Net) : Result unit * Net * list Request :=
  match createDeactivateBody component with
  | Err err => (Err err, net, [])
  | Ok body =>
      match post worker "/meta/deactivate" body net with
      | (Err err, net', sent) => (Err err, net', sent)
      | (Ok resp, net', sent) =>
          match Body resp with
          | Err err => (Err err, net', sent)
          | Ok respBody => (Ok tt, net', sent)
          end
      end
  end.

(** [for i := range workers]: an error of [Deactivate] is logged and the
    loop goes on. *)
Fixpoint DeactivateComponentEverywhere (compID : ComponentID)
    (workers : list V9Worker) (net : Net) : Net * list Request :=
  match workers with
  | [] => (net, [])
  | worker :: rest =>
      match Deactivate worker compID net with
      | (_, net', sent) =>
          match DeactivateComponentEverywhere compID rest net' with
          | (net'', sent') => (net'', (sent ++ sent')%list)
          end
      end
  end.

End Commands.

End Worker.

(* ================================================================== *)
(** * deployment/actionManger.go *)
(* ================================================================== *)

Module Deployment.
Import Worker.

Definition headHashSentinel : string := "HEAD"%string.
Definition updaterChanSize : nat := 1024.

(** ** Buffered channels

    A channel made with [make(chan T, n)] is its capacity and the values
    buffered in it, oldest first.  A send on a full channel and a receive on
    an empty one block: [None]. *)

Record Chan (T : Type) := { chan_cap : nat; chan_buf : list T }.
Arguments chan_cap {T} c.
Arguments chan_buf {T} c.

Definition make_chan (T : Type) (n : nat) : Chan T :=
  {| chan_cap := n; chan_buf := [] |}.

Definition chan_send {T} (c : Chan T) (v : T) : option (Chan T) :=
  if length (chan_buf c) <? chan_cap c
  then Some {| chan_cap := chan_cap c; chan_buf := chan_buf c ++ [v] |}
  else None.

Definition chan_recv {T} (c : Chan T) : option (T * Chan T) :=
  match chan_buf c with
  | [] => None
  | v :: rest => Some (v, {| chan_cap := chan_cap c; chan_buf := rest |})
  end.

(** What a call that may park its goroutine comes to. *)
Inductive Step (A : Type) : Type :=
| Done (a : A)
| Blocked.
Arguments Done {A} a.
Arguments Blocked {A}.

(** ** The manager

    [driver] and [activator] are collaborators reached through [Env] below,
    so [NewActionManager] is left with the workers as its only argument;
    [pathHashMux] is held for the whole of a pass, which is why a pass is one
    function of the manager's state here. *)

Record ActionManager := {
  workers : list V9Worker;
  pathHashes : gmap ComponentPath string;
  pathHashUpdater : Chan ComponentID;
  dirtyStateNotifier : Chan unit
}.

Definition NewActionManager (workers : list V9Worker) : ActionManager :=
  {| workers := workers;
     pathHashes := ∅;
     pathHashUpdater := make_chan ComponentID updaterChanSize;
     dirtyStateNotifier := make_chan unit 1 |}.

Definition set_pathHashes (mgr : ActionManager)
    (m : gmap ComponentPath string) : ActionManager :=
  {| workers := workers mgr;
     pathHashes := m;
     pathHashUpdater := pathHashUpdater mgr;
     dirtyStateNotifier := dirtyStateNotifier mgr |}.

Definition set_pathHashUpdater (mgr : ActionManager)
    (c : Chan ComponentID) : ActionManager :=
  {| workers := workers mgr;
     pathHashes := pathHashes mgr;
     pathHashUpdater := c;
     dirtyStateNotifier := dirtyStateNotifier mgr |}.

Definition set_dirtyStateNotifier (mgr : ActionManager)
    (c : Chan unit) : ActionManager :=
  {| workers := workers mgr;
     pathHashes := pathHashes mgr;
     pathHashUpdater := pathHashUpdater mgr;
     dirtyStateNotifier := c |}.

(** [select { case mgr.dirtyStateNotifier <- struct{}{}: default: }] *)
Definition NotifyComponentStateChanged (mgr : ActionManager)
  : Step ActionManager :=
  match chan_send (dirtyStateNotifier mgr) tt with
  | Some c => Done (set_dirtyStateNotifier mgr c)
  | None => Done mgr
  end.

(** [mgr.pathHashUpdater <- compID]: a plain send. *)
Definition UpdateComponentHash (mgr : ActionManager) (compID : ComponentID)
  : Step ActionManager :=
  match chan_send (pathHashUpdater mgr) compID with
  | Some c => Done (set_pathHashUpdater mgr c)
  | None => Blocked
  end.

(** One turn of the first goroutine of [NewActionManager]: take an update,
    write it to the index, raise the dirty signal. *)
Definition applyUpdate (mgr : ActionManager) : Step ActionManager :=
  match chan_recv (pathHashUpdater mgr) with
  | None => Blocked
  | Some (updatedID, c) =>
      let path := path_of updatedID in
      let mgr1 := set_pathHashUpdater mgr c in
      let mgr2 :=
        set_pathHashes mgr1 (<[path := id_Hash updatedID]> (pathHashes mgr1)) in
      NotifyComponentStateChanged mgr2
  end.

(** ** The collaborators *)

Record Env (W : Type) := {
  (** [mgr.driver.FindActiveComponents()] *)
  driver_FindActiveComponents : W -> Result (list ComponentPath) * W;
  (** [w.Status()]: the client's [Worker.Status] against the worker's
      HTTP endpoint *)
  worker_Status : V9Worker -> W -> Result StatusResponse * W;
  (** [mgr.activator.Activate(id, w)] *)
  activator_Activate : ComponentID -> V9Worker -> W -> Result string * W;
  (** [mgr.activator.Deactivate(id, w)] *)
  activator_Deactivate : ComponentID -> V9Worker -> W -> Result unit * W;
  (** [rand.Intn(n)] for [n > 0] *)
  rand_Intn : nat -> W -> nat * W
}.
Arguments driver_FindActiveComponents {W} e.
Arguments worker_Status {W} e.
Arguments activator_Activate {W} e.
Arguments activator_Deactivate {W} e.
Arguments rand_Intn {W} e.

Inductive Event : Type :=
| EvFindActiveComponents (r : Result (list ComponentPath))
| EvStatus (w : V9Worker) (r : Result StatusResponse)
| EvActivate (id : ComponentID) (w : V9Worker) (r : Result string)
| EvDeactivate (id : ComponentID) (w : V9Worker) (r : Result unit)
| EvIntn (n k : nat)
| EvIndexRead (p : ComponentPath).

(** The error a call came back with, if it did. *)
Definition failed (ev : Event) : option error :=
  match ev with
  | EvFindActiveComponents (Err e) => Some e
  | EvStatus _ (Err e) => Some e
  | EvActivate _ _ (Err e) => Some e
  | EvDeactivate _ _ (Err e) => Some e
  | _ => None
  end.

Definition is_Activate (ev : Event) : bool :=
  match ev with EvActivate _ _ _ => true | _ => false end.

Definition is_Deactivate (ev : Event) : bool :=
  match ev with EvDeactivate _ _ _ => true | _ => false end.

(** How a function returning [error] ends: [nil], a non-nil error, or a
    run-time panic unwinding the goroutine. *)
Inductive Outcome (A : Type) : Type :=
| Return (a : A)
| Fail (e : error)
| Panic.
Arguments Return {A} a.
Arguments Fail {A} e.
Arguments Panic {A}.

Section Reconciler.

Context {W : Type} (env : Env W).

Definition St : Type := ActionManager * W.

(** A computation reads and writes the manager and the world, logs the
    calls it makes, and stops at the first error or panic. *)
Definition M (A : Type) : Type := St -> Outcome A * St * list Event.

Definition ret {A} (a : A) : M A := fun s => (Return a, s, []).

Definition bind {A B} (m : M A) (k : A -> M B) : M B :=
  fun s =>
    match m s with
    | (Return a, s1, t1) =>
        match k a s1 with
        | (o, s2, t2) => (o, s2, t1 ++ t2)
        end
    | (Fail e, s1, t1) => (Fail e, s1, t1)
    | (Panic, s1, t1) => (Panic, s1, t1)
    end.

Notation "'let*' x ':=' m 'in' k" := (bind m (fun x => k))
  (at level 10, x name, m at level 100, k at level 200).

Definition panic {A} : M A := fun s => (Panic, s, []).

(** Lifting a collaborator's call: run it on the world, log it, turn a
    non-nil error into [return err]. *)
Definition call {A} (f : W -> Result A * W) (ev : Result A -> Event) : M A :=
  fun s =>
    match f s.2 with
    | (Ok a, w') => (Return a, (s.1, w'), [ev (Ok a)])
    | (Err e, w') => (Fail e, (s.1, w'), [ev (Err e)])
    end.

Definition FindActiveComponents : M (list ComponentPath) :=
  call (driver_FindActiveComponents env) EvFindActiveComponents.

Definition Status (w : V9Worker) : M StatusResponse :=
  call (worker_Status env w) (EvStatus w).

Definition Activate (id : ComponentID) (w : V9Worker) : M string :=
  call (activator_Activate env id w) (EvActivate id w).

Definition Deactivate (id : ComponentID) (w : V9Worker) : M unit :=
  call (activator_Deactivate env id w) (EvDeactivate id w).

(** [rand.Intn(n)] panics when [n <= 0]. *)
Definition Intn (n : nat) : M nat :=
  fun s =>
    match n with
    | O => (Panic, s, [])
    | S _ =>
        match rand_Intn env n s.2 with
        | (k, w') => (Return k, (s.1, w'), [EvIntn n k])
        end
    end.

(** [l[k]] panics when [k] is out of range. *)
Definition index {A} (l : list A) (k : nat) : M A :=
  match l !! k with
  | Some a => ret a
  | None => panic
  end.

Definition get_workers : M (list V9Worker) :=
  fun s => (Return (workers s.1), s, []).

(** [h, ok := mgr.pathHashes[p]] *)
Definition lookup_pathHashes (p : ComponentPath) : M (option string) :=
  fun s => (Return (pathHashes s.1 !! p), s, [EvIndexRead p]).

(** [mgr.pathHashes[p] = h] *)
Definition store_pathHashes (p : ComponentPath) (h : string) : M unit :=
  fun s =>
    (Return tt, (set_pathHashes s.1 (<[p := h]> (pathHashes s.1)), s.2), []).

(** [for _, x := range xs { err = body(x); if err != nil { return err } }] *)
Fixpoint for_range {X} (xs : list X) (body : X -> M unit) : M unit :=
  match xs with
  | [] => ret tt
  | x :: rest => let* _ := body x in for_range rest body
  end.

Definition deactivateNonactive (w : V9Worker) (active : list ComponentPath)
  : M unit :=
  let* status := Status w in
  let nonActive := FindNonactive status active in
  for_range nonActive (fun incorrectlyRunning =>
    Deactivate incorrectlyRunning w).

(** The loop of [activateMissing]; [true] is its [return nil]. *)
Fixpoint activateMissing_loop (path : ComponentPath) (ws : list V9Worker)
  : M bool :=
  match ws with
  | [] => ret false
  | w :: rest =>
      let* status := Status w in
      if ContainsPath status path
      then ret true
      else activateMissing_loop path rest
  end.

Definition activateMissing (toCheck : ComponentID) : M unit :=
  let path := path_of toCheck in
  let* ws := get_workers in
  let* running := activateMissing_loop path ws in
  if running then ret tt
  else
    let* k := Intn (length ws) in
    let* randomWorker := index ws k in
    let* activatedHash := Activate toCheck randomWorker in
    if String.eqb (id_Hash toCheck) headHashSentinel
    then store_pathHashes (path_of toCheck) activatedHash
    else ret tt.

(** The loop of [ensureSomeWorkerIsRunning]; [None] is its [return nil],
    [Some l] falls through with [notRunningAnyVersion = l].  The inner loop
    over [status.ActiveComponents] is the loop of [ContainsExactly]. *)
Fixpoint ensureSomeWorkerIsRunning_loop (compID : ComponentID)
    (compPath : ComponentPath) (ws : list V9Worker)
    (notRunningAnyVersion : list V9Worker) : M (option (list V9Worker)) :=
  match ws with
  | [] => ret (Some notRunningAnyVersion)
  | w :: rest =>
      let* status := Status w in
      if ContainsExactly_loop (ActiveComponents status) compID
      then ret None
      else
        ensureSomeWorkerIsRunning_loop compID compPath rest
          (if negb (ContainsPath status compPath)
           then notRunningAnyVersion ++ [w]
           else notRunningAnyVersion)
  end.

Definition ensureSomeWorkerIsRunning (compID : ComponentID) : M unit :=
  let compPath := path_of compID in
  let* ws := get_workers in
  let* scan := ensureSomeWorkerIsRunning_loop compID compPath ws [] in
  match scan with
  | None => ret tt
  | Some notRunningAnyVersion =>
      let* workerToDeployTo :=
        if 0 <? length notRunningAnyVersion
        then
          let* k := Intn (length notRunningAnyVersion) in
          index notRunningAnyVersion k
        else
          let* k := Intn (length ws) in
          let* target := index ws k in
          let* _ := Deactivate compID target in
          ret target
      in
      let* deployedHash := Activate compID workerToDeployTo in
      if String.eqb (id_Hash compID) headHashSentinel
      then store_pathHashes compPath deployedHash
      else ret tt
  end.

Definition deactivateIfHashDiffers (w : V9Worker) (compID : ComponentID)
  : M unit :=
  let* status := Status w in
  for_range (ActiveComponents status) (fun runningComp =>
    if String.eqb (id_User (ID runningComp)) (id_User compID)
       && String.eqb (id_Repo (ID runningComp)) (id_Repo compID)
       && negb (String.eqb (id_Hash (ID runningComp)) (id_Hash compID))
    then Deactivate (ID runningComp) w
    else ret tt).

Definition componentID (p : ComponentPath) (hash : string) : ComponentID :=
  {| id_User := path_User p; id_Repo := path_Repo p; id_Hash := hash |}.

(** The four loops of [HandleDirtyState]. *)

Definition phase1 (active : list ComponentPath) : M unit :=
  let* ws := get_workers in
  for_range ws (fun w => deactivateNonactive w active).

Definition phase2 (active : list ComponentPath) : M unit :=
  for_range active (fun activeComp =>
    let* entry := lookup_pathHashes activeComp in
    let hashToDeploy :=
      match entry with
      | Some mapHash => mapHash
      | None => headHashSentinel
      end in
    activateMissing (componentID activeComp hashToDeploy)).

Definition phase3 (active : list ComponentPath) : M unit :=
  for_range active (fun activeComp =>
    let* entry := lookup_pathHashes activeComp in
    match entry with
    | Some correctHash =>
        ensureSomeWorkerIsRunning (componentID activeComp correctHash)
    | None => ret tt
    end).

Definition phase4 (active : list ComponentPath) : M unit :=
  for_range active (fun activeComp =>
    let* entry := lookup_pathHashes activeComp in
    match entry with
    | None => ret tt
    | Some correctHash =>
        let correctCompID := componentID activeComp correctHash in
        let* ws := get_workers in
        for_range ws (fun w => deactivateIfHashDiffers w correctCompID)
    end).

Definition HandleDirtyState : M unit :=
  let* active := FindActiveComponents in
  let* _ := phase1 active in
  let* _ := phase2 active in
  let* _ := phase3 active in
  phase4 active.

End Reconciler.

(** What a run is observed by: how it ended, the state it left, and the
    calls it made, in order. *)
Definition outcome {W A} (r : Outcome A * (ActionManager * W) * list Event)
  : Outcome A := r.1.1.
Definition final {W A} (r : Outcome A * (ActionManager * W) * list Event)
  : ActionManager * W := r.1.2.
Definition log {W A} (r : Outcome A * (ActionManager * W) * list Event)
  : list Event := r.2.

(** One turn of the second goroutine of [NewActionManager]: wait for the
    dirty signal, run a pass (its error is only logged). *)
Definition reconcileOnce {W} (env : Env W) (s : ActionManager * W)
  : Step (Outcome unit * (ActionManager * W) * list Event) :=
  match chan_recv (dirtyStateNotifier s.1) with
  | None => Blocked
  | Some (_, c) => Done (HandleDirtyState env (set_dirtyStateNotifier s.1 c, s.2))
  end.

End Deployment.

(* ================================================================== *)
(** * A fleet to run the reconciler against *)
(* ================================================================== *)

(** An instance of [Env]: workers that keep a list of running components
    and answer [Status] from it, a database with a fixed answer, an
    activator that resolves the sentinel, and a random source that is a
    list of numbers.  It is what the concrete runs below are evaluated
    on; the general theorems are about every [Env]. *)

Module Fleet.
Import Worker Deployment.
#[local] Open Scope string_scope.

Record Fleet := {
  (** the answer of [FindActiveComponents] *)
  desired : Result (list ComponentPath);
  (** what each worker runs, by URL *)
  running : gmap string (list ComponentID);
  (** the workers whose [/meta/status] cannot be reached *)
  unreachable : list string;
  (** the commit the activator resolves the sentinel to, and returns *)
  head_commit : string;
  (** whether the activator hands the worker the ID as it received it
      ([true]) or with the resolved hash in place of the sentinel *)
  forwards_sentinel : bool;
  (** the numbers [rand] will draw *)
  random : list nat
}.

Definition stats_of (id : ComponentID) : ComponentStats :=
  {| ID := id; Color := EmptyString; StatWindow := float64_zero; Hits := float64_zero;
     AvgResponseBytes := float64_zero; AvgMsLatency := float64_zero;
     LatencyPercentiles := [] |}.

Definition status_of (ids : list ComponentID) : StatusResponse :=
  {| CPUUsage := float64_zero; MemoryUsage := float64_zero;
     NetworkUsage := float64_zero; ActiveComponents := map stats_of ids |}.

Definition runs (f : Fleet) (w : V9Worker) : list ComponentID :=
  default [] (running f !! URL w).

Definition set_running (f : Fleet) (w : V9Worker) (ids : list ComponentID)
  : Fleet :=
  {| desired := desired f;
     running := <[URL w := ids]> (running f);
     unreachable := unreachable f;
     head_commit := head_commit f;
     forwards_sentinel := forwards_sentinel f;
     random := random f |}.

(** A worker that can be reached answers with what it runs. *)
Definition fleet_Status (w : V9Worker) (f : Fleet)
  : Result StatusResponse * Fleet :=
  if bool_decide (URL w ∈ unreachable f)
  then (Err "connection refused", f)
  else (Ok (status_of (runs f w)), f).

(** Modelled from the spec: the [activator] package, which the reconciler
    imports and whose source is not among the files at hand.  Its
    [Activate(id, worker)] stages the artifact for [id], resolving the
    sentinel to a concrete hash, calls the worker client's [Activate], and
    returns the hash deployed.  Under which hash the worker then lists the
    component is not said; [forwards_sentinel] settles it. *)
Definition fleet_Activate (id : ComponentID) (w : V9Worker) (f : Fleet)
  : Result string * Fleet :=
  let resolved :=
    if String.eqb (id_Hash id) headHashSentinel then head_commit f
    else id_Hash id in
  let listed :=
    if forwards_sentinel f then id
    else {| id_User := id_User id; id_Repo := id_Repo id; id_Hash := resolved |} in
  (Ok resolved, set_running f w (runs f w ++ [listed])%list).

(** Modelled from the spec: the [activator]'s [Deactivate(id, worker)],
    which calls the worker client's [Deactivate]; the worker stops the
    component it runs under exactly that ID, if any. *)
Definition fleet_Deactivate (id : ComponentID) (w : V9Worker) (f : Fleet)
  : Result unit * Fleet :=
  (Ok tt,
   set_running f w (List.filter (fun c => negb (ComponentID_eqb c id)) (runs f w))).

(** The next number of the list, brought below [n]. *)
Definition fleet_Intn (n : nat) (f : Fleet) : nat * Fleet :=
  match random f with
  | [] => (0, f)
  | k :: rest =>
      (k mod n,
       {| desired := desired f; running := running f;
          unreachable := unreachable f; head_commit := head_commit f;
          forwards_sentinel := forwards_sentinel f; random := rest |})
  end.

(** Modelled from the spec: the [database] driver's
    [FindActiveComponents], which returns the desired paths or an error,
    is the fleet's [desired]. *)
Definition fleetEnv : Env Fleet :=
  {| driver_FindActiveComponents := fun f => (desired f, f);
     worker_Status := fleet_Status;
     activator_Activate := fleet_Activate;
     activator_Deactivate := fleet_Deactivate;
     rand_Intn := fleet_Intn |}.

(** The Version Index a run left, as a list. *)
Definition index_of {A} (r : Outcome A * (ActionManager * Fleet) * list Event)
  : list (ComponentPath * string) := map_to_list (pathHashes (final r).1).

Definition manager (ws : list V9Worker)
    (index : list (ComponentPath * string)) : ActionManager :=
  set_pathHashes (NewActionManager ws) (list_to_map index).

Definition W1 : V9Worker := {| URL := "w1:8080" |}.
Definition W2 : V9Worker := {| URL := "w2:8080" |}.

Definition alice_svc : ComponentPath :=
  {| path_User := "alice"; path_Repo := "svc" |}.

Definition alice_svc_at (hash : string) : ComponentID :=
  componentID alice_svc hash.

Definition fleet_of (active : list ComponentPath)
    (ws : list (V9Worker * list ComponentID)) : Fleet :=
  {| desired := Ok active;
     running := list_to_map (map (fun x => (URL x.1, x.2)) ws);
     unreachable := [];
     head_commit := "c0ffee";
     forwards_sentinel := false;
     random := [] |}.

(** ** Named fleets *)

Definition bob_old : ComponentID :=
  {| id_User := "bob"; id_Repo := "old"; id_Hash := "h0" |}.

Definition second_worker_down : Fleet :=
  {| desired := Ok [alice_svc];
     running := {[ URL W1 := [alice_svc_at "h1"] ]};
     unreachable := [URL W2];
     head_commit := "c0ffee";
     forwards_sentinel := false;
     random := [] |}.

Definition stale_replica : Fleet :=
  fleet_of [alice_svc] [(W1, [alice_svc_at "h2"]); (W2, [alice_svc_at "h1"])].

Definition at_rest : Fleet :=
  fleet_of [alice_svc] [(W1, [alice_svc_at "h2"]); (W2, [])].

(** A fleet whose activator passes the ID on as it received it: a
    component activated under the sentinel is listed by its worker under
    ["HEAD"], while the activator returns the commit it resolved. *)
Definition sentinel_forwarded : Fleet :=
  {| desired := Ok [alice_svc];
     running := ∅;
     unreachable := [];
     head_commit := "c0ffee";
     forwards_sentinel := true;
     random := [] |}.

(** Nothing of [alice/svc] runs and nothing is known of it; [bob/old]
    runs and is not desired. *)
Definition leftover : Fleet :=
  fleet_of [alice_svc] [(W1, [bob_old]); (W2, [])].

End Fleet.

Import Worker Deployment.

(* ================================================================== *)
(** * The vocabulary of the properties *)
(* ================================================================== *)

(** ** Properties of runs *)

(** [R s r] relates the state a computation starts in to its run; [holds R m]
    says that every run of [m] is so related to its start. *)
Definition holds {W}
    (R : forall A : Type,
        ActionManager * W -> Outcome A * (ActionManager * W) * list Event -> Prop)
    {A} (m : M A) : Prop :=
  forall s, R A s (m s).

(** The run leaves the manager as it was. *)
Definition keeps_manager {W} (A : Type) (s : ActionManager * W)
    (r : Outcome A * (ActionManager * W) * list Event) : Prop :=
  (final r).1 = s.1.

(** Every call the run logged is of the kind [Q]. *)
Definition logs_only {W} (Q : Event -> bool) (A : Type) (s : ActionManager * W)
    (r : Outcome A * (ActionManager * W) * list Event) : Prop :=
  Forall (fun ev => Q ev = true) (log r).

(** ** Kinds of events *)

Definition is_Status (ev : Event) : bool :=
  match ev with EvStatus _ _ => true | _ => false end.

Definition not_Status (ev : Event) : bool := negb (is_Status ev).

Definition not_Activate (ev : Event) : bool := negb (is_Activate ev).

Definition not_Deactivate (ev : Event) : bool := negb (is_Deactivate ev).

Definition is_command (ev : Event) : bool := is_Activate ev || is_Deactivate ev.

(** The [Activate] and [Deactivate] calls of a log, in order. *)
Definition commands (t : list Event) : list Event := List.filter is_command t.

(** The workers whose [Status] was asked, in the order of asking. *)
Fixpoint queried (t : list Event) : list V9Worker :=
  match t with
  | [] => []
  | EvStatus w _ :: t' => w :: queried t'
  | _ :: t' => queried t'
  end.

(** A [Status] answer that lists some version of [path]. *)
Definition reports (path : ComponentPath) (ev : Event) : bool :=
  match ev with
  | EvStatus _ (Ok status) => ContainsPath status path
  | _ => false
  end.

(** Not a [Deactivate] of a component of path [p]. *)
Definition spares (p : ComponentPath) (ev : Event) : bool :=
  match ev with
  | EvDeactivate id _ _ => bool_decide (path_of id <> p)
  | _ => true
  end.

(** Neither activates nor deactivates anything but [id]. *)
Definition commands_only (id : ComponentID) (ev : Event) : bool :=
  match ev with
  | EvActivate id' _ _ | EvDeactivate id' _ _ => bool_decide (id' = id)
  | _ => true
  end.

(** Activates nothing, and deactivates only components that [ok] admits. *)
Definition deactivates_only (ok : ComponentID -> bool) (ev : Event) : bool :=
  match ev with
  | EvActivate _ _ _ => false
  | EvDeactivate id _ _ => ok id
  | _ => true
  end.

(** ** Error short-circuit *)

Definition succeeded (ev : Event) : Prop := failed ev = None.

(** A run that returns an error made one failing call, its last, and
    returns that call's error; any other run made no failing call. *)
Definition short_circuits {A} (o : Outcome A) (t : list Event) : Prop :=
  match o with
  | Fail e =>
      exists pre ev, t = pre ++ [ev] /\ failed ev = Some e /\ Forall succeeded pre
  | _ => Forall succeeded t
  end.

(** The run stops at its first failing call. *)
Definition stops_at_failure {W} (A : Type) (s : ActionManager * W)
    (r : Outcome A * (ActionManager * W) * list Event) : Prop :=
  short_circuits (outcome r) (log r).

(** ** The Version Index across a run *)

(** The log holds a successful activation of path [p] under the sentinel
    that the activator answered with [h]. *)
Definition resolved_in (t : list Event) (p : ComponentPath) (h : string) : Prop :=
  exists id w,
    In (EvActivate id w (Ok h)) t
    /\ id_Hash id = headHashSentinel /\ path_of id = p.

(** Everything of the manager but the index. *)
Definition same_fleet_and_queues (mgr mgr' : ActionManager) : Prop :=
  workers mgr' = workers mgr
  /\ pathHashUpdater mgr' = pathHashUpdater mgr
  /\ dirtyStateNotifier mgr' = dirtyStateNotifier mgr.

Definition index_written_by_resolution (mgr : ActionManager) (t : list Event)
    (mgr' : ActionManager) : Prop :=
  forall p,
    pathHashes mgr' !! p = pathHashes mgr !! p
    \/ exists h, resolved_in t p h /\ pathHashes mgr' !! p = Some h.

(** A run that leaves the manager as it was but for index entries written
    by resolutions. *)
Definition frames {W} (A : Type) (s : ActionManager * W)
    (r : Outcome A * (ActionManager * W) * list Event) : Prop :=
  same_fleet_and_queues s.1 (final r).1
  /\ index_written_by_resolution s.1 (log r) (final r).1.

(** The hash that [ev] resolves path [p] to: [ev] is a successful
    activation of [p] under the sentinel. *)
Definition resolution_of (p : ComponentPath) (ev : Event) : option string :=
  match ev with
  | EvActivate id _ (Ok h) =>
      if String.eqb (id_Hash id) headHashSentinel && bool_decide (path_of id = p)
      then Some h
      else None
  | _ => None
  end.

(** The index entry of [p] once [ev] has happened. *)
Definition entry_step (p : ComponentPath) (entry : option string) (ev : Event)
  : option string :=
  match resolution_of p ev with
  | Some h => Some h
  | None => entry
  end.

(** The index entry of [p] after the calls of [t], from [entry]: the last
    resolution of [p] in [t], or [entry] when there is none. *)
Fixpoint entry_after (p : ComponentPath) (entry : option string)
    (t : list Event) : option string :=
  match t with
  | [] => entry
  | ev :: t' => entry_after p (entry_step p entry ev) t'
  end.

(** The index after the run is the index before it, with the resolutions
    of the log applied in order. *)
Definition tracks {W} (A : Type) (s : ActionManager * W)
    (r : Outcome A * (ActionManager * W) * list Event) : Prop :=
  forall p,
    pathHashes (final r).1 !! p = entry_after p (pathHashes s.1 !! p) (log r).

(** What an activation step leaves behind.  If the run logged a successful
    activation, it is of [id], the step returned [nil], and the index is
    the one the step started with, apart from the entry of [id]'s path when
    [id] carries the sentinel: that entry is the hash the activator
    returned. *)
Definition records_resolution {W} (id : ComponentID) (s : ActionManager * W)
    (r : Outcome unit * (ActionManager * W) * list Event) : Prop :=
  forall id' w h,
    In (EvActivate id' w (Ok h)) (log r) ->
    id' = id
    /\ outcome r = Return tt
    /\ (id_Hash id = headHashSentinel ->
        pathHashes (final r).1 = <[path_of id := h]> (pathHashes s.1))
    /\ (id_Hash id <> headHashSentinel ->
        pathHashes (final r).1 = pathHashes s.1).

(** ** Statuses and the index *)

(** The status lists [p] under no hash but [h]. *)
Definition lists_only (p : ComponentPath) (h : string) (status : StatusResponse)
  : Prop :=
  forall c,
    In c (ActiveComponents status) -> path_of (ID c) = p -> id_Hash (ID c) = h.

(** Every status answer of [t] agrees with the index entry of [p] at the
    time of the answer: while [p] has an entry, the workers asked list [p]
    under the hash of that entry only. *)
Fixpoint agrees (p : ComponentPath) (entry : option string) (t : list Event)
  : Prop :=
  match t with
  | [] => True
  | ev :: t' =>
      match ev, entry with
      | EvStatus _ (Ok status), Some h => lists_only p h status
      | _, _ => True
      end
      /\ agrees p (entry_step p entry ev) t'
  end.

(** While the statuses agree with the index on [p], the run deactivates no
    component of path [p]. *)
Definition guards {W} (p : ComponentPath) (A : Type) (s : ActionManager * W)
    (r : Outcome A * (ActionManager * W) * list Event) : Prop :=
  tracks A s r
  /\ (agrees p (pathHashes s.1 !! p) (log r) ->
      Forall (fun ev => spares p ev = true) (log r)).

(** ** The scan of Phase 2 *)

(** The logs the loop of [activateMissing] can leave over a fleet, with
    the way it ended. *)
Inductive scan_log (path : ComponentPath)
  : list V9Worker -> Outcome bool -> list Event -> Prop :=
| scan_done :
    scan_log path [] (Return false) []
| scan_found w ws status :
    ContainsPath status path = true ->
    scan_log path (w :: ws) (Return true) [EvStatus w (Ok status)]
| scan_failed w ws e :
    scan_log path (w :: ws) (Fail e) [EvStatus w (Err e)]
| scan_next w ws status o t :
    ContainsPath status path = false ->
    scan_log path ws o t ->
    scan_log path (w :: ws) o (EvStatus w (Ok status) :: t).

(** ** Converged fleets *)

(** The fleet [ws], answering [snapshot], has converged on the desired
    set [active] and the index: no worker runs a component of a path that
    is not desired; and every desired path has an entry in the index, some
    worker runs the component with that hash, and no worker runs that path
    under any other hash. *)
Definition converged (ws : list V9Worker) (snapshot : V9Worker -> StatusResponse)
    (active : list ComponentPath) (index : gmap ComponentPath string) : Prop :=
  (forall w c,
      In w ws -> In c (ActiveComponents (snapshot w)) ->
      In (path_of (ID c)) active)
  /\ (forall p,
        In p active ->
        exists h,
          index !! p = Some h
          /\ (exists w,
                 In w ws
                 /\ ContainsExactly (snapshot w) (componentID p h) = true)
          /\ (forall w c,
                 In w ws -> In c (ActiveComponents (snapshot w)) ->
                 path_of (ID c) = p -> id_Hash (ID c) = h)).

(** The specification's wording of convergence, read to the letter: every
    desired path has an index entry and exactly one worker of the fleet
    runs the component with that hash, and no worker runs a component of a
    path that is not desired. *)
Definition converged_to_the_letter (ws : list V9Worker)
    (snapshot : V9Worker -> StatusResponse)
    (active : list ComponentPath) (index : gmap ComponentPath string) : Prop :=
  (forall p,
      In p active ->
      exists h,
        index !! p = Some h
        /\ length (List.filter
                     (fun w => ContainsExactly (snapshot w) (componentID p h)) ws)
           = 1)
  /\ (forall w c,
        In w ws -> In c (ActiveComponents (snapshot w)) ->
        In (path_of (ID c)) active).

(** From the manager [mgr] and any world that [Stable] admits, [c] returns
    [v], issues no command, and leaves the manager as it is and the world
    within [Stable]. *)
Definition calm {W} (Stable : W -> Prop) (mgr : ActionManager)
    {A} (c : M A) (v : A) : Prop :=
  forall world,
    Stable world ->
    exists world' t,
      c (mgr, world) = (Return v, (mgr, world'), t)
      /\ Stable world'
      /\ Forall (fun ev => is_command ev = false) t.

(** ** The dirty signal *)

(** How many reconciliations are queued: the signals waiting in the
    channel, each of which lets one [reconcileOnce] through. *)
Definition pending (mgr : ActionManager) : nat :=
  length (chan_buf (dirtyStateNotifier mgr)).

(** A burst of [n] notifications with no receive in between. *)
Fixpoint notify_times (n : nat) (mgr : ActionManager) : Step ActionManager :=
  match n with
  | O => Done mgr
  | S n' =>
      match NotifyComponentStateChanged mgr with
      | Done mgr' => notify_times n' mgr'
      | Blocked => Blocked
      end
  end.

(** ** The worker client *)

(** The same reply with another code on its status line. *)
Definition with_code (code : Z) (r : Result Response) : Result Response :=
  match r with
  | Ok resp => Ok {| StatusCode := code; Body := Body resp |}
  | Err e => Err e
  end.

Definition is_2xx (code : Z) : bool := ((200 <=? code) && (code <? 300))%Z.

Definition status_url (worker : V9Worker) : string :=
  ("http://" ++ URL worker ++ "/meta/status")%string.

(** [json.Unmarshal] at the one body sent below: the empty object decodes,
    without error, to the zero [StatusResponse]. *)
Definition unmarshal_empty_object (body : string) : Result StatusResponse :=
  if String.eqb body "{}"%string
  then Ok {| CPUUsage := float64_zero; MemoryUsage := float64_zero;
             NetworkUsage := float64_zero; ActiveComponents := [] |}
  else Err "unexpected end of JSON input"%string.

(** A worker that answers every request with [500] and the body [{}]. *)
Definition answers_500 (url : string) : Result Response :=
  Ok {| StatusCode := 500; Body := Ok "{}"%string |}.

(** ** The commands of the worker client *)

Definition logs_url (worker : V9Worker) : string :=
  ("http://" ++ URL worker ++ "/meta/logs")%string.

Definition command_url (worker : V9Worker) (route : string) : string :=
  ("http://" ++ URL worker ++ route)%string.

(** Two replies that differ at most in the code of the status line and in
    the text of a body that could be read. *)
Definition same_read (a b : Response) : Prop :=
  match Body a, Body b with
  | Ok _, Ok _ => True
  | Err e, Err e' => e = e'
  | _, _ => False
  end.

(** The network that answers [g resp] where [http_Post] answers [resp]. *)
Definition answering {Net} (g : Response -> Response)
    (http_Post : string -> string -> string -> Net -> Result Response * Net)
  : string -> string -> string -> Net -> Result Response * Net :=
  fun url contentType body net =>
    match http_Post url contentType body net with
    | (Ok resp, net') => (Ok (g resp), net')
    | (Err e, net') => (Err e, net')
    end.

(** A network that remembers nothing and answers every POST with [200]. *)
Definition accepts (url contentType body : string) (net : unit)
  : Result Response * unit :=
  (Ok {| StatusCode := 200; Body := Ok "{}"%string |}, net).

(** The reply of a worker that could not do what it was asked. *)
Definition refusal (resp : Response) : Response :=
  {| StatusCode := 500;
     Body := match Body resp with
             | Ok _ => Ok "no such image"%string
             | Err e => Err e
             end |}.

(** The deactivation request a worker gets for [body]. *)
Definition deactivation (body : string) (worker : V9Worker) : Request :=
  POST (command_url worker "/meta/deactivate") "application/json" body.

(** ** The update queue *)

(** [UpdateComponentHash] for each of [ids], in order, by one caller. *)
Fixpoint send_updates (ids : list ComponentID) (mgr : ActionManager)
  : Step ActionManager :=
  match ids with
  | [] => Done mgr
  | id :: rest =>
      match UpdateComponentHash mgr id with
      | Done mgr' => send_updates rest mgr'
      | Blocked => Blocked
      end
  end.

(** [n] turns of the updating goroutine. *)
Fixpoint apply_updates (n : nat) (mgr : ActionManager) : Step ActionManager :=
  match n with
  | O => Done mgr
  | S n' =>
      match applyUpdate mgr with
      | Done mgr' => apply_updates n' mgr'
      | Blocked => Blocked
      end
  end.

(** The index with the hashes of [ids] written at their paths, in order. *)
Definition written (ids : list ComponentID) (index : gmap ComponentPath string)
  : gmap ComponentPath string :=
  foldl (fun m id => <[path_of id := id_Hash id]> m) index ids.

(** The updates waiting to be applied. *)
Definition queued (mgr : ActionManager) : list ComponentID :=
  chan_buf (pathHashUpdater mgr).

(** ** What a pass activates *)

(** A status call, a draw or a deactivation. *)
Definition asks_or_stops (ev : Event) : bool :=
  match ev with
  | EvStatus _ _ | EvIntn _ _ | EvDeactivate _ _ _ => true
  | _ => false
  end.

(** How many activations a log holds. *)
Definition activations (t : list Event) : nat :=
  length (List.filter is_Activate t).

(** A log with at most one activation, of [id], as its last call. *)
Definition activates_last (id : ComponentID) (t : list Event) : Prop :=
  exists pre tail,
    t = pre ++ tail
    /\ Forall (fun ev => asks_or_stops ev = true) pre
    /\ (tail = [] \/ exists w res, tail = [EvActivate id w res]).

(** After the read of the desired set: no second read of it, and nothing
    but components of the paths [active] is activated or looked up. *)
Definition for_desired (active : list ComponentPath) (ev : Event) : bool :=
  match ev with
  | EvFindActiveComponents _ => false
  | EvActivate id _ _ => bool_decide (path_of id ∈ active)
  | EvIndexRead p => bool_decide (p ∈ active)
  | _ => true
  end.

(** The hash the reconciler asks for when the index holds [entry]. *)
Definition hash_to_deploy (entry : option string) : string :=
  default headHashSentinel entry.

(** The index follows the log, and every activation of the run asks for
    the hash the index holds for the path at that point of the log, or for
    the sentinel when it holds none. *)
Definition deploys_the_indexed {W} (A : Type) (s : ActionManager * W)
    (r : Outcome A * (ActionManager * W) * list Event) : Prop :=
  tracks A s r
  /\ forall pre id w res post,
      log r = pre ++ EvActivate id w res :: post ->
      id_Hash id
      = hash_to_deploy
          (entry_after (path_of id) (pathHashes s.1 !! path_of id) pre).

(** The run makes at most [n] activations. *)
Definition at_most {W} (n : nat) (A : Type) (s : ActionManager * W)
    (r : Outcome A * (ActionManager * W) * list Event) : Prop :=
  activations (log r) <= n.

(** ** The scan and the placement of Phase 3 *)

(** A [Status] answer that does not list exactly [compID]. *)
Definition misses (compID : ComponentID) (ev : Event) : bool :=
  match ev with
  | EvStatus _ (Ok status) => negb (ContainsExactly status compID)
  | _ => false
  end.

(** The workers whose [Status] answer in [t] lists no version of
    [compPath], in the order of asking. *)
Fixpoint free_workers (compPath : ComponentPath) (t : list Event)
  : list V9Worker :=
  match t with
  | [] => []
  | EvStatus w (Ok status) :: t' =>
      if negb (ContainsPath status compPath)
      then w :: free_workers compPath t'
      else free_workers compPath t'
  | _ :: t' => free_workers compPath t'
  end.

(** The logs the loop of [ensureSomeWorkerIsRunning] can leave over a
    fleet, with the way it ended. *)
Inductive ensure_log (compID : ComponentID)
  : list V9Worker -> Outcome bool -> list Event -> Prop :=
| ensure_done :
    ensure_log compID [] (Return false) []
| ensure_found w ws status :
    ContainsExactly status compID = true ->
    ensure_log compID (w :: ws) (Return true) [EvStatus w (Ok status)]
| ensure_failed w ws e :
    ensure_log compID (w :: ws) (Fail e) [EvStatus w (Err e)]
| ensure_next w ws status o t :
    ContainsExactly status compID = false ->
    ensure_log compID ws o t ->
    ensure_log compID (w :: ws) o (EvStatus w (Ok status) :: t).

(** [true] when the scan found the component running. *)
Definition found {A} (o : Outcome (option A)) : Outcome bool :=
  match o with
  | Return None => Return true
  | Return (Some _) => Return false
  | Fail e => Fail e
  | Panic => Panic
  end.

(** A draw or a deactivation. *)
Definition places (ev : Event) : bool :=
  match ev with
  | EvIntn _ _ | EvDeactivate _ _ _ => true
  | _ => false
  end.

(** Where [ensureSomeWorkerIsRunning] deploys to, from the list the scan
    left: a free worker when there is one, otherwise any worker, told first
    to deactivate [compID]. *)
Definition choose {W} (env : Env W) (compID : ComponentID)
    (ws notRunningAnyVersion : list V9Worker) : M V9Worker :=
  if 0 <? length notRunningAnyVersion
  then bind (Intn env (length notRunningAnyVersion)) (fun k =>
         index notRunningAnyVersion k)
  else bind (Intn env (length ws)) (fun k =>
         bind (index ws k) (fun target =>
           bind (Deactivate env compID target) (fun _ => ret target))).

(** ** The fleet *)

(** A call to a worker goes to a worker of [ws]. *)
Definition aims_at (ws : list V9Worker) (ev : Event) : bool :=
  match ev with
  | EvStatus w _ | EvActivate _ w _ | EvDeactivate _ w _ =>
      bool_decide (w ∈ ws)
  | _ => true
  end.

(** From a manager whose fleet is [ws], the run leaves the fleet as it is
    and calls no worker outside it. *)
Definition within {W} (ws : list V9Worker) (A : Type) (s : ActionManager * W)
    (r : Outcome A * (ActionManager * W) * list Event) : Prop :=
  workers s.1 = ws ->
  workers (final r).1 = ws /\ Forall (fun ev => aims_at ws ev = true) (log r).

(** [rand.Intn(n)] returns a number of [[0, n)]. *)
Definition conforming {W} (env : Env W) : Prop :=
  forall n world, 0 < n -> (rand_Intn env n world).1 < n.

(** The run leaves the fleet as it is, and does not panic when the fleet
    is not empty. *)
Definition steady {W} (A : Type) (s : ActionManager * W)
    (r : Outcome A * (ActionManager * W) * list Event) : Prop :=
  workers (final r).1 = workers s.1
  /\ (workers s.1 <> [] -> outcome r <> Panic).

(** From a manager whose fleet is [ws], the run leaves the fleet as it is
    and asks for at most [n] statuses. *)
Definition polls {W} (ws : list V9Worker) (n : nat) (A : Type)
    (s : ActionManager * W)
    (r : Outcome A * (ActionManager * W) * list Event) : Prop :=
  workers s.1 = ws ->
  workers (final r).1 = ws /\ length (queried (log r)) <= n.

(** ** What a pass deactivates *)

(** What a log told which worker to stop, in order. *)
Fixpoint deactivations (t : list Event) : list (ComponentID * V9Worker) :=
  match t with
  | [] => []
  | EvDeactivate id w _ :: t' => (id, w) :: deactivations t'
  | _ :: t' => deactivations t'
  end.

(** A version of [compID]'s path other than [compID]'s. *)
Definition stale (compID id : ComponentID) : Prop :=
  path_of id = path_of compID /\ id_Hash id <> id_Hash compID.

#[global] Instance stale_dec compID id : Decision (stale compID id).
Proof. unfold stale. apply _. Defined.

(** The test of [deactivateIfHashDiffers]. *)
Definition hash_differs (compID : ComponentID) (runningComp : ComponentStats)
  : bool :=
  String.eqb (id_User (ID runningComp)) (id_User compID)
  && String.eqb (id_Repo (ID runningComp)) (id_Repo compID)
  && negb (String.eqb (id_Hash (ID runningComp)) (id_Hash compID)).

(** [Deactivate] on [w] for each of [ids], in order. *)
Definition stop_on (w : V9Worker) (ids : list ComponentID)
  : list (ComponentID * V9Worker) :=
  map (fun id => (id, w)) ids.

(* ================================================================== *)
(** * Reasoning about runs *)
(* ================================================================== *)

Section Runs.

Context {W : Type} (env : Env W).

Abbreviation St := (ActionManager * W)%type.
Abbreviation Run A := (Outcome A * St * list Event)%type.

Lemma bind_inv {A B} (m : M A) (k : A -> M B) (s : St) o s2 t :
  bind m k s = (o, s2, t) ->
  (exists a s1 t1 t2,
      m s = (Return a, s1, t1) /\ k a s1 = (o, s2, t2) /\ t = t1 ++ t2)
  \/ (exists e, m s = (Fail e, s2, t) /\ o = Fail e)
  \/ (m s = (Panic, s2, t) /\ o = Panic).
Proof.
  unfold bind. destruct (m s) as [[[a|e|] s1] t1].
  - destruct (k a s1) as [[o' s2'] t2] eqn:Hk. intros [= <- <- <-].
    left. exists a, s1, t1, t2. auto.
  - intros [= <- <- <-]. right. left. eauto.
  - intros [= <- <- <-]. right. right. auto.
Qed.

(** ** Properties of runs that pass through [ret] and [bind]

    [R s r] relates the state a computation starts in to its run.  When
    [R] is kept by [ret], [panic] and [bind] and holds of the calls to the
    collaborators, it holds of everything the reconciler is built of. *)

Section Closed.

Variable R : forall A : Type, St -> Run A -> Prop.

Hypothesis R_ret : forall A (a : A) s, R A s (Return a, s, []).
Hypothesis R_panic : forall A s, R A s (Panic, s, []).
Hypothesis R_bind : forall A B (m : M A) (k : A -> M B) s,
    R A s (m s) ->
    (forall a s1 t1, m s = (Return a, s1, t1) -> R B s1 (k a s1)) ->
    R B s (bind m k s).

Lemma holds_ret {A} (a : A) : holds R (ret a).
Proof. intros s. apply R_ret. Qed.

Lemma holds_panic {A} : holds R (@panic W A).
Proof. intros s. apply R_panic. Qed.

Lemma holds_bind {A B} (m : M A) (k : A -> M B) :
  holds R m -> (forall a, holds R (k a)) -> holds R (bind m k).
Proof. intros Hm Hk s. apply R_bind; [apply Hm | intros; apply Hk]. Qed.

Lemma holds_index {A} (l : list A) k : holds R (index l k).
Proof.
  unfold index. destruct (l !! k); [apply holds_ret | apply holds_panic].
Qed.

Lemma holds_for_range {X} (xs : list X) (body : X -> M unit) :
  (forall x, holds R (body x)) -> holds R (for_range xs body).
Proof.
  intros Hb. induction xs as [|x xs IH]; simpl.
  - apply holds_ret.
  - apply holds_bind; auto.
Qed.

Hypothesis R_FindActiveComponents : holds R (FindActiveComponents env).
Hypothesis R_Status : forall w, holds R (Status env w).
Hypothesis R_Deactivate : forall id w, holds R (Deactivate env id w).
Hypothesis R_Intn : forall n, holds R (Intn env n).
Hypothesis R_get_workers : holds R (get_workers (W:=W)).
Hypothesis R_lookup : forall p, holds R (lookup_pathHashes (W:=W) p).
(** An activation together with the write that follows it. *)
Hypothesis R_Activate : forall id w,
    holds R (bind (Activate env id w) (fun h =>
             if String.eqb (id_Hash id) headHashSentinel
             then store_pathHashes (path_of id) h
             else ret tt)).

Lemma holds_deactivateNonactive w active :
  holds R (deactivateNonactive env w active).
Proof.
  unfold deactivateNonactive. apply holds_bind; [apply R_Status|].
  intros status. apply holds_for_range. intros id. apply R_Deactivate.
Qed.

Lemma holds_activateMissing_loop path ws :
  holds R (activateMissing_loop env path ws).
Proof.
  induction ws as [|w ws IH]; simpl; [apply holds_ret|].
  apply holds_bind; [apply R_Status|]. intros status.
  destruct (ContainsPath status path); [apply holds_ret | apply IH].
Qed.

Lemma holds_activateMissing toCheck : holds R (activateMissing env toCheck).
Proof.
  unfold activateMissing. apply holds_bind; [apply R_get_workers|].
  intros ws. apply holds_bind; [apply holds_activateMissing_loop|].
  intros [|]; [apply holds_ret|].
  apply holds_bind; [apply R_Intn|]. intros k.
  apply holds_bind; [apply holds_index|]. intros w.
  apply R_Activate.
Qed.

Lemma holds_ensureSomeWorkerIsRunning_loop compID compPath ws acc :
  holds R (ensureSomeWorkerIsRunning_loop env compID compPath ws acc).
Proof.
  revert acc. induction ws as [|w ws IH]; intros acc; simpl;
    [apply holds_ret|].
  apply holds_bind; [apply R_Status|]. intros status.
  destruct (ContainsExactly_loop _ _); [apply holds_ret | apply IH].
Qed.

Lemma holds_ensureSomeWorkerIsRunning compID :
  holds R (ensureSomeWorkerIsRunning env compID).
Proof.
  unfold ensureSomeWorkerIsRunning. apply holds_bind; [apply R_get_workers|].
  intros ws. apply holds_bind; [apply holds_ensureSomeWorkerIsRunning_loop|].
  intros [notRunning|]; [|apply holds_ret].
  apply holds_bind; [|intros w; apply R_Activate].
  destruct (0 <? length notRunning).
  - apply holds_bind; [apply R_Intn | intros k; apply holds_index].
  - apply holds_bind; [apply R_Intn|]. intros k.
    apply holds_bind; [apply holds_index|]. intros w.
    apply holds_bind; [apply R_Deactivate | intros _; apply holds_ret].
Qed.

Lemma holds_deactivateIfHashDiffers w compID :
  holds R (deactivateIfHashDiffers env w compID).
Proof.
  unfold deactivateIfHashDiffers. apply holds_bind; [apply R_Status|].
  intros status. apply holds_for_range. intros c.
  match goal with |- holds R (if ?b then _ else _) => destruct b end;
    [apply R_Deactivate | apply holds_ret].
Qed.

Lemma holds_phase1 active : holds R (phase1 env active).
Proof.
  unfold phase1. apply holds_bind; [apply R_get_workers|]. intros ws.
  apply holds_for_range. intros w. apply holds_deactivateNonactive.
Qed.

Lemma holds_phase2 active : holds R (phase2 env active).
Proof.
  unfold phase2. apply holds_for_range. intros p.
  apply holds_bind; [apply R_lookup|]. intros entry.
  apply holds_activateMissing.
Qed.

Lemma holds_phase3 active : holds R (phase3 env active).
Proof.
  unfold phase3. apply holds_for_range. intros p.
  apply holds_bind; [apply R_lookup|]. intros [h|];
    [apply holds_ensureSomeWorkerIsRunning | apply holds_ret].
Qed.

Lemma holds_phase4 active : holds R (phase4 env active).
Proof.
  unfold phase4. apply holds_for_range. intros p.
  apply holds_bind; [apply R_lookup|]. intros [h|]; [|apply holds_ret].
  apply holds_bind; [apply R_get_workers|]. intros ws.
  apply holds_for_range. intros w. apply holds_deactivateIfHashDiffers.
Qed.

Lemma holds_HandleDirtyState : holds R (HandleDirtyState env).
Proof.
  unfold HandleDirtyState.
  apply holds_bind; [apply R_FindActiveComponents|]. intros active.
  apply holds_bind; [apply holds_phase1|]. intros _.
  apply holds_bind; [apply holds_phase2|]. intros _.
  apply holds_bind; [apply holds_phase3|]. intros _.
  apply holds_phase4.
Qed.

End Closed.

End Runs.

(* ================================================================== *)
(** * Inverting and rewriting runs *)
(* ================================================================== *)

Section Inversion.

Context {W : Type} (env : Env W).

Lemma call_inv {A} (f : W -> Result A * W) (ev : Result A -> Event)
    (s : ActionManager * W) o s' t :
  call f ev s = (o, s', t) ->
  (exists a w', f s.2 = (Ok a, w')
     /\ o = Return a /\ s' = (s.1, w') /\ t = [ev (Ok a)])
  \/ (exists e w', f s.2 = (Err e, w')
        /\ o = Fail e /\ s' = (s.1, w') /\ t = [ev (Err e)]).
Proof.
  unfold call. destruct (f s.2) as [[a|e] w']; intros [= <- <- <-];
    [left | right]; eauto 10.
Qed.

Lemma Intn_inv n (s : ActionManager * W) o s' t :
  Intn env n s = (o, s', t) ->
  (n = 0 /\ o = Panic /\ s' = s /\ t = [])
  \/ (exists k w', 0 < n /\ rand_Intn env n s.2 = (k, w')
        /\ o = Return k /\ s' = (s.1, w') /\ t = [EvIntn n k]).
Proof.
  unfold Intn. destruct n as [|n].
  - intros [= <- <- <-]. left. auto.
  - destruct (rand_Intn env (S n) s.2) as [k w'] eqn:Hr.
    intros [= <- <- <-]. right. exists k, w'. repeat split; auto. lia.
Qed.

Lemma index_inv {A} (l : list A) k (s : ActionManager * W) o s' t :
  index l k s = (o, s', t) ->
  s' = s /\ t = []
  /\ ((exists a, l !! k = Some a /\ o = Return a)
      \/ (l !! k = None /\ o = Panic)).
Proof.
  unfold index. destruct (l !! k) as [a|]; intros [= <- <- <-]; eauto 10.
Qed.

(** ** Two properties that pass through [bind]: the manager is left as it
    was, and every call logged is of a given kind. *)

Lemma keeps_manager_bind A B (m : M A) (k : A -> M B) (s : ActionManager * W) :
  keeps_manager A s (m s) ->
  (forall a s1 t1, m s = (Return a, s1, t1) -> keeps_manager B s1 (k a s1)) ->
  keeps_manager B s (bind m k s).
Proof.
  unfold keeps_manager, bind, final. intros Hm Hk.
  destruct (m s) as [[[a|e|] s1] t1]; simpl in *; auto.
  specialize (Hk a s1 t1 eq_refl).
  destruct (k a s1) as [[o s2] t2]; simpl in *. congruence.
Qed.

Lemma logs_only_bind Q A B (m : M A) (k : A -> M B) (s : ActionManager * W) :
  logs_only Q A s (m s) ->
  (forall a s1 t1, m s = (Return a, s1, t1) -> logs_only Q B s1 (k a s1)) ->
  logs_only Q B s (bind m k s).
Proof.
  unfold logs_only, bind, log. intros Hm Hk.
  destruct (m s) as [[[a|e|] s1] t1]; simpl in *; auto.
  specialize (Hk a s1 t1 eq_refl).
  destruct (k a s1) as [[o s2] t2]; simpl in *. apply Forall_app; auto.
Qed.

Lemma keeps_manager_call A (f : W -> Result A * W) (ev : Result A -> Event)
    (s : ActionManager * W) :
  keeps_manager A s (call f ev s).
Proof.
  unfold keeps_manager, call, final. by destruct (f s.2) as [[a|e] w'].
Qed.

Lemma logs_only_call Q A (f : W -> Result A * W) (ev : Result A -> Event)
    (s : ActionManager * W) :
  (forall r, Q (ev r) = true) -> logs_only Q A s (call f ev s).
Proof.
  intros HQ. unfold logs_only, call, log.
  destruct (f s.2) as [[a|e] w']; simpl; repeat constructor; apply HQ.
Qed.

Lemma keeps_manager_Intn n (s : ActionManager * W) :
  keeps_manager nat s (Intn env n s).
Proof.
  unfold keeps_manager, Intn, final. destruct n; [reflexivity|].
  by destruct (rand_Intn env (S n) s.2).
Qed.

Lemma logs_only_Intn Q n (s : ActionManager * W) :
  (forall k, Q (EvIntn n k) = true) -> logs_only Q nat s (Intn env n s).
Proof.
  intros HQ. unfold logs_only, Intn, log. destruct n; [constructor|].
  destruct (rand_Intn env (S n) s.2). repeat constructor. apply HQ.
Qed.

Lemma keeps_manager_index A (l : list A) k (s : ActionManager * W) :
  keeps_manager A s (index l k s).
Proof. unfold index. by destruct (l !! k). Qed.

Lemma logs_only_index Q A (l : list A) k (s : ActionManager * W) :
  logs_only Q A s (index l k s).
Proof. unfold index. destruct (l !! k); constructor. Qed.

(** The scanning loops only ask for statuses, and leave the manager alone. *)

Lemma keeps_manager_activateMissing_loop path ws (s : ActionManager * W) :
  keeps_manager bool s (activateMissing_loop env path ws s).
Proof.
  revert s.
  refine (holds_activateMissing_loop env keeps_manager _ _ _ path ws).
  - reflexivity.
  - apply keeps_manager_bind.
  - intros w s. apply keeps_manager_call.
Qed.

Lemma logs_only_activateMissing_loop path ws (s : ActionManager * W) :
  logs_only is_Status bool s (activateMissing_loop env path ws s).
Proof.
  revert s.
  refine (holds_activateMissing_loop env (logs_only is_Status) _ _ _ path ws).
  - constructor.
  - apply logs_only_bind.
  - intros w s. by apply logs_only_call.
Qed.

Lemma keeps_manager_ensureSomeWorkerIsRunning_loop compID compPath ws acc
    (s : ActionManager * W) :
  keeps_manager _ s (ensureSomeWorkerIsRunning_loop env compID compPath ws acc s).
Proof.
  revert s.
  refine (holds_ensureSomeWorkerIsRunning_loop env keeps_manager
            _ _ _ compID compPath ws acc).
  - reflexivity.
  - apply keeps_manager_bind.
  - intros w s. apply keeps_manager_call.
Qed.

Lemma logs_only_ensureSomeWorkerIsRunning_loop compID compPath ws acc
    (s : ActionManager * W) :
  logs_only is_Status _ s
    (ensureSomeWorkerIsRunning_loop env compID compPath ws acc s).
Proof.
  revert s.
  refine (holds_ensureSomeWorkerIsRunning_loop env (logs_only is_Status)
            _ _ _ compID compPath ws acc).
  - constructor.
  - apply logs_only_bind.
  - intros w s. by apply logs_only_call.
Qed.

Lemma logs_only_weaken (Q Q' : Event -> bool) (t : list Event) :
  (forall ev, Q ev = true -> Q' ev = true) ->
  Forall (fun ev => Q ev = true) t -> Forall (fun ev => Q' ev = true) t.
Proof. intros HQ HF. eapply Forall_impl; [exact HF | exact HQ]. Qed.

End Inversion.

(** Splits a run of [bind m k] into the run of [m] and, when [m] returned,
    the run of [k]. *)
Tactic Notation "bind_cases" hyp(H) "as"
    ident(a) ident(s1) ident(t1) ident(t2) ident(Hm) ident(Hk) :=
  let e := fresh "e" in
  apply bind_inv in H
    as [(a & s1 & t1 & t2 & Hm & Hk & ->) | [(e & Hm & ->) | (Hm & ->)]].

(** Splits a run of [bind m k] that returned. *)
Tactic Notation "bind_returns" hyp(H) "as"
    ident(a) ident(s1) ident(t1) ident(t2) ident(Hm) ident(Hk) :=
  let e := fresh "e" in
  apply bind_inv in H
    as [(a & s1 & t1 & t2 & Hm & Hk & ->) | [(e & _ & [=]) | (_ & [=])]].

(** Splits a run of [bind m k] that panicked. *)
Tactic Notation "bind_panics" hyp(H) "as"
    ident(a) ident(s1) ident(t1) ident(t2) ident(Hm) ident(Hk) :=
  let e := fresh "e" in
  apply bind_inv in H
    as [(a & s1 & t1 & t2 & Hm & Hk & ->) | [(e & _ & [=]) | (Hm & _)]].

(** Running a [bind] whose first part is known. *)

Section Rewriting.
Context {W : Type}.

Lemma bind_Return {A B} (m : M A) (k : A -> M B) (s : ActionManager * W) a s1 t1 :
  m s = (Return a, s1, t1) ->
  bind m k s = (outcome (k a s1), final (k a s1), t1 ++ log (k a s1)).
Proof.
  intros Hm. unfold bind, outcome, final, log. rewrite Hm.
  by destruct (k a s1) as [[o s2] t2].
Qed.

Lemma bind_Fail {A B} (m : M A) (k : A -> M B) (s : ActionManager * W) e s1 t1 :
  m s = (Fail e, s1, t1) -> bind m k s = (Fail e, s1, t1).
Proof. intros Hm. unfold bind. by rewrite Hm. Qed.

Lemma bind_Panic {A B} (m : M A) (k : A -> M B) (s : ActionManager * W) s1 t1 :
  m s = (Panic, s1, t1) -> bind m k s = (Panic, s1, t1).
Proof. intros Hm. unfold bind. by rewrite Hm. Qed.

End Rewriting.

(* ================================================================== *)
(** * The predicates over a status *)
(* ================================================================== *)

Lemma contains_In l v : contains l v = true <-> In (path_of v) l.
Proof.
  induction l as [|comp l IH]; simpl; [split; [discriminate | tauto]|].
  destruct (String.eqb_spec (path_Repo comp) (id_Repo v)) as [Hr|Hr];
    destruct (String.eqb_spec (path_User comp) (id_User v)) as [Hu|Hu]; simpl.
  - split; [|done]. intros _. left. destruct comp; unfold path_of; simpl in *.
    congruence.
  - rewrite IH. split; [tauto|]. intros [H|H]; [|done].
    subst comp. by destruct Hu.
  - rewrite IH. split; [tauto|]. intros [H|H]; [|done].
    subst comp. by destruct Hr.
  - rewrite IH. split; [tauto|]. intros [H|H]; [|done].
    subst comp. by destruct Hr.
Qed.

Lemma FindNonactive_loop_In running active acc id :
  In id (FindNonactive_loop running active acc) ->
  In id acc \/ contains active id = false.
Proof.
  revert acc. induction running as [|c running IH]; intros acc; simpl; [auto|].
  destruct (contains active (ID c)) eqn:Hc; simpl; intros Hin.
  - by apply IH.
  - apply IH in Hin as [Hin | Hin]; [|auto].
    apply in_app_or in Hin as [Hin | [<- | []]]; auto.
Qed.

Lemma FindNonactive_In status active id :
  In id (FindNonactive status active) -> contains active id = false.
Proof.
  intros Hin. apply FindNonactive_loop_In in Hin as [[] | H]. exact H.
Qed.

Lemma path_of_componentID q h : path_of (componentID q h) = q.
Proof. by destruct q. Qed.

Lemma ComponentID_eqb_eq a b : ComponentID_eqb a b = true <-> a = b.
Proof.
  unfold ComponentID_eqb. rewrite !andb_true_iff, !String.eqb_eq.
  destruct a, b; simpl. split; [intros [[-> ->] ->]; reflexivity|].
  by intros [= -> -> ->].
Qed.

Lemma ContainsExactly_loop_In comps id :
  ContainsExactly_loop comps id = true <-> exists c, In c comps /\ ID c = id.
Proof.
  induction comps as [|c comps IH]; simpl.
  - split; [discriminate | by intros (? & [] & _)].
  - destruct (ComponentID_eqb (ID c) id) eqn:Heq.
    + apply ComponentID_eqb_eq in Heq. split; [|done]. intros _. eauto.
    + rewrite IH. split.
      * intros (c' & Hin & Hid). eauto.
      * intros (c' & [<- | Hin] & Hid); [|eauto].
        apply ComponentID_eqb_eq in Hid. congruence.
Qed.

Lemma ContainsPath_loop_In comps path :
  ContainsPath_loop comps path = true <->
  exists c, In c comps /\ path_of (ID c) = path.
Proof.
  induction comps as [|c comps IH]; simpl.
  - split; [discriminate | by intros (? & [] & _)].
  - destruct (String.eqb_spec (id_User (ID c)) (path_User path)) as [Hu|Hu];
      destruct (String.eqb_spec (id_Repo (ID c)) (path_Repo path)) as [Hr|Hr];
      simpl.
    + split; [|done]. intros _. exists c. split; [by left|].
      destruct path; unfold path_of; simpl in *. congruence.
    + rewrite IH. split; [intros (c' & ? & ?); eauto|].
      intros (c' & [<- | Hin] & Hid); [|eauto].
      subst path. by destruct Hr.
    + rewrite IH. split; [intros (c' & ? & ?); eauto|].
      intros (c' & [<- | Hin] & Hid); [|eauto].
      subst path. by destruct Hu.
    + rewrite IH. split; [intros (c' & ? & ?); eauto|].
      intros (c' & [<- | Hin] & Hid); [|eauto].
      subst path. by destruct Hu.
Qed.

Lemma FindNonactive_loop_all_active comps active acc :
  (forall c, In c comps -> In (path_of (ID c)) active) ->
  FindNonactive_loop comps active acc = acc.
Proof.
  revert acc. induction comps as [|c comps IH]; intros acc Hall; simpl;
    [reflexivity|].
  assert (Hc : contains active (ID c) = true).
  { apply contains_In, Hall. by left. }
  rewrite Hc. simpl. apply IH. intros c' Hin. apply Hall. by right.
Qed.

(* ================================================================== *)
(** * Error short-circuit *)
(* ================================================================== *)

Section ShortCircuit.

Context {W : Type} (env : Env W).

Lemma short_circuits_bind A B (m : M A) (k : A -> M B) (s : ActionManager * W) :
  stops_at_failure A s (m s) ->
  (forall a s1 t1, m s = (Return a, s1, t1) -> stops_at_failure B s1 (k a s1)) ->
  stops_at_failure B s (bind m k s).
Proof.
  unfold stops_at_failure, bind, outcome, log. intros Hm Hk.
  destruct (m s) as [[[a|e|] s1] t1]; simpl in *; auto.
  specialize (Hk a s1 t1 eq_refl).
  destruct (k a s1) as [[[b|e|] s2] t2]; simpl in *.
  - apply Forall_app; auto.
  - destruct Hk as (pre & ev & -> & Hev & Hpre).
    exists (t1 ++ pre), ev. rewrite app_assoc. repeat split; auto.
    apply Forall_app; auto.
  - apply Forall_app; auto.
Qed.

Lemma short_circuits_call A (f : W -> Result A * W) (ev : Result A -> Event) :
  (forall a, failed (ev (Ok a)) = None) ->
  (forall e, failed (ev (Err e)) = Some e) ->
  forall s, stops_at_failure A s (call f ev s).
Proof.
  intros Hok Herr s. unfold stops_at_failure, call, outcome, log.
  destruct (f s.2) as [[a|e] w']; simpl.
  - repeat constructor. apply Hok.
  - exists [], (ev (Err e)). repeat split; auto.
Qed.

Lemma short_circuits_HandleDirtyState :
  forall s, stops_at_failure unit s (HandleDirtyState env s).
Proof.
  apply (holds_HandleDirtyState env (@stops_at_failure W)).
  - intros; constructor.
  - intros; constructor.
  - apply short_circuits_bind.
  - intros s. apply (short_circuits_call _ _ _); reflexivity.
  - intros w s. apply (short_circuits_call _ _ _); reflexivity.
  - intros id w s. apply (short_circuits_call _ _ _); reflexivity.
  - intros [|n] s; unfold stops_at_failure, Intn, outcome, log; simpl;
      [constructor|].
    destruct (rand_Intn env (S n) s.2). repeat constructor.
  - intros s. constructor.
  - intros p s. repeat constructor.
  - intros id w s. apply short_circuits_bind.
    + apply (short_circuits_call _ _ _); reflexivity.
    + intros h s1 t1 _.
      destruct (String.eqb _ _); constructor.
Qed.

End ShortCircuit.

(** C7.  Whatever the collaborators do: when a pass returns an error, the
    last call it made is a call that failed with that very error and every
    call before it succeeded; and when any call of the pass fails (the
    desired-state read, a [Status], an [Activate] or a [Deactivate]), the
    pass returns that call's error and nothing (no worker RPC, no read of
    the Version Index) comes after it in the log. *)
Theorem HandleDirtyState_short_circuits :
  forall (W : Type) (env : Env W) (s : ActionManager * W),
    let r := HandleDirtyState env s in
    (forall e, outcome r = Fail e ->
       exists pre ev,
         log r = pre ++ [ev] /\ failed ev = Some e /\ Forall succeeded pre)
    /\ (forall pre ev post e,
          log r = pre ++ ev :: post -> failed ev = Some e ->
          outcome r = Fail e /\ post = []).
Proof.
  intros W env s r.
  pose proof (short_circuits_HandleDirtyState env s) as H.
  change (short_circuits (outcome r) (log r)) in H.
  split.
  - intros e He. rewrite He in H. exact H.
  - intros pre ev post e Hlog Hev.
    assert (Hbad : ~ Forall succeeded (log r)).
    { rewrite Hlog. intros HF. apply Forall_app in HF as [_ HF].
      inversion HF as [|? ? Hs _]; subst. unfold succeeded in Hs. congruence. }
    destruct (outcome r) as [[]|e'|]; simpl in H; try contradiction.
    destruct H as (pre' & ev' & Hlog' & Hev' & Hpre').
    rewrite Hlog' in Hlog.
    destruct post as [|x post].
    + apply app_inj_tail in Hlog as [_ ->]. split; congruence.
    + exfalso.
      assert (Hin : In ev pre').
      { change (ev :: x :: post) with ([ev] ++ (x :: post)) in Hlog.
        destruct (exists_last (l := x :: post)) as (post' & lst & Heq);
          [discriminate|].
        rewrite Heq in Hlog. rewrite !app_assoc in Hlog.
        apply app_inj_tail in Hlog as [-> _].
        apply in_or_app. left. apply in_or_app. right. left. reflexivity. }
      rewrite Forall_forall in Hpre'.
      assert (Hs : succeeded ev).
      { apply Hpre'. apply list_elem_of_In. exact Hin. }
      unfold succeeded in Hs. congruence.
Qed.

(* ================================================================== *)
(** * The Version Index across a pass *)
(* ================================================================== *)

Section Frame.

Context {W : Type} (env : Env W).

Lemma resolved_in_app_l t1 t2 p h :
  resolved_in t1 p h -> resolved_in (t1 ++ t2) p h.
Proof.
  intros (id & w & Hin & H). exists id, w. split; [|exact H].
  apply in_or_app. auto.
Qed.

Lemma resolved_in_app_r t1 t2 p h :
  resolved_in t2 p h -> resolved_in (t1 ++ t2) p h.
Proof.
  intros (id & w & Hin & H). exists id, w. split; [|exact H].
  apply in_or_app. auto.
Qed.

Lemma frame_refl A (o : Outcome A) (s : ActionManager * W) :
  frames A s (o, s, []).
Proof.
  split; [repeat split | intros p; left; reflexivity].
Qed.

Lemma frame_bind A B (m : M A) (k : A -> M B) (s : ActionManager * W) :
  frames A s (m s) ->
  (forall a s1 t1, m s = (Return a, s1, t1) -> frames B s1 (k a s1)) ->
  frames B s (bind m k s).
Proof.
  unfold frames, bind, final, log. intros Hm Hk.
  destruct (m s) as [[[a|e|] s1] t1]; simpl in *; auto.
  specialize (Hk a s1 t1 eq_refl).
  destruct (k a s1) as [[o s2] t2]; simpl in *.
  destruct Hm as [(Hw1 & Hu1 & Hd1) Hi1], Hk as [(Hw2 & Hu2 & Hd2) Hi2].
  split; [repeat split; congruence|].
  intros p. destruct (Hi2 p) as [Heq2 | (h & Hres & Hh)].
  - destruct (Hi1 p) as [Heq1 | (h & Hres & Hh)].
    + left. congruence.
    + right. exists h. split; [by apply resolved_in_app_l | congruence].
  - right. exists h. split; [by apply resolved_in_app_r | exact Hh].
Qed.

Lemma frame_call A (f : W -> Result A * W) (ev : Result A -> Event) :
  forall s, frames A s (call f ev s).
Proof.
  intros s. unfold frames, call, final, log.
  destruct (f s.2) as [[a|e] w']; simpl;
    (split; [repeat split | intros p; left; reflexivity]).
Qed.

Lemma frame_Activate id w (s : ActionManager * W) :
  frames unit s
    (bind (Activate env id w) (fun h =>
       if String.eqb (id_Hash id) headHashSentinel
       then store_pathHashes (path_of id) h
       else ret tt) s).
Proof.
  unfold frames, bind, Activate, call, final, log.
  destruct (activator_Activate env id w s.2) as [[h|e] w']; simpl.
  - destruct (String.eqb (id_Hash id) headHashSentinel) eqn:Hhead; simpl.
    + apply String.eqb_eq in Hhead.
      split; [repeat split|]. intros p.
      destruct (decide (path_of id = p)) as [<-|Hne].
      * right. exists h. split; [|apply lookup_insert_eq].
        exists id, w. repeat split; auto. left. reflexivity.
      * left. apply lookup_insert_ne. exact Hne.
    + split; [repeat split | intros p; left; reflexivity].
  - split; [repeat split | intros p; left; reflexivity].
Qed.

Lemma frame_Intn n (s : ActionManager * W) : frames nat s (Intn env n s).
Proof.
  destruct n as [|n]; unfold Intn; [apply frame_refl|].
  destruct (rand_Intn env (S n) s.2).
  split; [repeat split | intros p; left; reflexivity].
Qed.

Lemma frame_lookup p (s : ActionManager * W) :
  frames _ s (lookup_pathHashes p s).
Proof. split; [repeat split | intros q; left; reflexivity]. Qed.

Lemma frame_HandleDirtyState (s : ActionManager * W) :
  frames unit s (HandleDirtyState env s).
Proof.
  revert s.
  refine (holds_HandleDirtyState env (@frames W) _ _ _ _ _ _ _ _ _ _).
  - intros; apply frame_refl.
  - intros; apply frame_refl.
  - intros A B m k s. apply frame_bind.
  - intros s. apply frame_call.
  - intros w s. apply frame_call.
  - intros id w s. apply frame_call.
  - intros n s. apply frame_Intn.
  - intros s. apply frame_refl.
  - intros p s. apply frame_lookup.
  - intros id w s. apply frame_Activate.
Qed.

(** ** The index follows the resolutions of the log *)

Lemma entry_after_app p e t1 t2 :
  entry_after p e (t1 ++ t2) = entry_after p (entry_after p e t1) t2.
Proof. revert e. induction t1 as [|ev t1 IH]; intros e; simpl; auto. Qed.

Lemma entry_after_quiet p e t :
  Forall (fun ev => not_Activate ev = true) t -> entry_after p e t = e.
Proof.
  intros Ht. revert e. induction Ht as [|ev t Hev _ IH]; intros e; simpl; auto.
  rewrite IH. unfold entry_step. by destruct ev.
Qed.

Lemma resolution_of_Some p ev h :
  resolution_of p ev = Some h <->
  exists id w,
    ev = EvActivate id w (Ok h) /\ id_Hash id = headHashSentinel /\ path_of id = p.
Proof.
  destruct ev as [| |id w [h'|e]| | |]; simpl;
    try (split; [discriminate | by intros (? & ? & ? & _)]).
  destruct (String.eqb_spec (id_Hash id) headHashSentinel) as [Hh|Hh]; simpl.
  - case_bool_decide as Hp.
    + split; [intros [= ->]; eauto | by intros (? & ? & [= <- <- <-] & _)].
    + split; [discriminate | intros (? & ? & [= <- <- <-] & _ & ?); done].
  - split; [discriminate | intros (? & ? & [= <- <- <-] & ? & _); done].
Qed.

Lemma entry_after_unresolved p e t :
  (forall h, ~ resolved_in t p h) -> entry_after p e t = e.
Proof.
  revert e. induction t as [|ev t IH]; intros e Hno; simpl; [done|].
  assert (Hev : resolution_of p ev = None).
  { destruct (resolution_of p ev) as [h|] eqn:Hr; [|done].
    apply resolution_of_Some in Hr as (id & w & -> & Hh & Hp).
    exfalso. apply (Hno h). exists id, w. split; [by left | done]. }
  unfold entry_step. rewrite Hev. apply IH.
  intros h (id & w & Hin & H). apply (Hno h).
  exists id, w. split; [by right | done].
Qed.

Lemma entry_after_resolution e pre id w h post :
  id_Hash id = headHashSentinel ->
  entry_after (path_of id) e (pre ++ EvActivate id w (Ok h) :: post)
  = entry_after (path_of id) (Some h) post.
Proof.
  intros Hh. rewrite entry_after_app. simpl.
  unfold entry_step, resolution_of. rewrite Hh, String.eqb_refl. simpl.
  by rewrite bool_decide_eq_true_2.
Qed.

Lemma tracks_quiet A (s : ActionManager * W)
    (r : Outcome A * (ActionManager * W) * list Event) :
  keeps_manager A s r -> logs_only not_Activate A s r -> tracks A s r.
Proof.
  unfold keeps_manager, logs_only. intros Hmgr Ht p.
  by rewrite Hmgr, entry_after_quiet.
Qed.

Lemma tracks_bind A B (m : M A) (k : A -> M B) (s : ActionManager * W) :
  tracks A s (m s) ->
  (forall a s1 t1, m s = (Return a, s1, t1) -> tracks B s1 (k a s1)) ->
  tracks B s (bind m k s).
Proof.
  unfold tracks, bind, final, log. intros Hm Hk.
  destruct (m s) as [[[a|e|] s1] t1]; simpl in *; auto.
  specialize (Hk a s1 t1 eq_refl).
  destruct (k a s1) as [[o s2] t2]; simpl in *.
  intros p. by rewrite entry_after_app, <- Hm, Hk.
Qed.

Lemma tracks_Activate id w (s : ActionManager * W) :
  tracks unit s
    (bind (Activate env id w) (fun h =>
       if String.eqb (id_Hash id) headHashSentinel
       then store_pathHashes (path_of id) h
       else ret tt) s).
Proof.
  intros p. unfold bind, Activate, call, final, log.
  destruct (activator_Activate env id w s.2) as [[h|e] world']; simpl;
    [|reflexivity].
  destruct (String.eqb (id_Hash id) headHashSentinel) eqn:Hh; simpl;
    unfold entry_step, resolution_of; rewrite Hh; simpl; [|reflexivity].
  case_bool_decide as Hp.
  - subst p. apply lookup_insert_eq.
  - by apply lookup_insert_ne.
Qed.

Lemma tracks_ret A (a : A) (s : ActionManager * W) : tracks A s (ret a s).
Proof. by intros p. Qed.

Lemma tracks_call A (f : W -> Result A * W) (ev : Result A -> Event)
    (s : ActionManager * W) :
  (forall r, not_Activate (ev r) = true) -> tracks A s (call f ev s).
Proof.
  intros Hev. apply tracks_quiet;
    [apply keeps_manager_call | by apply logs_only_call].
Qed.

Lemma tracks_Intn n (s : ActionManager * W) : tracks nat s (Intn env n s).
Proof.
  apply tracks_quiet; [apply keeps_manager_Intn | by apply logs_only_Intn].
Qed.

Lemma tracks_lookup q (s : ActionManager * W) :
  tracks _ s (lookup_pathHashes q s).
Proof. by intros p. Qed.

Lemma tracks_phase1 active (s : ActionManager * W) :
  tracks unit s (phase1 env active s).
Proof.
  revert s. refine (holds_phase1 env (@tracks W) _ _ _ _ _ active).
  - intros A a s. apply tracks_ret.
  - intros A B m k s. apply tracks_bind.
  - intros w s. by apply tracks_call.
  - intros id w s. by apply tracks_call.
  - by intros s p.
Qed.

Lemma tracks_phase2 active (s : ActionManager * W) :
  tracks unit s (phase2 env active s).
Proof.
  revert s. refine (holds_phase2 env (@tracks W) _ _ _ _ _ _ _ _ active).
  - intros A a s. apply tracks_ret.
  - by intros A s p.
  - intros A B m k s. apply tracks_bind.
  - intros w s. by apply tracks_call.
  - intros n s. apply tracks_Intn.
  - by intros s p.
  - intros q s. apply tracks_lookup.
  - intros id w s. apply tracks_Activate.
Qed.

Lemma tracks_ensureSomeWorkerIsRunning compID (s : ActionManager * W) :
  tracks unit s (ensureSomeWorkerIsRunning env compID s).
Proof.
  revert s.
  refine (holds_ensureSomeWorkerIsRunning env (@tracks W) _ _ _ _ _ _ _ _ compID).
  - intros A a s. apply tracks_ret.
  - by intros A s p.
  - intros A B m k s. apply tracks_bind.
  - intros w s. by apply tracks_call.
  - intros id w s. by apply tracks_call.
  - intros n s. apply tracks_Intn.
  - by intros s p.
  - intros id w s. apply tracks_Activate.
Qed.

Lemma tracks_deactivateIfHashDiffers w compID (s : ActionManager * W) :
  tracks unit s (deactivateIfHashDiffers env w compID s).
Proof.
  revert s.
  refine (holds_deactivateIfHashDiffers env (@tracks W) _ _ _ _ w compID).
  - intros A a s. apply tracks_ret.
  - intros A B m k s. apply tracks_bind.
  - intros w' s. by apply tracks_call.
  - intros id w' s. by apply tracks_call.
Qed.

Lemma tracks_HandleDirtyState (s : ActionManager * W) :
  tracks unit s (HandleDirtyState env s).
Proof.
  revert s. refine (holds_HandleDirtyState env (@tracks W) _ _ _ _ _ _ _ _ _ _).
  - intros A a s. apply tracks_ret.
  - by intros A s p.
  - intros A B m k s. apply tracks_bind.
  - intros s. by apply tracks_call.
  - intros w s. by apply tracks_call.
  - intros id w s. by apply tracks_call.
  - intros n s. apply tracks_Intn.
  - by intros s p.
  - intros q s. apply tracks_lookup.
  - intros id w s. apply tracks_Activate.
Qed.

End Frame.

(** C9.  Whatever the collaborators do and however the pass ends: the
    workers and the two queues of the manager are as before; the index
    after the pass is the index before it with the hashes returned by the
    successful activations under the sentinel ["HEAD"] written at their
    paths, in the order of the log, and nothing else; so an index entry
    that differs after the pass is the hash such an activation of that
    path returned, and the entry of every path that was not successfully
    activated under the sentinel during the pass is the same after it as
    before. *)
Theorem HandleDirtyState_index_frame :
  forall (W : Type) (env : Env W) (s : ActionManager * W),
    let r := HandleDirtyState env s in
    same_fleet_and_queues s.1 (final r).1
    /\ (forall p,
          pathHashes (final r).1 !! p
          = entry_after p (pathHashes s.1 !! p) (log r))
    /\ (forall p,
          pathHashes (final r).1 !! p <> pathHashes s.1 !! p ->
          exists h, resolved_in (log r) p h
                    /\ pathHashes (final r).1 !! p = Some h)
    /\ (forall p,
          (forall id w h,
              In (EvActivate id w (Ok h)) (log r) ->
              id_Hash id = headHashSentinel -> path_of id <> p) ->
          pathHashes (final r).1 !! p = pathHashes s.1 !! p).
Proof.
  intros W env s r.
  destruct (frame_HandleDirtyState env s) as [Hsame Hidx].
  fold r in Hsame, Hidx.
  split; [exact Hsame|]. split; [apply tracks_HandleDirtyState|]. split.
  - intros p Hne. destruct (Hidx p) as [Heq | H]; [contradiction | exact H].
  - intros p Hno.
    destruct (Hidx p) as [Heq | (h & (id & w & Hin & Hhead & Hp) & _)];
      [exact Heq|].
    exfalso. exact (Hno id w h Hin Hhead Hp).
Qed.

(* ================================================================== *)
(** * Resolution of the sentinel *)
(* ================================================================== *)

Section HeadResolution.

Context {W : Type} (env : Env W).

(** The activation and the write after it, from a state whose manager is
    that of [s0]. *)
Lemma records_resolution_Activate id w (s0 s : ActionManager * W) pre :
  s.1 = s0.1 ->
  Forall (fun ev => not_Activate ev = true) pre ->
  forall o s' t,
    bind (Activate env id w) (fun h =>
      if String.eqb (id_Hash id) headHashSentinel
      then store_pathHashes (path_of id) h
      else ret tt) s = (o, s', t) ->
    records_resolution id s0 (o, s', pre ++ t).
Proof.
  intros Hs Hpre o s' t Hrun. unfold records_resolution, log, final, outcome.
  simpl. intros id' w' h Hin.
  apply in_app_or in Hin as [Hin|Hin].
  { rewrite Forall_forall in Hpre. apply list_elem_of_In, Hpre in Hin.
    discriminate. }
  bind_cases Hrun as h1 s1 t1 t2 Hm Hk.
  - apply call_inv in Hm as [(h0 & w0 & Hf & [= <-] & -> & ->) | (e & w0 & _ & [=] & _)].
    assert (Ht : t2 = []).
    { destruct (String.eqb _ _); by injection Hk as <- <- <-. }
    subst t2. destruct Hin as [Hin|[]]. injection Hin as <- <- <-.
    destruct (String.eqb (id_Hash id) headHashSentinel) eqn:Hh.
    + apply String.eqb_eq in Hh. injection Hk as <- <-. simpl.
      rewrite Hs. repeat split; auto. congruence.
    + apply String.eqb_neq in Hh. injection Hk as <- <-. simpl.
      rewrite Hs. repeat split; auto. congruence.
  - apply call_inv in Hm as [(h0 & w0 & _ & [=] & _) | (e' & w0 & _ & _ & _ & ->)].
    destruct Hin as [Hin|[]]. discriminate.
  - apply call_inv in Hm as [(h0 & w0 & _ & [=] & _) | (e' & w0 & _ & [=] & _)].
Qed.

Lemma records_resolution_quiet id (s0 : ActionManager * W) o s' t :
  Forall (fun ev => not_Activate ev = true) t ->
  records_resolution id s0 (o, s', t).
Proof.
  intros Hq id' w h Hin. rewrite Forall_forall in Hq.
  apply list_elem_of_In, Hq in Hin. discriminate.
Qed.

Lemma asks_not_Activate (t : list Event) :
  Forall (fun ev => is_Status ev = true) t ->
  Forall (fun ev => not_Activate ev = true) t.
Proof. apply logs_only_weaken. by intros []. Qed.

Lemma records_resolution_activateMissing id (s : ActionManager * W) :
  records_resolution id s (activateMissing env id s).
Proof.
  destruct (activateMissing env id s) as [[o s'] t] eqn:Hrun.
  unfold activateMissing in Hrun.
  bind_cases Hrun as ws s1 t1 t2 Hm Hk; [|discriminate Hm..].
  injection Hm as <- <- <-. simpl.
  pose proof (keeps_manager_activateMissing_loop env (path_of id) (workers s.1) s)
    as Hmgr.
  pose proof (logs_only_activateMissing_loop env (path_of id) (workers s.1) s)
    as Hasks.
  bind_cases Hk as running s2 t3 t4 Hloop Hk;
    rewrite Hloop in Hmgr, Hasks;
    unfold keeps_manager, logs_only, final, log in Hmgr, Hasks;
    simpl in Hmgr, Hasks; apply asks_not_Activate in Hasks;
    [|by apply records_resolution_quiet..].
  destruct running.
  { injection Hk as <- <- <-. rewrite app_nil_r.
    by apply records_resolution_quiet. }
  bind_cases Hk as k s3 t5 t6 HI Hk.
  - apply Intn_inv in HI as [(_ & [=] & _) | (k' & w' & Hn & Hr & [= <-] & -> & ->)].
    assert (Hpre : Forall (fun ev => not_Activate ev = true)
                     (t3 ++ [EvIntn (length (workers s.1)) k])).
    { apply Forall_app. split; [exact Hasks | by repeat constructor]. }
    bind_cases Hk as w s4 t7 t8 Hidx Hk;
      apply index_inv in Hidx as (-> & -> & Hidx).
    + rewrite app_nil_l, app_assoc.
      apply (records_resolution_Activate id w s (s2.1, w'));
        [exact Hmgr | exact Hpre | exact Hk].
    + by apply records_resolution_quiet.
    + by apply records_resolution_quiet.
  - apply Intn_inv in HI as [(_ & [=] & _) | (k' & w' & _ & _ & [=] & _)].
  - apply Intn_inv in HI as [(_ & _ & -> & ->) | (k' & w' & _ & _ & [=] & _)].
    rewrite app_nil_r.
    by apply records_resolution_quiet.
Qed.

(** Choosing where to deploy in [ensureSomeWorkerIsRunning] activates
    nothing and leaves the manager alone. *)
Lemma choose_target_quiet compID ws notRunningAnyVersion (s : ActionManager * W) :
  let choose :=
    if 0 <? length notRunningAnyVersion
    then bind (Intn env (length notRunningAnyVersion)) (fun k =>
           index notRunningAnyVersion k)
    else bind (Intn env (length ws)) (fun k =>
           bind (index ws k) (fun target =>
             bind (Deactivate env compID target) (fun _ => ret target))) in
  keeps_manager _ s (choose s) /\ logs_only not_Activate _ s (choose s).
Proof.
  intros choose. subst choose. destruct (0 <? length notRunningAnyVersion).
  - split.
    + apply keeps_manager_bind; [apply keeps_manager_Intn|].
      intros; apply keeps_manager_index.
    + apply logs_only_bind; [by apply logs_only_Intn|].
      intros; apply logs_only_index.
  - split.
    + apply keeps_manager_bind; [apply keeps_manager_Intn|]. intros k s1 t1 _.
      apply keeps_manager_bind; [apply keeps_manager_index|]. intros w s2 t2 _.
      apply keeps_manager_bind; [apply keeps_manager_call|]. reflexivity.
    + apply logs_only_bind; [by apply logs_only_Intn|]. intros k s1 t1 _.
      apply logs_only_bind; [apply logs_only_index|]. intros w s2 t2 _.
      apply logs_only_bind; [by apply logs_only_call|]. constructor.
Qed.

Lemma records_resolution_ensureSomeWorkerIsRunning id (s : ActionManager * W) :
  records_resolution id s (ensureSomeWorkerIsRunning env id s).
Proof.
  destruct (ensureSomeWorkerIsRunning env id s) as [[o s'] t] eqn:Hrun.
  unfold ensureSomeWorkerIsRunning in Hrun.
  bind_cases Hrun as ws s1 t1 t2 Hm Hk; [|discriminate Hm..].
  injection Hm as <- <- <-. simpl.
  pose proof (keeps_manager_ensureSomeWorkerIsRunning_loop env id (path_of id)
                (workers s.1) [] s) as Hmgr.
  pose proof (logs_only_ensureSomeWorkerIsRunning_loop env id (path_of id)
                (workers s.1) [] s) as Hasks.
  bind_cases Hk as scan s2 t3 t4 Hloop Hk;
    rewrite Hloop in Hmgr, Hasks;
    unfold keeps_manager, logs_only, final, log in Hmgr, Hasks;
    simpl in Hmgr, Hasks; apply asks_not_Activate in Hasks;
    [|by apply records_resolution_quiet..].
  destruct scan as [notRunning|].
  2:{ injection Hk as <- <- <-. rewrite app_nil_r.
      by apply records_resolution_quiet. }
  destruct (choose_target_quiet id (workers s.1) notRunning s2) as [Hmgr' Hq].
  bind_cases Hk as w s3 t5 t6 Hch Hk;
    rewrite Hch in Hmgr', Hq;
    unfold keeps_manager, logs_only, final, log in Hmgr', Hq;
    simpl in Hmgr', Hq.
  - rewrite app_assoc.
    apply (records_resolution_Activate id w s s3);
      [congruence | by apply Forall_app | exact Hk].
  - apply records_resolution_quiet. by apply Forall_app.
  - apply records_resolution_quiet. by apply Forall_app.
Qed.

End HeadResolution.

(** C6.  Whatever the collaborators do.  For the activation step of
    Phase 2 ([activateMissing]) and of Phase 3 ([ensureSomeWorkerIsRunning])
    alike: when the step activates [id] and the activator returns the hash
    [h], then, if [id] carries the sentinel ["HEAD"], the Version Index after
    the step is the index before it with [h] written at [id]'s path (so
    the entry of that path is [h]); and if [id] carries any other hash the
    index is unchanged.  And for the pass as a whole: when it has activated
    a component under the sentinel and got [h] back, and has not resolved
    the same path again later on, the entry of that path after the pass is
    [h]. *)
Theorem HEAD_resolution :
  forall (W : Type) (env : Env W),
    (forall (id : ComponentID) (s : ActionManager * W) (step : M unit),
        step = activateMissing env id
        \/ step = ensureSomeWorkerIsRunning env id ->
        forall w h,
          In (EvActivate id w (Ok h)) (log (step s)) ->
          (id_Hash id = headHashSentinel ->
           pathHashes (final (step s)).1 = <[path_of id := h]> (pathHashes s.1)
           /\ pathHashes (final (step s)).1 !! path_of id = Some h)
          /\ (id_Hash id <> headHashSentinel ->
              pathHashes (final (step s)).1 = pathHashes s.1))
    /\ (forall (s : ActionManager * W) pre id w h post,
          log (HandleDirtyState env s) = pre ++ EvActivate id w (Ok h) :: post ->
          id_Hash id = headHashSentinel ->
          (forall h', ~ resolved_in post (path_of id) h') ->
          pathHashes (final (HandleDirtyState env s)).1 !! path_of id = Some h).
Proof.
  intros W env. split.
  - intros id s step Hstep w h Hin.
    assert (Hrec : records_resolution id s (step s)).
    { destruct Hstep as [-> | ->];
        [apply records_resolution_activateMissing
        | apply records_resolution_ensureSomeWorkerIsRunning]. }
    destruct (Hrec id w h Hin) as (_ & _ & Hhead & Hother).
    split; [|exact Hother].
    intros Hh. split; [auto|]. rewrite (Hhead Hh). apply lookup_insert_eq.
  - intros s pre id w h post Hlog Hhead Hno.
    rewrite (tracks_HandleDirtyState env s (path_of id)), Hlog.
    rewrite (entry_after_resolution _ _ _ _ _ _ Hhead).
    by apply entry_after_unresolved.
Qed.

(* ================================================================== *)
(** * The empty fleet *)
(* ================================================================== *)

Section EmptyFleet.
Context {W : Type} (env : Env W).

Lemma activateMissing_empty_fleet id (s : ActionManager * W) :
  workers s.1 = [] ->
  activateMissing env id s = (Panic, s, []).
Proof.
  intros Hws. unfold activateMissing, bind, get_workers.
  rewrite Hws. reflexivity.
Qed.

Lemma ensureSomeWorkerIsRunning_empty_fleet id (s : ActionManager * W) :
  workers s.1 = [] ->
  ensureSomeWorkerIsRunning env id s = (Panic, s, []).
Proof.
  intros Hws. unfold ensureSomeWorkerIsRunning, bind, get_workers.
  rewrite Hws. reflexivity.
Qed.

Lemma phase1_empty_fleet active (s : ActionManager * W) :
  workers s.1 = [] -> phase1 env active s = (Return tt, s, []).
Proof.
  intros Hws. unfold phase1, bind, get_workers. rewrite Hws. reflexivity.
Qed.

Lemma phase2_empty_fleet p rest (s : ActionManager * W) :
  workers s.1 = [] ->
  phase2 env (p :: rest) s = (Panic, s, [EvIndexRead p]).
Proof.
  intros Hws. unfold phase2. simpl for_range.
  apply bind_Panic.
  erewrite bind_Return by reflexivity.
  rewrite activateMissing_empty_fleet by exact Hws. reflexivity.
Qed.

End EmptyFleet.

(** C10.  With no workers and a non-empty desired set, a pass reads the
    desired set, reads the index for the first desired path and then
    panics in Phase 2: [activateMissing] falls through its loop at once and
    asks [rand.Intn] for a number below [len(mgr.workers) = 0].  No error
    is returned.  The placement of Phase 3 has the same unguarded draw:
    with no workers [ensureSomeWorkerIsRunning] panics as well. *)
Theorem empty_fleet_panics :
  forall (W : Type) (env : Env W) (mgr : ActionManager) (world world' : W)
         (p : ComponentPath) (rest : list ComponentPath),
    workers mgr = [] ->
    driver_FindActiveComponents env world = (Ok (p :: rest), world') ->
    HandleDirtyState env (mgr, world)
    = (Panic, (mgr, world'),
       [EvFindActiveComponents (Ok (p :: rest)); EvIndexRead p])
    /\ (forall id, activateMissing env id (mgr, world)
                   = (Panic, (mgr, world), []))
    /\ (forall id, ensureSomeWorkerIsRunning env id (mgr, world)
                   = (Panic, (mgr, world), [])).
Proof.
  intros W env mgr world world' p rest Hws Hfind. split.
  - unfold HandleDirtyState.
    erewrite bind_Return; cycle 1.
    { unfold FindActiveComponents, call. simpl. rewrite Hfind. reflexivity. }
    erewrite (bind_Return (phase1 env _)) by (by apply phase1_empty_fleet).
    erewrite (bind_Panic (phase2 env _)) by (by apply phase2_empty_fleet).
    reflexivity.
  - split; intros id.
    + by apply activateMissing_empty_fleet.
    + by apply ensureSomeWorkerIsRunning_empty_fleet.
Qed.

(* ================================================================== *)
(** * The dirty signal *)
(* ================================================================== *)

Lemma Notify_raised mgr :
  chan_cap (dirtyStateNotifier mgr) <= pending mgr ->
  NotifyComponentStateChanged mgr = Done mgr.
Proof.
  unfold NotifyComponentStateChanged, chan_send, pending. intros H.
  destruct (Nat.ltb_spec (length (chan_buf (dirtyStateNotifier mgr)))
              (chan_cap (dirtyStateNotifier mgr))); [lia | reflexivity].
Qed.

Lemma Notify_clear mgr :
  pending mgr < chan_cap (dirtyStateNotifier mgr) ->
  NotifyComponentStateChanged mgr
  = Done (set_dirtyStateNotifier mgr
            {| chan_cap := chan_cap (dirtyStateNotifier mgr);
               chan_buf := chan_buf (dirtyStateNotifier mgr) ++ [tt] |}).
Proof.
  unfold NotifyComponentStateChanged, chan_send, pending. intros H.
  destruct (Nat.ltb_spec (length (chan_buf (dirtyStateNotifier mgr)))
              (chan_cap (dirtyStateNotifier mgr))); [reflexivity | lia].
Qed.

Lemma Notify_total mgr :
  exists mgr', NotifyComponentStateChanged mgr = Done mgr'.
Proof.
  unfold NotifyComponentStateChanged.
  destruct (chan_send (dirtyStateNotifier mgr) tt); eauto.
Qed.

Lemma notify_times_raised n mgr :
  chan_cap (dirtyStateNotifier mgr) <= pending mgr ->
  notify_times n mgr = Done mgr.
Proof.
  intros H. induction n as [|n IH]; simpl; [reflexivity|].
  by rewrite Notify_raised.
Qed.

(** C8.  [NotifyComponentStateChanged] returns on every manager: it never
    blocks.  And for a manager whose dirty signal is the single-slot
    channel that [NewActionManager] makes, holding at most one signal: when
    the signal is already raised the call returns the manager unchanged;
    after the call exactly one signal is queued and a second call changes
    nothing; and a burst of any [n > 0] calls in a row comes to the same
    manager as one call, so at most one reconciliation is queued. *)
Theorem NotifyComponentStateChanged_coalesces :
  (forall mgr : ActionManager,
      exists mgr', NotifyComponentStateChanged mgr = Done mgr')
  /\ (forall mgr : ActionManager,
        chan_cap (dirtyStateNotifier mgr) = 1 ->
        pending mgr <= 1 ->
        (pending mgr = 1 -> NotifyComponentStateChanged mgr = Done mgr)
        /\ (exists mgr',
               NotifyComponentStateChanged mgr = Done mgr'
               /\ pending mgr' = 1
               /\ chan_cap (dirtyStateNotifier mgr') = 1
               /\ NotifyComponentStateChanged mgr' = Done mgr')
        /\ (forall n, 0 < n ->
              notify_times n mgr = NotifyComponentStateChanged mgr)).
Proof.
  split; [exact Notify_total|].
  intros mgr Hcap Hpend.
  assert (Hraised : pending mgr = 1 -> NotifyComponentStateChanged mgr = Done mgr).
  { intros H1. apply Notify_raised. lia. }
  assert (Hfirst : exists mgr',
             NotifyComponentStateChanged mgr = Done mgr'
             /\ pending mgr' = 1
             /\ chan_cap (dirtyStateNotifier mgr') = 1).
  { destruct (decide (pending mgr = 1)) as [H1|H0].
    - exists mgr. auto.
    - eexists. split; [apply Notify_clear; lia|].
      unfold pending in *. simpl. rewrite length_app. simpl. split; lia. }
  destruct Hfirst as (mgr' & Hn & Hp' & Hc').
  split; [exact Hraised|]. split.
  - exists mgr'. repeat split; auto. apply Notify_raised. lia.
  - intros [|n] Hpos; [lia|]. simpl. rewrite Hn.
    apply notify_times_raised. lia.
Qed.

(* ================================================================== *)
(** * Phase 2: the scan of the fleet *)
(* ================================================================== *)

Lemma last_is_only {A} (P : A -> Prop) (pre' : list A) x pre ev post :
  pre' ++ [x] = pre ++ ev :: post ->
  Forall P pre' -> ~ P ev ->
  post = [] /\ ev = x /\ pre = pre'.
Proof.
  intros Heq Hpre Hev.
  destruct post as [|y post].
  - apply app_inj_tail in Heq as [-> ->]. auto.
  - exfalso. apply Hev.
    destruct (exists_last (l := y :: post)) as (post' & lst & Hlast);
      [discriminate|].
    rewrite Hlast in Heq.
    change (pre ++ ev :: post' ++ [lst]) with (pre ++ (ev :: post') ++ [lst]) in Heq.
    rewrite app_assoc in Heq. apply app_inj_tail in Heq as [-> _].
    apply Forall_app in Hpre as [_ Hpre]. by inversion Hpre.
Qed.

Section Scan.

Context {W : Type} (env : Env W).

Lemma activateMissing_loop_scan path ws (s : ActionManager * W) o s' t :
  activateMissing_loop env path ws s = (o, s', t) -> scan_log path ws o t.
Proof.
  revert s o s' t. induction ws as [|w ws IH]; intros s o s' t Hrun; simpl in Hrun.
  - injection Hrun as <- <- <-. constructor.
  - bind_cases Hrun as status s1 t1 t2 Hm Hk.
    + apply call_inv in Hm as [(st & w0 & _ & [= <-] & -> & ->) | (e & w0 & _ & [=] & _)].
      destruct (ContainsPath status path) eqn:Hc.
      * injection Hk as <- <- <-. by constructor.
      * simpl. apply scan_next; [exact Hc | by eapply IH].
    + apply call_inv in Hm as [(st & w0 & _ & [=] & _) | (e' & w0 & _ & [= <-] & _ & ->)].
      constructor.
    + apply call_inv in Hm as [(st & w0 & _ & [=] & _) | (e' & w0 & _ & [=] & _)].
Qed.

Lemma queried_app t1 t2 : queried (t1 ++ t2) = queried t1 ++ queried t2.
Proof.
  induction t1 as [|ev t1 IH]; [reflexivity|].
  destruct ev; simpl; by rewrite ?IH.
Qed.

Lemma queried_no_Status t :
  Forall (fun ev => negb (is_Status ev) = true) t -> queried t = [].
Proof.
  induction 1 as [|ev t Hev _ IH]; [reflexivity|].
  destruct ev; simpl in *; try discriminate; exact IH.
Qed.

(** What a scan's log looks like, by the way the scan ended. *)
Lemma scan_log_shape path ws o t :
  scan_log path ws o t ->
  queried t `prefix_of` ws
  /\ match o with
     | Return true =>
         exists pre w status,
           t = pre ++ [EvStatus w (Ok status)]
           /\ ContainsPath status path = true
           /\ Forall (fun ev => reports path ev = false /\ failed ev = None) pre
     | Return false =>
         queried t = ws
         /\ Forall (fun ev => reports path ev = false /\ failed ev = None) t
     | Fail e =>
         exists pre w,
           t = pre ++ [EvStatus w (Err e)]
           /\ Forall (fun ev => reports path ev = false /\ failed ev = None) pre
     | Panic => False
     end.
Proof.
  induction 1 as [|w ws status Hc|w ws e|w ws status o t Hc Hscan [Hpre IH]].
  - split; [apply prefix_nil | split; [reflexivity | constructor]].
  - split; [apply prefix_cons, prefix_nil|].
    exists [], w, status. repeat split; auto.
  - split; [apply prefix_cons, prefix_nil|].
    exists [], w. repeat split; auto.
  - split; [by apply prefix_cons|].
    assert (Hhere : reports path (EvStatus w (Ok status)) = false
                    /\ failed (EvStatus w (Ok status)) = None) by auto.
    destruct o as [[|]|e|].
    + destruct IH as (pre & w' & st' & -> & Hc' & HF).
      exists (EvStatus w (Ok status) :: pre), w', st'. repeat split; auto.
    + destruct IH as [Hq HF]. split; [simpl; by rewrite Hq | by constructor].
    + destruct IH as (pre & w' & -> & HF).
      exists (EvStatus w (Ok status) :: pre), w'. repeat split; auto.
    + contradiction.
Qed.

(** Placing and activating asks for no status. *)
Lemma place_logs_no_Status toCheck ws (s : ActionManager * W) :
  logs_only not_Status unit s
    (bind (Intn env (length ws)) (fun k =>
       bind (index ws k) (fun randomWorker =>
         bind (Activate env toCheck randomWorker) (fun activatedHash =>
           if String.eqb (id_Hash toCheck) headHashSentinel
           then store_pathHashes (path_of toCheck) activatedHash
           else ret tt))) s).
Proof.
  apply logs_only_bind; [by apply logs_only_Intn|]. intros k s1 t1 _.
  apply logs_only_bind; [apply logs_only_index|]. intros w s2 t2 _.
  apply logs_only_bind; [by apply logs_only_call|]. intros h s3 t3 _.
  destruct (String.eqb _ _); constructor.
Qed.

Lemma not_Status_reports path ev :
  not_Status ev = true -> reports path ev = false.
Proof. by destruct ev. Qed.

(** The shape of a run of [activateMissing]: a scan, and after a scan that
    found nothing, a placement that asks for no status. *)
Lemma activateMissing_shape toCheck (s : ActionManager * W) :
  let r := activateMissing env toCheck s in
  exists o t_scan t_place,
    scan_log (path_of toCheck) (workers s.1) o t_scan
    /\ log r = t_scan ++ t_place
    /\ Forall (fun ev => is_Status ev = true) t_scan
    /\ Forall (fun ev => not_Status ev = true) t_place
    /\ match o with
       | Return true => t_place = [] /\ outcome r = Return tt
       | Return false => True
       | Fail e => t_place = [] /\ outcome r = Fail e
       | Panic => False
       end.
Proof.
  intros r. subst r.
  destruct (activateMissing env toCheck s) as [[o s'] t] eqn:Hrun.
  unfold activateMissing in Hrun.
  bind_cases Hrun as ws s1 t1 t2 Hm Hk; [|discriminate Hm..].
  injection Hm as <- <- <-. simpl.
  pose proof (logs_only_activateMissing_loop env (path_of toCheck) (workers s.1) s)
    as Hasks.
  bind_cases Hk as running s2 t3 t4 Hloop Hk;
    rewrite Hloop in Hasks; unfold logs_only, log in Hasks; simpl in Hasks;
    pose proof (activateMissing_loop_scan _ _ _ _ _ _ Hloop) as Hscan.
  - destruct running.
    + injection Hk as <- <- <-.
      exists (Return true), t3, []. repeat split; auto.
    + exists (Return false), t3, t4. repeat split; auto.
      pose proof (place_logs_no_Status toCheck (workers s.1) s2) as Hq.
      rewrite Hk in Hq. exact Hq.
  - exists (Fail e), t2, []. rewrite app_nil_r. repeat split; auto.
  - apply scan_log_shape in Hscan as [_ []].
Qed.

End Scan.

(** C3, as the code has it.  Whatever the collaborators do, the Phase 2
    step for a component [id]: asks the workers for their status in fleet
    order (the workers asked are an initial part of the fleet); stops at
    the first answer that lists the path, returning
    [nil] with nothing after that answer in its log, so the workers
    further down the fleet are not asked; returns the error of a failed
    [Status], which it only meets when no answer before it listed the
    path; and activates only after asking the whole fleet and finding the
    path nowhere. *)
Theorem activateMissing_stops_at_first_match :
  forall (W : Type) (env : Env W) (id : ComponentID) (s : ActionManager * W),
    let r := activateMissing env id s in
    queried (log r) `prefix_of` workers s.1
    /\ (forall pre ev post,
          log r = pre ++ ev :: post -> reports (path_of id) ev = true ->
          post = [] /\ outcome r = Return tt)
    /\ (forall w e,
          In (EvStatus w (Err e)) (log r) ->
          outcome r = Fail e
          /\ forall ev, In ev (log r) -> reports (path_of id) ev = false)
    /\ (forall ev,
          In ev (log r) -> is_Activate ev = true ->
          queried (log r) = workers s.1
          /\ forall ev', In ev' (log r) -> reports (path_of id) ev' = false).
Proof.
  intros W env id s r.
  destruct (activateMissing_shape env id s)
    as (o & t_scan & t_place & Hscan & Hlog & Hasks & Hplace & Hend).
  fold r in Hlog, Hend.
  apply scan_log_shape in Hscan as [Hprefix Hshape].
  assert (Hq : queried (log r) = queried t_scan).
  { rewrite Hlog, queried_app, (queried_no_Status t_place), app_nil_r; [done|].
    exact Hplace. }
  assert (Hplace_reports :
            Forall (fun ev => reports (path_of id) ev = false) t_place).
  { eapply Forall_impl; [exact Hplace|]. intros ev. apply not_Status_reports. }
  split; [by rewrite Hq|].
  destruct o as [[|]|e|]; [| | |contradiction].
  - (* the scan found the path *)
    destruct Hend as [-> Hout]. rewrite app_nil_r in Hlog.
    destruct Hshape as (pre' & w' & st' & Hscan_eq & Hc & Hpre').
    rewrite Hscan_eq in Hlog. split; [|split].
    + intros pre ev post Hsplit Hrep. rewrite Hlog in Hsplit.
      eapply (last_is_only (fun ev => reports (path_of id) ev = false)) in Hsplit
        as (-> & _ & _); [done | | congruence].
      eapply Forall_impl; [exact Hpre'|]. by intros ? [? _].
    + intros w e Hin. rewrite Hlog in Hin.
      apply in_app_or in Hin as [Hin | [Hin | []]]; [|discriminate].
      rewrite Forall_forall in Hpre'.
      apply list_elem_of_In, Hpre' in Hin as [_ Hf]. discriminate.
    + intros ev Hin Hact. rewrite Hlog, <- Hscan_eq in Hin.
      rewrite Forall_forall in Hasks.
      apply list_elem_of_In, Hasks in Hin. by destruct ev.
  - (* the scan found nothing *)
    destruct Hshape as [Hall Hnone].
    assert (Hnowhere : forall ev, In ev (log r) -> reports (path_of id) ev = false).
    { intros ev Hin. rewrite Hlog in Hin.
      apply in_app_or in Hin as [Hin | Hin].
      - rewrite Forall_forall in Hnone.
        by apply list_elem_of_In, Hnone in Hin as [? _].
      - rewrite Forall_forall in Hplace_reports.
        by apply list_elem_of_In, Hplace_reports in Hin. }
    split; [|split].
    + intros pre ev post Hsplit Hrep.
      rewrite (Hnowhere ev) in Hrep; [discriminate|].
      rewrite Hsplit. apply in_or_app. right. by left.
    + intros w e Hin. exfalso. rewrite Hlog in Hin.
      apply in_app_or in Hin as [Hin | Hin].
      * rewrite Forall_forall in Hnone.
        apply list_elem_of_In, Hnone in Hin as [_ Hf]. discriminate.
      * rewrite Forall_forall in Hplace.
        apply list_elem_of_In, Hplace in Hin. discriminate.
    + intros ev Hin Hact. split; [congruence | exact Hnowhere].
  - (* a status call failed *)
    destruct Hend as [-> Hout]. rewrite app_nil_r in Hlog.
    destruct Hshape as (pre' & w' & Hscan_eq & Hpre').
    rewrite Hscan_eq in Hlog.
    assert (Hnowhere : forall ev, In ev (log r) -> reports (path_of id) ev = false).
    { intros ev Hin. rewrite Hlog in Hin.
      apply in_app_or in Hin as [Hin | [<- | []]]; [|reflexivity].
      rewrite Forall_forall in Hpre'.
      by apply list_elem_of_In, Hpre' in Hin as [? _]. }
    split; [|split].
    + intros pre ev post Hsplit Hrep.
      rewrite (Hnowhere ev) in Hrep; [discriminate|].
      rewrite Hsplit. apply in_or_app. right. by left.
    + intros w e' Hin. split; [|exact Hnowhere]. rewrite Hlog in Hin.
      apply in_app_or in Hin as [Hin | [Hin | []]].
      * rewrite Forall_forall in Hpre'.
        apply list_elem_of_In, Hpre' in Hin as [_ Hf]. discriminate.
      * injection Hin as _ <-. exact Hout.
    + intros ev Hin Hact. rewrite Hlog, <- Hscan_eq in Hin.
      rewrite Forall_forall in Hasks.
      apply list_elem_of_In, Hasks in Hin. by destruct ev.
Qed.

(* ================================================================== *)
(** * The worker client's [Status] *)
(* ================================================================== *)

(** C2, as the code has it.  [Status] succeeds exactly when [http.Get]
    obtained a response, its body could be read, and the body decodes; it
    returns the error of whichever of the three failed.  The status code
    plays no part: a reply with any other code, 2xx or not, gets the same
    result. *)
Theorem Status_does_not_read_the_code :
  forall (http_Get : string -> Result Response)
         (json_Unmarshal : string -> Result StatusResponse)
         (worker : V9Worker),
    (forall code,
        Worker.Status (fun url => with_code code (http_Get url))
          json_Unmarshal worker
        = Worker.Status http_Get json_Unmarshal worker)
    /\ (forall statusResponse,
          Worker.Status http_Get json_Unmarshal worker = Ok statusResponse <->
          exists resp body,
            http_Get (status_url worker) = Ok resp
            /\ Body resp = Ok body
            /\ json_Unmarshal body = Ok statusResponse)
    /\ (forall err,
          Worker.Status http_Get json_Unmarshal worker = Err err <->
          http_Get (status_url worker) = Err err
          \/ (exists resp, http_Get (status_url worker) = Ok resp
                           /\ Body resp = Err err)
          \/ (exists resp body, http_Get (status_url worker) = Ok resp
                                /\ Body resp = Ok body
                                /\ json_Unmarshal body = Err err)).
Proof.
  intros http_Get json_Unmarshal worker.
  unfold Worker.Status, Worker.get, status_url.
  destruct (http_Get ("http://" ++ URL worker ++ "/meta/status")%string)
    as [[code body]|e] eqn:Hget; simpl.
  - split; [reflexivity|].
    destruct body as [body|e]; simpl.
    + destruct (json_Unmarshal body) as [sr|e] eqn:Hjson.
      * split.
        -- intros sr'. split.
           ++ intros [= <-]. eauto.
           ++ intros (resp & body' & [= <-] & [= <-] & H). simpl in *. congruence.
        -- intros err. split; [discriminate|].
           intros [H | [(resp & [= <-] & H) | (resp & body' & [= <-] & [= <-] & H)]];
             simpl in *; congruence.
      * split.
        -- intros sr'. split; [discriminate|].
           intros (resp & body' & [= <-] & [= <-] & H). simpl in *. congruence.
        -- intros err. split.
           ++ intros [= <-]. right. right. eauto.
           ++ intros [H | [(resp & [= <-] & H) | (resp & body' & [= <-] & [= <-] & H)]];
                simpl in *; congruence.
    + split.
      * intros sr'. split; [discriminate|].
        intros (resp & body' & [= <-] & H & _). simpl in *. congruence.
      * intros err. split.
        -- intros [= <-]. right. left. eauto.
        -- intros [H | [(resp & [= <-] & H) | (resp & body' & [= <-] & H & _)]];
             simpl in *; congruence.
  - split; [reflexivity|]. split.
    + intros sr'. split; [discriminate|].
      intros (resp & body' & H & _). congruence.
    + intros err. split.
      * intros [= <-]. auto.
      * intros [H | [(resp & H & _) | (resp & body' & H & _)]]; congruence.
Qed.

Lemma Status_accepts_a_500 :
  (forall url, exists resp,
      answers_500 url = Ok resp /\ is_2xx (StatusCode resp) = false)
  /\ Worker.Status answers_500 unmarshal_empty_object
       {| URL := "w1:8080"%string |}
     = Ok {| CPUUsage := float64_zero; MemoryUsage := float64_zero;
             NetworkUsage := float64_zero; ActiveComponents := [] |}.
Proof.
  split; [|reflexivity].
  intros url. eexists. split; reflexivity.
Qed.

(* ================================================================== *)
(** * Teardown of paths without an index entry *)
(* ================================================================== *)

Section Teardown.

Context {W : Type} (env : Env W).

(** A loop whose body's properties depend on the element. *)
Lemma logs_only_for_range_In Q {X} (xs : list X) (body : X -> M unit)
    (s : ActionManager * W) :
  (forall x s, In x xs -> logs_only Q unit s (body x s)) ->
  logs_only Q unit s (for_range xs body s).
Proof.
  revert s. induction xs as [|x xs IH]; intros s Hbody; simpl; [constructor|].
  apply logs_only_bind; [apply Hbody; by left|].
  intros _ s1 t1 _. apply IH. intros y s' Hy. apply Hbody. by right.
Qed.

Lemma keeps_manager_for_range {X} (xs : list X) (body : X -> M unit)
    (s : ActionManager * W) :
  (forall x s, keeps_manager unit s (body x s)) ->
  keeps_manager unit s (for_range xs body s).
Proof.
  revert s. induction xs as [|x xs IH]; intros s Hbody; simpl; [reflexivity|].
  apply keeps_manager_bind; [apply Hbody|].
  intros _ s1 t1 _. by apply IH.
Qed.

Lemma phase1_logs active (s : ActionManager * W) :
  logs_only (deactivates_only (fun id => negb (contains active id))) unit s
    (phase1 env active s).
Proof.
  unfold phase1. apply logs_only_bind; [constructor|]. intros ws s1 t1 _.
  apply logs_only_for_range_In. intros w s2 _. unfold deactivateNonactive.
  apply logs_only_bind; [by apply logs_only_call|]. intros st s3 t3 _.
  apply logs_only_for_range_In. intros id s4 Hid.
  apply logs_only_call. intros res. simpl.
  by rewrite (FindNonactive_In _ _ _ Hid).
Qed.

(** Phase 2 deactivates nothing. *)
Lemma phase2_logs active (s : ActionManager * W) :
  logs_only not_Deactivate unit s (phase2 env active s).
Proof.
  revert s.
  refine (holds_phase2 env (logs_only not_Deactivate) _ _ _ _ _ _ _ _ active).
  - constructor.
  - constructor.
  - intros A B m k s. apply logs_only_bind.
  - intros w s. by apply logs_only_call.
  - intros n s. by apply logs_only_Intn.
  - constructor.
  - intros p s. by repeat constructor.
  - intros id w s. apply logs_only_bind; [by apply logs_only_call|].
    intros h s1 t1 _. destruct (String.eqb _ _); constructor.
Qed.

(** [ensureSomeWorkerIsRunning] commands nothing but [compID] itself. *)
Lemma ensureSomeWorkerIsRunning_logs compID (s : ActionManager * W) :
  logs_only (commands_only compID) unit s (ensureSomeWorkerIsRunning env compID s).
Proof.
  assert (Hid : bool_decide (compID = compID) = true)
    by by apply bool_decide_eq_true.
  unfold ensureSomeWorkerIsRunning.
  apply logs_only_bind; [constructor|]. intros ws s1 t1 _.
  apply logs_only_bind.
  { eapply logs_only_weaken;
      [|apply logs_only_ensureSomeWorkerIsRunning_loop]. by intros []. }
  intros [notRunning|] s2 t2 _; [|constructor].
  apply logs_only_bind.
  - destruct (0 <? length notRunning).
    + apply logs_only_bind; [by apply logs_only_Intn|].
      intros; apply logs_only_index.
    + apply logs_only_bind; [by apply logs_only_Intn|]. intros k s3 t3 _.
      apply logs_only_bind; [apply logs_only_index|]. intros w s4 t4 _.
      apply logs_only_bind; [by apply logs_only_call|]. constructor.
  - intros w s3 t3 _.
    apply logs_only_bind; [by apply logs_only_call|]. intros h s4 t4 _.
    destruct (String.eqb _ _); constructor.
Qed.

(** [deactivateIfHashDiffers] leaves the manager alone, activates nothing
    and deactivates only components of [compID]'s path. *)
Lemma deactivateIfHashDiffers_keeps_manager w compID (s : ActionManager * W) :
  keeps_manager unit s (deactivateIfHashDiffers env w compID s).
Proof.
  unfold deactivateIfHashDiffers.
  apply keeps_manager_bind; [apply keeps_manager_call|]. intros st s1 t1 _.
  apply keeps_manager_for_range. intros c s2.
  match goal with |- context [if ?b then _ else _] => destruct b end;
    [apply keeps_manager_call | reflexivity].
Qed.

Lemma deactivateIfHashDiffers_logs w compID (s : ActionManager * W) :
  logs_only
    (deactivates_only (fun id => bool_decide (path_of id = path_of compID)))
    unit s (deactivateIfHashDiffers env w compID s).
Proof.
  unfold deactivateIfHashDiffers.
  apply logs_only_bind; [by apply logs_only_call|]. intros st s1 t1 _.
  apply logs_only_for_range_In. intros c s2 _.
  destruct (String.eqb_spec (id_User (ID c)) (id_User compID)) as [Hu|Hu];
    [|constructor].
  destruct (String.eqb_spec (id_Repo (ID c)) (id_Repo compID)) as [Hr|Hr];
    [|constructor].
  simpl. destruct (negb _); [|constructor].
  apply logs_only_call. intros res. simpl. apply bool_decide_eq_true.
  unfold path_of. congruence.
Qed.

(** ** While the statuses agree with the index *)

Lemma agrees_app p e t1 t2 :
  agrees p e (t1 ++ t2) <-> agrees p e t1 /\ agrees p (entry_after p e t1) t2.
Proof.
  revert e. induction t1 as [|ev t1 IH]; intros e; simpl; [tauto|].
  rewrite IH. tauto.
Qed.

(** Without a resolution of [p], nothing is asked of the statuses. *)
Lemma unresolved_agrees p t :
  (forall h, ~ resolved_in t p h) -> agrees p None t.
Proof.
  induction t as [|ev t IH]; intros Hno; simpl; [done|].
  assert (Hev : resolution_of p ev = None).
  { destruct (resolution_of p ev) as [h|] eqn:Hr; [|done].
    apply resolution_of_Some in Hr as (id & w & -> & Hh & Hp).
    exfalso. apply (Hno h). exists id, w. split; [by left | done]. }
  unfold entry_step. rewrite Hev. split; [by destruct ev as [|? []| | | |]|].
  apply IH. intros h (id & w & Hin & H). apply (Hno h).
  exists id, w. split; [by right | done].
Qed.

Variable p : ComponentPath.

Lemma phase1_spares active (s : ActionManager * W) :
  In p active ->
  Forall (fun ev => spares p ev = true) (log (phase1 env active s)).
Proof.
  intros Hp.
  eapply logs_only_weaken; [|apply phase1_logs].
  intros [| | |id w res| |]; simpl; try done.
  intros Hc%negb_true_iff. apply bool_decide_eq_true. intros Hid.
  assert (contains active id = true) by (apply contains_In; congruence).
  congruence.
Qed.

Lemma phase2_spares active (s : ActionManager * W) :
  Forall (fun ev => spares p ev = true) (log (phase2 env active s)).
Proof.
  eapply logs_only_weaken; [|apply phase2_logs]. by intros [].
Qed.

Lemma guards_of_spares A (s : ActionManager * W)
    (r : Outcome A * (ActionManager * W) * list Event) :
  tracks A s r -> Forall (fun ev => spares p ev = true) (log r) ->
  guards p A s r.
Proof. intros Ht Hs. split; auto. Qed.

Lemma guards_bind A B (m : M A) (k : A -> M B) (s : ActionManager * W) :
  guards p A s (m s) ->
  (forall a s1 t1, m s = (Return a, s1, t1) -> guards p B s1 (k a s1)) ->
  guards p B s (bind m k s).
Proof.
  intros Hm Hk. split.
  { apply tracks_bind; [apply Hm | intros; by eapply Hk]. }
  destruct Hm as [Htr Hm]. specialize (Htr p). revert Htr Hm.
  unfold bind, final, log.
  destruct (m s) as [[[a|e|] s1] t1] eqn:Hrun; simpl; auto.
  destruct (Hk a s1 t1 eq_refl) as [_ Hg]. revert Hg. unfold log.
  destruct (k a s1) as [[o s2] t2]; simpl.
  intros Hg Htr Hm Hag. apply agrees_app in Hag as [Hag1 Hag2].
  apply Forall_app. split; [auto|]. apply Hg. by rewrite Htr.
Qed.

Lemma guards_for_range {X} (xs : list X) (body : X -> M unit)
    (s : ActionManager * W) :
  (forall x s, guards p unit s (body x s)) ->
  guards p unit s (for_range xs body s).
Proof.
  revert s. induction xs as [|x xs IH]; intros s Hbody; simpl.
  - apply guards_of_spares; [apply tracks_ret | constructor].
  - apply guards_bind; [apply Hbody|]. intros _ s1 t1 _. by apply IH.
Qed.

Lemma componentID_of id h :
  path_of id = p -> id_Hash id = h -> id = componentID p h.
Proof. intros <- <-. by destruct id. Qed.

(** A status that lists [p] under [h] only and does not list it under [h]
    does not list it at all. *)
Lemma lists_only_not_exactly h status :
  lists_only p h status ->
  ContainsExactly_loop (ActiveComponents status) (componentID p h) = false ->
  ContainsPath status p = false.
Proof.
  intros Honly Hex. destruct (ContainsPath status p) eqn:Hc; [|done].
  apply ContainsPath_loop_In in Hc as (c & Hin & Hpath).
  assert (ContainsExactly_loop (ActiveComponents status) (componentID p h) = true);
    [|congruence].
  apply ContainsExactly_loop_In. exists c. split; [exact Hin|].
  apply componentID_of; [exact Hpath | by apply Honly].
Qed.

Lemma scan_agreeing h ws acc (s : ActionManager * W) o s' t :
  ensureSomeWorkerIsRunning_loop env (componentID p h) p ws acc s = (o, s', t) ->
  agrees p (Some h) t ->
  forall notRunning, o = Return (Some notRunning) -> notRunning = acc ++ ws.
Proof.
  revert acc s o s' t. induction ws as [|w ws IH];
    intros acc s o s' t Hrun Hag nr Ho; simpl in Hrun.
  - injection Hrun as <- <- <-. injection Ho as <-. by rewrite app_nil_r.
  - bind_cases Hrun as status s1 t1 t2 Hm Hk; [|discriminate..].
    apply call_inv in Hm
      as [(st & w0 & _ & [= <-] & -> & ->) | (e & w0 & _ & [=] & _)].
    simpl in Hag. destruct Hag as [Honly Hag].
    destruct (ContainsExactly_loop (ActiveComponents status) (componentID p h))
      eqn:Hex.
    + injection Hk as <- <- <-. discriminate.
    + rewrite (lists_only_not_exactly h status Honly Hex) in Hk. simpl in Hk.
      rewrite (IH _ _ _ _ _ Hk Hag nr Ho). by rewrite <- app_assoc.
Qed.

Lemma spares_of_not_Deactivate (t : list Event) :
  Forall (fun ev => not_Deactivate ev = true) t ->
  Forall (fun ev => spares p ev = true) t.
Proof. apply logs_only_weaken. by intros []. Qed.

Lemma spares_of_Status (t : list Event) :
  Forall (fun ev => is_Status ev = true) t ->
  Forall (fun ev => spares p ev = true) t.
Proof. apply logs_only_weaken. by intros []. Qed.

(** Phase 3 on [p] at the hash [h]: while the statuses list [p] under [h]
    only, nothing is deactivated. *)
Lemma ensureSomeWorkerIsRunning_agreeing h (s : ActionManager * W) :
  agrees p (Some h) (log (ensureSomeWorkerIsRunning env (componentID p h) s)) ->
  Forall (fun ev => spares p ev = true)
    (log (ensureSomeWorkerIsRunning env (componentID p h) s)).
Proof.
  destruct (ensureSomeWorkerIsRunning env (componentID p h) s)
    as [[o s'] t] eqn:Hrun.
  unfold ensureSomeWorkerIsRunning in Hrun.
  rewrite path_of_componentID in Hrun. unfold log. simpl.
  bind_cases Hrun as ws s1 t1 t2 Hm Hk; [|discriminate Hm..].
  injection Hm as <- <- <-. simpl.
  pose proof (logs_only_ensureSomeWorkerIsRunning_loop env (componentID p h) p
                (workers s.1) [] s) as Hasks.
  bind_cases Hk as scan s2 t3 t4 Hloop Hk;
    rewrite Hloop in Hasks; unfold logs_only, log in Hasks; simpl in Hasks;
    [|intros _; by apply spares_of_Status..].
  intros Hag. apply agrees_app in Hag as [Hag _].
  apply Forall_app. split; [by apply spares_of_Status|].
  destruct scan as [notRunning|]; [|injection Hk as <- <- <-; constructor].
  rewrite (scan_agreeing h _ _ _ _ _ _ Hloop Hag notRunning eq_refl) in Hk.
  simpl in Hk. clear Hloop Hag Hasks.
  apply spares_of_not_Deactivate.
  destruct (workers s.1) as [|w0 ws0]; simpl in Hk.
  - injection Hk as <- <- <-. constructor.
  - match type of Hk with ?c s2 = _ =>
      assert (Hq : logs_only not_Deactivate unit s2 (c s2))
    end.
    { apply logs_only_bind.
      - apply logs_only_bind; [by apply logs_only_Intn|].
        intros; apply logs_only_index.
      - intros w s3 t3' _.
        apply logs_only_bind; [by apply logs_only_call|]. intros h' s4 t4' _.
        destruct (String.eqb _ _); constructor. }
    by rewrite Hk in Hq.
Qed.

Lemma for_range_skips {X} (xs : list X) (body : X -> M unit)
    (s : ActionManager * W) :
  (forall x, In x xs -> body x = ret tt) ->
  for_range xs body s = (Return tt, s, []).
Proof.
  induction xs as [|x xs IH]; intros Hbody; simpl; [reflexivity|].
  rewrite (Hbody x) by by left.
  unfold bind, ret at 1. rewrite IH; [reflexivity|].
  intros y Hy. apply Hbody. by right.
Qed.

(** Phase 4 on [p] at the hash [h], one worker: likewise. *)
Lemma deactivateIfHashDiffers_agreeing w h (s : ActionManager * W) :
  agrees p (Some h) (log (deactivateIfHashDiffers env w (componentID p h) s)) ->
  Forall (fun ev => spares p ev = true)
    (log (deactivateIfHashDiffers env w (componentID p h) s)).
Proof.
  destruct (deactivateIfHashDiffers env w (componentID p h) s)
    as [[o s'] t] eqn:Hrun.
  unfold deactivateIfHashDiffers in Hrun. unfold log. simpl.
  bind_cases Hrun as status s1 t1 t2 Hm Hk.
  - apply call_inv in Hm
      as [(st & w0 & _ & [= <-] & -> & ->) | (e & w0 & _ & [=] & _)].
    simpl. intros [Honly _].
    rewrite for_range_skips in Hk.
    + injection Hk as <- <- <-. by repeat constructor.
    + intros c Hc.
      destruct (String.eqb_spec (id_User (ID c)) (id_User (componentID p h)))
        as [Hu|Hu]; [|reflexivity].
      destruct (String.eqb_spec (id_Repo (ID c)) (id_Repo (componentID p h)))
        as [Hr|Hr]; [|reflexivity].
      simpl in Hu, Hr.
      assert (Hpath : path_of (ID c) = p).
      { destruct p; unfold path_of; simpl in *. congruence. }
      rewrite (Honly c Hc Hpath). simpl. by rewrite String.eqb_refl.
  - apply call_inv in Hm
      as [(st & w0 & _ & [=] & _) | (e' & w0 & _ & _ & _ & ->)].
    intros _. by repeat constructor.
  - apply call_inv in Hm
      as [(st & w0 & _ & [=] & _) | (e' & w0 & _ & [=] & _)].
Qed.

Lemma guards_lookup q (s : ActionManager * W) :
  guards p _ s (lookup_pathHashes q s).
Proof.
  apply guards_of_spares; [apply tracks_lookup | by repeat constructor].
Qed.

Lemma guards_phase1 active (s : ActionManager * W) :
  In p active -> guards p unit s (phase1 env active s).
Proof.
  intros Hin. apply guards_of_spares; [apply tracks_phase1|].
  by apply phase1_spares.
Qed.

Lemma guards_phase2 active (s : ActionManager * W) :
  guards p unit s (phase2 env active s).
Proof.
  apply guards_of_spares; [apply tracks_phase2 | apply phase2_spares].
Qed.

Lemma guards_phase3 active (s : ActionManager * W) :
  guards p unit s (phase3 env active s).
Proof.
  unfold phase3. apply guards_for_range. clear s. intros q s.
  apply guards_bind; [apply guards_lookup|].
  intros entry s1 t1 [= <- <- <-].
  destruct (pathHashes s.1 !! q) as [h|] eqn:Hq;
    [|apply guards_of_spares; [apply tracks_ret | constructor]].
  split; [apply tracks_ensureSomeWorkerIsRunning|].
  destruct (decide (q = p)) as [->|Hne].
  - rewrite Hq. apply ensureSomeWorkerIsRunning_agreeing.
  - intros _.
    eapply logs_only_weaken; [|apply ensureSomeWorkerIsRunning_logs].
    intros [| | |id w res| |]; simpl; try done.
    intros ->%bool_decide_eq_true. apply bool_decide_eq_true.
    by rewrite path_of_componentID.
Qed.

Lemma guards_deactivate_stale h ws (s : ActionManager * W) :
  pathHashes s.1 !! p = Some h ->
  guards p unit s
    (for_range ws (fun w => deactivateIfHashDiffers env w (componentID p h)) s).
Proof.
  revert s. induction ws as [|w ws IH]; intros s Hp; simpl.
  - apply guards_of_spares; [apply tracks_ret | constructor].
  - apply guards_bind.
    + split; [apply tracks_deactivateIfHashDiffers|].
      rewrite Hp. apply deactivateIfHashDiffers_agreeing.
    + intros u s1 t1 Hrun. apply IH.
      pose proof (deactivateIfHashDiffers_keeps_manager w
                    (componentID p h) s) as Hmgr.
      rewrite Hrun in Hmgr. unfold keeps_manager, final in Hmgr.
      simpl in Hmgr. by rewrite Hmgr.
Qed.

Lemma guards_phase4 active (s : ActionManager * W) :
  guards p unit s (phase4 env active s).
Proof.
  unfold phase4. apply guards_for_range. clear s. intros q s.
  apply guards_bind; [apply guards_lookup|].
  intros entry s1 t1 [= <- <- <-].
  destruct (pathHashes s.1 !! q) as [h|] eqn:Hq;
    [|apply guards_of_spares; [apply tracks_ret | constructor]].
  apply guards_bind;
    [apply guards_of_spares; [apply tracks_ret | constructor]|].
  intros ws s1 t1 [= <- <- <-].
  destruct (decide (q = p)) as [->|Hne].
  - by apply guards_deactivate_stale.
  - apply guards_for_range. intros w s1. apply guards_of_spares;
      [apply tracks_deactivateIfHashDiffers|].
    eapply logs_only_weaken; [|apply deactivateIfHashDiffers_logs].
    intros [| | |id w' res| |]; simpl; try done.
    rewrite path_of_componentID. intros Hid%bool_decide_eq_true.
    apply bool_decide_eq_true. congruence.
Qed.

Lemma guards_HandleDirtyState active world' (s : ActionManager * W) :
  driver_FindActiveComponents env s.2 = (Ok active, world') ->
  In p active ->
  guards p unit s (HandleDirtyState env s).
Proof.
  intros Hfind Hin. unfold HandleDirtyState.
  apply guards_bind.
  { apply guards_of_spares; [by apply tracks_call|].
    eapply logs_only_weaken; [|by apply (logs_only_call not_Deactivate)].
    by intros []. }
  intros active' s1 t1 Hrun.
  apply call_inv in Hrun
    as [(a & w' & Hf & [= <-] & _) | (e & w' & _ & [=] & _)].
  assert (active' = active) as -> by congruence.
  apply guards_bind; [by apply guards_phase1|]. intros _ s2 t2 _.
  apply guards_bind; [apply guards_phase2|]. intros _ s3 t3 _.
  apply guards_bind; [apply guards_phase3|]. intros _ s4 t4 _.
  apply guards_phase4.
Qed.

End Teardown.

(** C5, as the code has it.  Let [p] be a desired path that has no entry
    in the Version Index when the pass starts.  Whatever the collaborators
    do, the pass issues no [Deactivate] for a component of path [p] as
    long as the statuses agree with the index on [p]: every [Status] answer
    that comes after an activation of [p] under the sentinel lists [p]
    under no hash but the one that activation returned.  That is so, in
    particular, whenever the pass does not activate [p] under the sentinel
    at all (as when Phase 2 finds [p] running): the index then keeps no
    entry for [p] and Phases 3 and 4 skip it. *)
Theorem no_teardown_while_statuses_agree :
  forall (W : Type) (env : Env W) (s : ActionManager * W)
         (active : list ComponentPath) (world' : W) (p : ComponentPath),
    driver_FindActiveComponents env s.2 = (Ok active, world') ->
    In p active ->
    pathHashes s.1 !! p = None ->
    ((forall h, ~ resolved_in (log (HandleDirtyState env s)) p h) ->
     agrees p None (log (HandleDirtyState env s)))
    /\ (agrees p None (log (HandleDirtyState env s)) ->
        forall id w res,
          In (EvDeactivate id w res) (log (HandleDirtyState env s)) ->
          path_of id <> p).
Proof.
  intros W env s active world' p Hfind Hin Hp.
  split; [apply unresolved_agrees|].
  intros Hag id w res Hev.
  destruct (guards_HandleDirtyState env p active world' s Hfind Hin) as [_ Hg].
  rewrite Hp in Hg. specialize (Hg Hag).
  rewrite Forall_forall in Hg.
  apply list_elem_of_In, Hg in Hev. simpl in Hev.
  by apply bool_decide_eq_true in Hev.
Qed.

(* ================================================================== *)
(** * A pass over a converged fleet *)
(* ================================================================== *)

Section Converged.

Context {W : Type} (env : Env W).
Variable Stable : W -> Prop.
Variable snapshot : V9Worker -> StatusResponse.
Variable mgr : ActionManager.
Variable active : list ComponentPath.

Hypothesis Status_stable : forall world w,
    Stable world -> In w (workers mgr) ->
    exists world',
      worker_Status env w world = (Ok (snapshot w), world') /\ Stable world'.

Hypothesis Hconverged : converged (workers mgr) snapshot active (pathHashes mgr).

Lemma calm_ret {A} (v : A) : calm Stable mgr (ret v) v.
Proof. intros world Hst. exists world, []. repeat split; auto. Qed.

Lemma calm_bind {A B} (c : M A) (k : A -> M B) v u :
  calm Stable mgr c v -> calm Stable mgr (k v) u -> calm Stable mgr (bind c k) u.
Proof.
  intros Hc Hk world Hst.
  destruct (Hc world Hst) as (world1 & t1 & Hrun1 & Hst1 & Ht1).
  destruct (Hk world1 Hst1) as (world2 & t2 & Hrun2 & Hst2 & Ht2).
  exists world2, (t1 ++ t2). split; [|split; [exact Hst2 | by apply Forall_app]].
  rewrite (bind_Return _ _ _ _ _ _ Hrun1), Hrun2. reflexivity.
Qed.

Lemma calm_for_range {X} (xs : list X) (body : X -> M unit) :
  (forall x, In x xs -> calm Stable mgr (body x) tt) ->
  calm Stable mgr (for_range xs body) tt.
Proof.
  induction xs as [|x xs IH]; intros Hbody; simpl; [apply calm_ret|].
  apply (calm_bind _ _ tt); [apply Hbody; by left|].
  apply IH. intros y Hy. apply Hbody. by right.
Qed.

Lemma calm_get_workers : calm Stable mgr get_workers (workers mgr).
Proof. intros world Hst. exists world, []. repeat split; auto. Qed.

Lemma calm_lookup p : calm Stable mgr (lookup_pathHashes p) (pathHashes mgr !! p).
Proof.
  intros world Hst. exists world, [EvIndexRead p]. repeat split; auto.
Qed.

Lemma calm_Status w :
  In w (workers mgr) -> calm Stable mgr (Status env w) (snapshot w).
Proof.
  intros Hw world Hst.
  destruct (Status_stable world w Hst Hw) as (world' & Hcall & Hst').
  exists world', [EvStatus w (Ok (snapshot w))].
  unfold Status, call. simpl. rewrite Hcall. repeat split; auto.
Qed.

Lemma calm_deactivateNonactive w :
  In w (workers mgr) -> calm Stable mgr (deactivateNonactive env w active) tt.
Proof.
  intros Hw. unfold deactivateNonactive.
  apply (calm_bind _ _ (snapshot w)); [by apply calm_Status|].
  unfold FindNonactive. rewrite FindNonactive_loop_all_active; [apply calm_ret|].
  intros c Hc. by apply (proj1 Hconverged w c).
Qed.

Lemma calm_phase1 : calm Stable mgr (phase1 env active) tt.
Proof.
  unfold phase1. apply (calm_bind _ _ (workers mgr)); [apply calm_get_workers|].
  apply calm_for_range. apply calm_deactivateNonactive.
Qed.

Lemma calm_activateMissing_loop path ws :
  (forall w, In w ws -> In w (workers mgr)) ->
  (exists w, In w ws /\ ContainsPath (snapshot w) path = true) ->
  calm Stable mgr (activateMissing_loop env path ws) true.
Proof.
  induction ws as [|w ws IH]; intros Hsub Hex; simpl.
  - by destruct Hex as (? & [] & _).
  - apply (calm_bind _ _ (snapshot w)); [apply calm_Status, Hsub; by left|].
    destruct (ContainsPath (snapshot w) path) eqn:Hc; [apply calm_ret|].
    apply IH.
    + intros w' Hw'. apply Hsub. by right.
    + destruct Hex as (w' & [<- | Hw'] & Hc'); [congruence | eauto].
Qed.

Lemma calm_ensureSomeWorkerIsRunning_loop compID compPath ws acc :
  (forall w, In w ws -> In w (workers mgr)) ->
  (exists w, In w ws /\ ContainsExactly (snapshot w) compID = true) ->
  calm Stable mgr (ensureSomeWorkerIsRunning_loop env compID compPath ws acc) None.
Proof.
  revert acc. induction ws as [|w ws IH]; intros acc Hsub Hex; simpl.
  - by destruct Hex as (? & [] & _).
  - apply (calm_bind _ _ (snapshot w)); [apply calm_Status, Hsub; by left|].
    destruct (ContainsExactly_loop (ActiveComponents (snapshot w)) compID) eqn:Hc;
      [apply calm_ret|].
    apply IH.
    + intros w' Hw'. apply Hsub. by right.
    + destruct Hex as (w' & [<- | Hw'] & Hc'); [|eauto].
      unfold ContainsExactly in Hc'. congruence.
Qed.

Lemma calm_deactivateIfHashDiffers w p h :
  In w (workers mgr) -> In p active -> pathHashes mgr !! p = Some h ->
  calm Stable mgr (deactivateIfHashDiffers env w (componentID p h)) tt.
Proof.
  intros Hw Hp Hh. unfold deactivateIfHashDiffers.
  apply (calm_bind _ _ (snapshot w)); [by apply calm_Status|].
  apply calm_for_range. intros c Hc.
  destruct (proj2 Hconverged p Hp) as (h' & Hh' & _ & Hone).
  assert (h' = h) as -> by congruence.
  destruct (String.eqb_spec (id_User (ID c)) (id_User (componentID p h)))
    as [Hu|Hu]; [|apply calm_ret].
  destruct (String.eqb_spec (id_Repo (ID c)) (id_Repo (componentID p h)))
    as [Hr|Hr]; [|apply calm_ret].
  simpl in Hu, Hr.
  assert (Hpath : path_of (ID c) = p).
  { destruct p; unfold path_of; simpl in *. congruence. }
  rewrite (Hone w c Hw Hc Hpath). simpl. rewrite String.eqb_refl. simpl.
  apply calm_ret.
Qed.

Lemma calm_phase2 : calm Stable mgr (phase2 env active) tt.
Proof.
  unfold phase2. apply calm_for_range. intros p Hp.
  destruct (proj2 Hconverged p Hp) as (h & Hh & (w & Hw & Hrun) & _).
  apply (calm_bind _ _ (pathHashes mgr !! p)); [apply calm_lookup|].
  rewrite Hh. unfold activateMissing.
  apply (calm_bind _ _ (workers mgr)); [apply calm_get_workers|].
  apply (calm_bind _ _ true); [|apply calm_ret].
  apply calm_activateMissing_loop; [auto|].
  exists w. split; [exact Hw|].
  apply ContainsExactly_loop_In in Hrun as (c & Hc & Hid).
  apply ContainsPath_loop_In. exists c. split; [exact Hc | by rewrite Hid].
Qed.

Lemma calm_phase3 : calm Stable mgr (phase3 env active) tt.
Proof.
  unfold phase3. apply calm_for_range. intros p Hp.
  destruct (proj2 Hconverged p Hp) as (h & Hh & (w & Hw & Hrun) & _).
  apply (calm_bind _ _ (pathHashes mgr !! p)); [apply calm_lookup|].
  rewrite Hh. unfold ensureSomeWorkerIsRunning.
  apply (calm_bind _ _ (workers mgr)); [apply calm_get_workers|].
  apply (calm_bind _ _ None); [|apply calm_ret].
  apply calm_ensureSomeWorkerIsRunning_loop; eauto.
Qed.

Lemma calm_phase4 : calm Stable mgr (phase4 env active) tt.
Proof.
  unfold phase4. apply calm_for_range. intros p Hp.
  destruct (proj2 Hconverged p Hp) as (h & Hh & _).
  apply (calm_bind _ _ (pathHashes mgr !! p)); [apply calm_lookup|].
  rewrite Hh.
  apply (calm_bind _ _ (workers mgr)); [apply calm_get_workers|].
  apply calm_for_range. intros w Hw. by apply calm_deactivateIfHashDiffers.
Qed.

Lemma calm_phases :
  calm Stable mgr (bind (phase1 env active) (fun _ =>
          bind (phase2 env active) (fun _ =>
            bind (phase3 env active) (fun _ => phase4 env active)))) tt.
Proof.
  apply (calm_bind _ _ tt); [apply calm_phase1|].
  apply (calm_bind _ _ tt); [apply calm_phase2|].
  apply (calm_bind _ _ tt); [apply calm_phase3|].
  apply calm_phase4.
Qed.

End Converged.

(** C4, as the code has it.  Take a fleet at rest: as long as the
    reconciler only asks, every worker of the fleet answers [Status] with
    the same snapshot.  If the fleet has converged in the sense of
    [converged] (nothing undesired runs, and every desired path has an
    index entry, a worker running the component with that hash, and no
    worker running it under another hash), then a pass that reads the
    desired set returns [nil], leaves the manager as it was, and issues no
    [Activate] and no [Deactivate]. *)
Theorem converged_pass_issues_no_command :
  forall (W : Type) (env : Env W) (Stable : W -> Prop)
         (snapshot : V9Worker -> StatusResponse)
         (mgr : ActionManager) (world world1 : W)
         (active : list ComponentPath),
    (forall world w,
        Stable world -> In w (workers mgr) ->
        exists world',
          worker_Status env w world = (Ok (snapshot w), world') /\ Stable world') ->
    driver_FindActiveComponents env world = (Ok active, world1) ->
    Stable world1 ->
    converged (workers mgr) snapshot active (pathHashes mgr) ->
    let r := HandleDirtyState env (mgr, world) in
    outcome r = Return tt
    /\ (final r).1 = mgr
    /\ Forall (fun ev => is_Activate ev = false /\ is_Deactivate ev = false)
         (log r).
Proof.
  intros W env Stable snapshot mgr world world1 active Hstatus Hfind Hst Hconv r.
  destruct (calm_phases env Stable snapshot mgr active Hstatus Hconv world1 Hst)
    as (world' & t & Hrun & _ & Ht).
  subst r. unfold HandleDirtyState.
  erewrite bind_Return; cycle 1.
  { unfold FindActiveComponents, call. simpl. rewrite Hfind. reflexivity. }
  rewrite Hrun. unfold outcome, final, log. simpl. repeat split.
  constructor; [by split|].
  eapply Forall_impl; [exact Ht|]. intros ev Hev.
  unfold is_command in Hev. by apply orb_false_iff in Hev.
Qed.

(* ================================================================== *)
(** * The predicates over a status, together *)
(* ================================================================== *)

Lemma FindNonactive_loop_filter running active acc :
  FindNonactive_loop running active acc
  = acc ++ filter (fun id => path_of id ∉ active) (map ID running).
Proof.
  revert acc. induction running as [|c running IH]; intros acc; simpl.
  - by rewrite app_nil_r.
  - destruct (contains active (ID c)) eqn:Hc; simpl.
    + apply contains_In, list_elem_of_In in Hc.
      rewrite filter_cons_False by (intros H; by apply H). apply IH.
    + assert (Hn : path_of (ID c) ∉ active).
      { intros H. apply list_elem_of_In, contains_In in H. congruence. }
      rewrite filter_cons_True by exact Hn.
      rewrite IH. by rewrite <- app_assoc.
Qed.

(** X1.  [FindNonactive] returns the IDs of the running components whose
    path is not among [activeComponents], in the order of the status and
    with repetitions kept.  So an ID is returned exactly when the status
    lists it ([ContainsExactly]) and its path is not among them; and with
    nothing desired every running ID is returned. *)
Theorem FindNonactive_is_the_filter :
  forall (s : StatusResponse) (active : list ComponentPath),
    FindNonactive s active
    = filter (fun id => path_of id ∉ active) (map ID (ActiveComponents s))
    /\ (forall id,
          In id (FindNonactive s active) <->
          ContainsExactly s id = true /\ ~ In (path_of id) active)
    /\ FindNonactive s [] = map ID (ActiveComponents s).
Proof.
  intros s active.
  assert (Heq : forall active, FindNonactive s active
                = filter (fun id => path_of id ∉ active) (map ID (ActiveComponents s))).
  { intros a. unfold FindNonactive. by rewrite FindNonactive_loop_filter. }
  split; [apply Heq|]. split.
  - intros id. rewrite Heq. rewrite <- list_elem_of_In, list_elem_of_filter.
    unfold ContainsExactly. rewrite ContainsExactly_loop_In.
    rewrite !list_elem_of_In, in_map_iff.
    split.
    + intros [Hn (c & Hid & Hin)]. eauto.
    + intros [(c & Hin & Hid) Hn]. eauto.
  - rewrite Heq. generalize (map ID (ActiveComponents s)).
    intros l. induction l as [|id l IH]; [reflexivity|].
    rewrite filter_cons_True by apply not_elem_of_nil. by rewrite IH.
Qed.

(** X2.  A status contains a path exactly when it contains, exactly, some
    version of it; so a status that contains an ID exactly contains the
    path of that ID. *)
Theorem ContainsPath_is_some_version :
  forall (s : StatusResponse),
    (forall p, ContainsPath s p = true <->
               exists h, ContainsExactly s (componentID p h) = true)
    /\ (forall id,
          ContainsExactly s id = true -> ContainsPath s (path_of id) = true).
Proof.
  intros s. unfold ContainsPath, ContainsExactly. split.
  - intros p. rewrite ContainsPath_loop_In. split.
    + intros (c & Hin & Hp). exists (id_Hash (ID c)).
      apply ContainsExactly_loop_In. exists c. split; [done|].
      subst p. by destruct (ID c).
    + intros (h & Hex). apply ContainsExactly_loop_In in Hex as (c & Hin & Hid).
      exists c. split; [done|]. rewrite Hid. apply path_of_componentID.
  - intros id Hex. apply ContainsExactly_loop_In in Hex as (c & Hin & Hid).
    apply ContainsPath_loop_In. exists c. by subst.
Qed.

(* ================================================================== *)
(** * The commands of the worker client *)
(* ================================================================== *)

(** X3.  The client's [Activate] and [Deactivate] do not read what the
    worker replies.  Put any reply in place of each reply of the network,
    as long as a body that could be read can still be read and a read that
    failed fails with the same error: both commands come to the same
    result, leave the same network and have sent the same requests.  A
    reply with status [500] and an error text is taken for success. *)
Theorem commands_do_not_read_the_reply :
  forall (Net : Type)
         (http_Post : string -> string -> string -> Net ->
                      Result Response * Net)
         (marshal_activate : activateRequest -> Result string)
         (marshal_deactivate : deactivateRequest -> Result string)
         (g : Response -> Response)
         (worker : V9Worker) (component : ComponentID) (tarPath : string)
         (net : Net),
    (forall resp, same_read resp (g resp)) ->
    Worker.Activate (answering g http_Post) marshal_activate
      worker component tarPath net
    = Worker.Activate http_Post marshal_activate worker component tarPath net
    /\ Worker.Deactivate (answering g http_Post) marshal_deactivate
         worker component net
       = Worker.Deactivate http_Post marshal_deactivate worker component net.
Proof.
  intros Net http_Post mA mD g worker component tarPath net Hg.
  assert (Hpost : forall route body,
    match post (answering g http_Post) worker route body net,
          post http_Post worker route body net with
    | (Ok a, n1, t1), (Ok b, n2, t2) => same_read b a /\ n1 = n2 /\ t1 = t2
    | (Err e1, n1, t1), (Err e2, n2, t2) => e1 = e2 /\ n1 = n2 /\ t1 = t2
    | _, _ => False
    end).
  { intros route body. unfold post, answering.
    destruct (http_Post _ _ _ net) as [[resp|e] net']; auto. }
  split.
  - unfold Worker.Activate. destruct (createActivateBody _ _ _ _) as [body|e]; [|done].
    specialize (Hpost "/meta/activate"%string body).
    destruct (post (answering g http_Post) _ _ _ _) as [[[a|e1] n1] t1];
      destruct (post http_Post _ _ _ _) as [[[b|e2] n2] t2]; try done.
    + destruct Hpost as (Hs & -> & ->). unfold same_read in Hs.
      destruct (Body a), (Body b); try done. by subst.
    + by destruct Hpost as (-> & -> & ->).
  - unfold Worker.Deactivate. destruct (createDeactivateBody _ _) as [body|e]; [|done].
    specialize (Hpost "/meta/deactivate"%string body).
    destruct (post (answering g http_Post) _ _ _ _) as [[[a|e1] n1] t1];
      destruct (post http_Post _ _ _ _) as [[[b|e2] n2] t2]; try done.
    + destruct Hpost as (Hs & -> & ->). unfold same_read in Hs.
      destruct (Body a), (Body b); try done. by subst.
    + by destruct Hpost as (-> & -> & ->).
Qed.

Lemma Deactivate_sends (Net : Type)
    (http_Post : string -> string -> string -> Net -> Result Response * Net)
    (marshal : deactivateRequest -> Result string)
    (worker : V9Worker) (compID : ComponentID) (net : Net) body :
  createDeactivateBody marshal compID = Ok body ->
  exists r,
    Worker.Deactivate http_Post marshal worker compID net
    = (r,
       (http_Post (command_url worker "/meta/deactivate") "application/json"%string
          body net).2,
       [deactivation body worker]).
Proof.
  intros Hbody. unfold Worker.Deactivate, post, deactivation, command_url.
  rewrite Hbody.
  destruct (http_Post _ _ _ net) as [[resp|e] net']; simpl; [|eauto].
  destruct (Body resp); eauto.
Qed.

(** X4.  [DeactivateComponentEverywhere] sends one deactivation request to
    each worker of the list, in the order of the list, whatever the workers
    answer: a failure does not stop the loop.  The network it leaves is the
    one these POSTs leave in turn.  When the request body cannot be built,
    nothing is sent. *)
Theorem DeactivateComponentEverywhere_asks_every_worker :
  forall (Net : Type)
         (http_Post : string -> string -> string -> Net ->
                      Result Response * Net)
         (marshal : deactivateRequest -> Result string)
         (compID : ComponentID) (workers : list V9Worker) (net : Net),
    let r :=
      DeactivateComponentEverywhere http_Post marshal compID workers net in
    (forall body,
        createDeactivateBody marshal compID = Ok body ->
        r.2 = map (deactivation body) workers
        /\ r.1 = foldl (fun n w =>
                          (http_Post (command_url w "/meta/deactivate")
                             "application/json"%string body n).2) net workers)
    /\ (forall e,
          createDeactivateBody marshal compID = Err e -> r = (net, [])).
Proof.
  intros Net http_Post marshal compID workers net r. subst r. split.
  - intros body Hbody. revert net.
    induction workers as [|w ws IH]; intros net; simpl; [done|].
    destruct (Deactivate_sends Net http_Post marshal w compID net body Hbody)
      as (res & ->).
    specialize (IH (http_Post (command_url w "/meta/deactivate")
                      "application/json"%string body net).2).
    destruct (DeactivateComponentEverywhere _ _ _ ws _) as [net'' sent'].
    simpl in *. destruct IH as [-> ->]. done.
  - intros e He. revert net.
    induction workers as [|w ws IH]; intros net; simpl; [done|].
    unfold Worker.Deactivate. rewrite He. by rewrite IH.
Qed.

(** X5.  [Logs] fetches [/meta/logs] of the worker.  It succeeds exactly
    when [http.Get] obtained a response, its body could be read and the
    body decodes; it returns the error of whichever of the three failed;
    and the status code plays no part. *)
Theorem Logs_does_not_read_the_code :
  forall (http_Get : string -> Result Response)
         (json_Unmarshal : string -> Result LogResponse)
         (worker : V9Worker),
    (forall code,
        Logs (fun url => with_code code (http_Get url)) json_Unmarshal worker
        = Logs http_Get json_Unmarshal worker)
    /\ (forall logResponse,
          Logs http_Get json_Unmarshal worker = Ok logResponse <->
          exists resp body,
            http_Get (logs_url worker) = Ok resp
            /\ Body resp = Ok body
            /\ json_Unmarshal body = Ok logResponse)
    /\ (forall err,
          Logs http_Get json_Unmarshal worker = Err err <->
          http_Get (logs_url worker) = Err err
          \/ (exists resp, http_Get (logs_url worker) = Ok resp
                           /\ Body resp = Err err)
          \/ (exists resp body, http_Get (logs_url worker) = Ok resp
                                /\ Body resp = Ok body
                                /\ json_Unmarshal body = Err err)).
Proof.
  intros http_Get json_Unmarshal worker. unfold Logs, logs_url.
  destruct (http_Get ("http://" ++ URL worker ++ "/meta/logs")%string)
    as [[code body]|e] eqn:Hget; simpl.
  - split; [reflexivity|].
    destruct body as [body|e]; simpl.
    + destruct (json_Unmarshal body) as [lr|e] eqn:Hjson.
      * split.
        -- intros lr'. split.
           ++ intros [= <-]. eauto.
           ++ intros (resp & body' & [= <-] & [= <-] & H). simpl in *. congruence.
        -- intros err. split; [discriminate|].
           intros [H | [(resp & [= <-] & H) | (resp & body' & [= <-] & [= <-] & H)]];
             simpl in *; congruence.
      * split.
        -- intros lr'. split; [discriminate|].
           intros (resp & body' & [= <-] & [= <-] & H). simpl in *. congruence.
        -- intros err. split.
           ++ intros [= <-]. right. right. eauto.
           ++ intros [H | [(resp & [= <-] & H) | (resp & body' & [= <-] & [= <-] & H)]];
                simpl in *; congruence.
    + split.
      * intros lr'. split; [discriminate|].
        intros (resp & body' & [= <-] & H & _). simpl in *. congruence.
      * intros err. split.
        -- intros [= <-]. right. left. eauto.
        -- intros [H | [(resp & [= <-] & H) | (resp & body' & [= <-] & H & _)]];
             simpl in *; congruence.
  - split; [reflexivity|]. split.
    + intros lr'. split; [discriminate|].
      intros (resp & body' & H & _). congruence.
    + intros err. split.
      * intros [= <-]. auto.
      * intros [H | [(resp & H & _) | (resp & body' & H & _)]]; congruence.
Qed.

(* ================================================================== *)
(** * The update queue and the two goroutines *)
(* ================================================================== *)

Lemma UpdateComponentHash_room mgr id :
  length (queued mgr) < chan_cap (pathHashUpdater mgr) ->
  UpdateComponentHash mgr id
  = Done (set_pathHashUpdater mgr
            {| chan_cap := chan_cap (pathHashUpdater mgr);
               chan_buf := queued mgr ++ [id] |}).
Proof.
  unfold UpdateComponentHash, chan_send, queued. intros H.
  destruct (Nat.ltb_spec (length (chan_buf (pathHashUpdater mgr)))
              (chan_cap (pathHashUpdater mgr))); [reflexivity | lia].
Qed.

Lemma UpdateComponentHash_full mgr id :
  chan_cap (pathHashUpdater mgr) <= length (queued mgr) ->
  UpdateComponentHash mgr id = Blocked.
Proof.
  unfold UpdateComponentHash, chan_send, queued. intros H.
  destruct (Nat.ltb_spec (length (chan_buf (pathHashUpdater mgr)))
              (chan_cap (pathHashUpdater mgr))); [lia | reflexivity].
Qed.

Lemma send_updates_room ids mgr :
  length (queued mgr) + length ids <= chan_cap (pathHashUpdater mgr) ->
  send_updates ids mgr
  = Done (set_pathHashUpdater mgr
            {| chan_cap := chan_cap (pathHashUpdater mgr);
               chan_buf := queued mgr ++ ids |}).
Proof.
  revert mgr. induction ids as [|id ids IH]; intros mgr Hroom; simpl in *.
  - rewrite app_nil_r. by destruct mgr as [? ? [? ?] ?].
  - rewrite UpdateComponentHash_room by lia.
    rewrite IH.
    + unfold queued. simpl. by rewrite <- app_assoc.
    + unfold queued in *. simpl. rewrite length_app. simpl. lia.
Qed.

Lemma send_updates_full ids mgr :
  chan_cap (pathHashUpdater mgr) < length (queued mgr) + length ids ->
  ids <> [] ->
  send_updates ids mgr = Blocked.
Proof.
  revert mgr. induction ids as [|id ids IH]; intros mgr Hfull Hne; [done|].
  simpl in *.
  destruct (decide (length (queued mgr) < chan_cap (pathHashUpdater mgr)))
    as [Hroom|Hno].
  - rewrite UpdateComponentHash_room by exact Hroom.
    destruct ids as [|id' ids]; [simpl in *; lia|].
    apply IH; [|done]. unfold queued in *. simpl. rewrite length_app. simpl in *. lia.
  - rewrite UpdateComponentHash_full by lia. reflexivity.
Qed.

(** X6.  [UpdateComponentHash] blocks exactly when the update queue is
    full.  On a manager fresh from [NewActionManager], a caller that sends
    while nothing is applied gets through [updaterChanSize] times and
    blocks on the next. *)
Theorem UpdateComponentHash_blocks_when_full :
  (forall mgr id,
      UpdateComponentHash mgr id = Blocked <->
      chan_cap (pathHashUpdater mgr) <= length (queued mgr))
  /\ (forall ws ids,
        send_updates ids (NewActionManager ws) = Blocked <->
        updaterChanSize < length ids).
Proof.
  split.
  - intros mgr id. split.
    + intros Hb.
      destruct (decide (length (queued mgr) < chan_cap (pathHashUpdater mgr)))
        as [Hroom|Hno]; [|lia].
      rewrite UpdateComponentHash_room in Hb by exact Hroom. discriminate.
    + apply UpdateComponentHash_full.
  - intros ws ids. split.
    + intros Hb.
      destruct (decide (length ids <= updaterChanSize)) as [Hroom|Hno]; [|lia].
      rewrite send_updates_room in Hb; [discriminate|]. exact Hroom.
    + intros Hfull. apply send_updates_full.
      * exact Hfull.
      * intros ->. simpl in Hfull. lia.
Qed.

Lemma Notify_keeps mgr mgr' :
  NotifyComponentStateChanged mgr = Done mgr' ->
  workers mgr' = workers mgr
  /\ pathHashes mgr' = pathHashes mgr
  /\ pathHashUpdater mgr' = pathHashUpdater mgr
  /\ chan_cap (dirtyStateNotifier mgr') = chan_cap (dirtyStateNotifier mgr)
  /\ pending mgr <= pending mgr'
  /\ (0 < chan_cap (dirtyStateNotifier mgr) -> 0 < pending mgr').
Proof.
  unfold NotifyComponentStateChanged, chan_send, pending.
  destruct (Nat.ltb_spec (length (chan_buf (dirtyStateNotifier mgr)))
              (chan_cap (dirtyStateNotifier mgr))); intros [= <-]; simpl.
  - rewrite length_app. simpl. repeat split; lia.
  - repeat split; lia.
Qed.

Lemma applyUpdate_step mgr id rest :
  queued mgr = id :: rest ->
  exists mgr',
    applyUpdate mgr = Done mgr'
    /\ workers mgr' = workers mgr
    /\ pathHashes mgr' = <[path_of id := id_Hash id]> (pathHashes mgr)
    /\ queued mgr' = rest
    /\ chan_cap (pathHashUpdater mgr') = chan_cap (pathHashUpdater mgr)
    /\ chan_cap (dirtyStateNotifier mgr') = chan_cap (dirtyStateNotifier mgr)
    /\ pending mgr <= pending mgr'
    /\ (0 < chan_cap (dirtyStateNotifier mgr) -> 0 < pending mgr').
Proof.
  unfold applyUpdate, chan_recv, queued. intros ->.
  destruct (Notify_total
              (set_pathHashes
                 (set_pathHashUpdater mgr
                    {| chan_cap := chan_cap (pathHashUpdater mgr); chan_buf := rest |})
                 (<[path_of id := id_Hash id]>
                    (pathHashes
                       (set_pathHashUpdater mgr
                          {| chan_cap := chan_cap (pathHashUpdater mgr);
                             chan_buf := rest |})))))
    as (mgr' & Hn).
  exists mgr'. split; [exact Hn|].
  apply Notify_keeps in Hn as (Hw & Hi & Hq & Hc & Hp & Hr).
  rewrite Hw, Hi, Hq, Hc. simpl. repeat split; auto.
Qed.

Lemma applyUpdate_empty mgr : queued mgr = [] -> applyUpdate mgr = Blocked.
Proof. unfold applyUpdate, chan_recv, queued. by intros ->. Qed.

Lemma apply_updates_all mgr :
  exists mgr',
    apply_updates (length (queued mgr)) mgr = Done mgr'
    /\ workers mgr' = workers mgr
    /\ pathHashes mgr' = written (queued mgr) (pathHashes mgr)
    /\ queued mgr' = []
    /\ pending mgr <= pending mgr'
    /\ (0 < chan_cap (dirtyStateNotifier mgr) -> queued mgr <> [] ->
        0 < pending mgr').
Proof.
  remember (queued mgr) as q eqn:Hq. revert mgr Hq.
  induction q as [|id rest IH]; intros mgr Hq; simpl.
  - exists mgr. repeat split; auto. done.
  - destruct (applyUpdate_step mgr id rest (eq_sym Hq))
      as (mgr1 & -> & Hw & Hi & Hq1 & _ & Hc & Hp & Hr).
    destruct (IH mgr1 (eq_sym Hq1)) as (mgr' & -> & Hw' & Hi' & Hq' & Hp' & Hr').
    exists mgr'. split; [done|]. rewrite Hw', Hi', Hw, Hi.
    repeat split; auto; [lia|]. intros Hcap _. specialize (Hr Hcap). lia.
Qed.

Lemma written_last pre id index :
  written (pre ++ [id]) index !! path_of id = Some (id_Hash id).
Proof.
  unfold written. rewrite foldl_app. simpl. apply lookup_insert_eq.
Qed.

(** X7.  Updates go through the queue in order.  When the queue has room
    for [ids], sending them blocks nowhere and changes neither the index
    nor the dirty signal.  As many turns of the updating goroutine as there
    are updates queued then go through, and leave the index with every
    queued hash written at its path, oldest first, so that the last update
    of a path wins; the fleet is as before, the queue is empty (a further
    turn blocks), and the dirty signal is raised when its channel has a
    slot and any update was applied. *)
Theorem updates_are_applied_in_order :
  forall (mgr : ActionManager) (ids : list ComponentID),
    length (queued mgr) + length ids <= chan_cap (pathHashUpdater mgr) ->
    exists mgr1 mgr2,
      send_updates ids mgr = Done mgr1
      /\ pathHashes mgr1 = pathHashes mgr
      /\ pending mgr1 = pending mgr
      /\ apply_updates (length (queued mgr) + length ids) mgr1 = Done mgr2
      /\ workers mgr2 = workers mgr
      /\ pathHashes mgr2 = written (queued mgr ++ ids) (pathHashes mgr)
      /\ applyUpdate mgr2 = Blocked
      /\ (forall pre id,
            queued mgr ++ ids = pre ++ [id] ->
            pathHashes mgr2 !! path_of id = Some (id_Hash id))
      /\ (0 < chan_cap (dirtyStateNotifier mgr) -> queued mgr ++ ids <> [] ->
          0 < pending mgr2).
Proof.
  intros mgr ids Hroom.
  set (mgr1 := set_pathHashUpdater mgr
                 {| chan_cap := chan_cap (pathHashUpdater mgr);
                    chan_buf := queued mgr ++ ids |}).
  destruct (apply_updates_all mgr1) as (mgr2 & Hrun & Hw & Hi & Hq & Hp & Hr).
  exists mgr1, mgr2.
  split; [by apply send_updates_room|].
  split; [reflexivity|]. split; [reflexivity|].
  assert (Hlen : length (queued mgr1) = length (queued mgr) + length ids).
  { unfold mgr1, queued. simpl. by rewrite length_app. }
  rewrite <- Hlen. split; [exact Hrun|].
  split; [exact Hw|]. split; [exact Hi|].
  split; [by apply applyUpdate_empty|]. split.
  - intros pre id Heq. rewrite Hi. unfold mgr1 at 1, queued at 1. simpl.
    fold (queued mgr). rewrite Heq. apply written_last.
  - exact Hr.
Qed.

Lemma reconcileOnce_run {W} (env : Env W) mgr world sig rest :
  chan_buf (dirtyStateNotifier mgr) = sig :: rest ->
  reconcileOnce env (mgr, world)
  = Done (HandleDirtyState env
            (set_dirtyStateNotifier mgr
               {| chan_cap := chan_cap (dirtyStateNotifier mgr); chan_buf := rest |},
             world)).
Proof. unfold reconcileOnce, chan_recv. simpl. by intros ->. Qed.

(** X8.  The reconciling goroutine blocks exactly when no signal is
    queued.  A turn that runs takes one signal, and its pass leaves the
    fleet and the update queue as they are.  And with the single-slot
    signal that [NewActionManager] makes: after a burst of notifications
    one turn runs a pass and the turn after it blocks, so that a burst
    costs one pass. *)
Theorem reconcileOnce_takes_the_signal :
  forall (W : Type) (env : Env W) (mgr : ActionManager) (world : W),
    (reconcileOnce env (mgr, world) = Blocked <-> pending mgr = 0)
    /\ (forall r,
          reconcileOnce env (mgr, world) = Done r ->
          S (pending (final r).1) = pending mgr
          /\ workers (final r).1 = workers mgr
          /\ pathHashUpdater (final r).1 = pathHashUpdater mgr)
    /\ (chan_cap (dirtyStateNotifier mgr) = 1 -> pending mgr <= 1 ->
        forall n mgr1,
          0 < n -> notify_times n mgr = Done mgr1 ->
          exists r,
            reconcileOnce env (mgr1, world) = Done r
            /\ reconcileOnce env (final r) = Blocked).
Proof.
  intros W env mgr world.
  assert (Hrun : forall mgr world r,
            reconcileOnce env (mgr, world) = Done r ->
            S (pending (final r).1) = pending mgr
            /\ workers (final r).1 = workers mgr
            /\ pathHashUpdater (final r).1 = pathHashUpdater mgr).
  { intros m w r. unfold pending.
    destruct (chan_buf (dirtyStateNotifier m)) as [|sig rest] eqn:Hbuf.
    - unfold reconcileOnce, chan_recv. simpl. by rewrite Hbuf.
    - rewrite (reconcileOnce_run env m w sig rest Hbuf). intros [= <-].
      destruct (frame_HandleDirtyState env
                  (set_dirtyStateNotifier m
                     {| chan_cap := chan_cap (dirtyStateNotifier m);
                        chan_buf := rest |}, w))
        as [(Hw & Hq & Hd) _].
      simpl in *. rewrite Hd. simpl. auto. }
  assert (Hblocked : forall mgr world,
            reconcileOnce env (mgr, world) = Blocked <-> pending mgr = 0).
  { intros m w. unfold reconcileOnce, chan_recv, pending. simpl.
    destruct (chan_buf (dirtyStateNotifier m)); simpl; split; try done. }
  split; [apply Hblocked|]. split; [apply Hrun|].
  intros Hcap Hpend n mgr1 Hn Hnot.
  assert (Hp1 : pending mgr1 = 1).
  { destruct n as [|n]; [lia|]. simpl in Hnot.
    destruct (decide (pending mgr = 1)) as [H1|H0].
    - rewrite Notify_raised in Hnot by lia.
      rewrite notify_times_raised in Hnot by lia. by injection Hnot as <-.
    - rewrite Notify_clear in Hnot by lia.
      rewrite notify_times_raised in Hnot.
      + injection Hnot as <-. unfold pending in *. simpl. rewrite length_app.
        simpl. lia.
      + unfold pending in *. simpl. rewrite length_app. simpl. lia. }
  destruct (reconcileOnce env (mgr1, world)) as [r|] eqn:Hr.
  - exists r. split; [reflexivity|].
    destruct (Hrun _ _ _ Hr) as (Hs & _).
    destruct (final r) as [mgr2 world2] eqn:Hf. apply Hblocked. simpl in Hs. lia.
  - apply Hblocked in Hr. lia.
Qed.

(* ================================================================== *)
(** * What a pass activates *)
(* ================================================================== *)

Section Activations.

Context {W : Type} (env : Env W).

Lemma Activate_then_store_log id w (s : ActionManager * W) o s' t :
  bind (Activate env id w) (fun h =>
    if String.eqb (id_Hash id) headHashSentinel
    then store_pathHashes (path_of id) h
    else ret tt) s = (o, s', t) ->
  exists res, t = [EvActivate id w res].
Proof.
  intros Hrun. bind_cases Hrun as h s1 t1 t2 Hm Hk.
  - apply call_inv in Hm as [(h0 & w0 & _ & _ & -> & ->) | (e & w0 & _ & [=] & _)].
    assert (t2 = []) as ->.
    { destruct (String.eqb _ _); by injection Hk as <- <- <-. }
    eauto.
  - apply call_inv in Hm as [(h0 & w0 & _ & [=] & _) | (e' & w0 & _ & _ & _ & ->)].
    eauto.
  - apply call_inv in Hm as [(h0 & w0 & _ & [=] & _) | (e' & w0 & _ & [=] & _)].
Qed.

Lemma activates_last_quiet id t :
  Forall (fun ev => asks_or_stops ev = true) t -> activates_last id t.
Proof. intros Ht. exists t, []. rewrite app_nil_r. auto. Qed.

Lemma asks_of_Status (t : list Event) :
  Forall (fun ev => is_Status ev = true) t ->
  Forall (fun ev => asks_or_stops ev = true) t.
Proof. apply logs_only_weaken. by intros []. Qed.

Lemma activateMissing_activates_last id (s : ActionManager * W) :
  activates_last id (log (activateMissing env id s)).
Proof.
  destruct (activateMissing env id s) as [[o s'] t] eqn:Hrun.
  unfold log. simpl. unfold activateMissing in Hrun.
  bind_cases Hrun as ws s1 t1 t2 Hm Hk; [|discriminate Hm..].
  injection Hm as <- <- <-. simpl.
  pose proof (logs_only_activateMissing_loop env (path_of id) (workers s.1) s)
    as Hasks.
  bind_cases Hk as running s2 t3 t4 Hloop Hk;
    rewrite Hloop in Hasks; unfold logs_only, log in Hasks; simpl in Hasks;
    apply asks_of_Status in Hasks;
    [|by apply activates_last_quiet..].
  destruct running.
  { injection Hk as <- <- <-. rewrite app_nil_r. by apply activates_last_quiet. }
  bind_cases Hk as k s3 t5 t6 HI Hk.
  - apply Intn_inv in HI as [(_ & [=] & _) | (k' & w' & Hn & Hr & [= <-] & -> & ->)].
    assert (Hpre : Forall (fun ev => asks_or_stops ev = true)
                     (t3 ++ [EvIntn (length (workers s.1)) k])).
    { apply Forall_app. split; [exact Hasks | by repeat constructor]. }
    bind_cases Hk as w s4 t7 t8 Hidx Hk;
      apply index_inv in Hidx as (-> & -> & Hidx).
    + apply Activate_then_store_log in Hk as (res & ->).
      exists (t3 ++ [EvIntn (length (workers s.1)) k]), [EvActivate id w res].
      simpl. rewrite <- app_assoc. split; [done|]. split; [exact Hpre|]. eauto.
    + rewrite app_nil_r. by apply activates_last_quiet.
    + rewrite app_nil_r. by apply activates_last_quiet.
  - apply Intn_inv in HI as [(_ & [=] & _) | (k' & w' & _ & _ & [=] & _)].
  - apply Intn_inv in HI as [(_ & _ & -> & ->) | (k' & w' & _ & _ & [=] & _)].
    rewrite app_nil_r. by apply activates_last_quiet.
Qed.

(** Choosing where to deploy asks, draws and deactivates only. *)
Lemma choose_target_asks compID ws notRunningAnyVersion
    (s : ActionManager * W) :
  let choose :=
    if 0 <? length notRunningAnyVersion
    then bind (Intn env (length notRunningAnyVersion)) (fun k =>
           index notRunningAnyVersion k)
    else bind (Intn env (length ws)) (fun k =>
           bind (index ws k) (fun target =>
             bind (Deactivate env compID target) (fun _ => ret target))) in
  logs_only asks_or_stops _ s (choose s).
Proof.
  intros choose. subst choose. destruct (0 <? length notRunningAnyVersion).
  - apply logs_only_bind; [by apply logs_only_Intn|].
    intros; apply logs_only_index.
  - apply logs_only_bind; [by apply logs_only_Intn|]. intros k s1 t1 _.
    apply logs_only_bind; [apply logs_only_index|]. intros w s2 t2 _.
    apply logs_only_bind; [by apply logs_only_call|]. constructor.
Qed.

Lemma ensureSomeWorkerIsRunning_activates_last id (s : ActionManager * W) :
  activates_last id (log (ensureSomeWorkerIsRunning env id s)).
Proof.
  destruct (ensureSomeWorkerIsRunning env id s) as [[o s'] t] eqn:Hrun.
  unfold log. simpl. unfold ensureSomeWorkerIsRunning in Hrun.
  bind_cases Hrun as ws s1 t1 t2 Hm Hk; [|discriminate Hm..].
  injection Hm as <- <- <-. simpl.
  pose proof (logs_only_ensureSomeWorkerIsRunning_loop env id (path_of id)
                (workers s.1) [] s) as Hasks.
  bind_cases Hk as scan s2 t3 t4 Hloop Hk;
    rewrite Hloop in Hasks; unfold logs_only, log in Hasks; simpl in Hasks;
    apply asks_of_Status in Hasks;
    [|by apply activates_last_quiet..].
  destruct scan as [notRunning|].
  2:{ injection Hk as <- <- <-. rewrite app_nil_r. by apply activates_last_quiet. }
  pose proof (choose_target_asks id (workers s.1) notRunning s2) as Hq.
  cbv zeta in Hq.
  bind_cases Hk as w s3 t5 t6 Hch Hk;
    rewrite Hch in Hq; unfold logs_only, log in Hq; simpl in Hq.
  - apply Activate_then_store_log in Hk as (res & ->).
    exists (t3 ++ t5), [EvActivate id w res]. rewrite <- app_assoc.
    split; [done|]. split; [by apply Forall_app|]. eauto.
  - apply activates_last_quiet. by apply Forall_app.
  - apply activates_last_quiet. by apply Forall_app.
Qed.

End Activations.

Section Desired.

Context {W : Type} (env : Env W).

(** Phase 1 asks for statuses and deactivates, and does nothing else. *)
Lemma phase1_asks_and_stops active (s : ActionManager * W) :
  logs_only (fun ev => is_Status ev || is_Deactivate ev) unit s
    (phase1 env active s).
Proof.
  revert s.
  refine (holds_phase1 env
            (logs_only (fun ev => is_Status ev || is_Deactivate ev))
            _ _ _ _ _ active).
  - constructor.
  - intros A B m k s. apply logs_only_bind.
  - intros w s. by apply logs_only_call.
  - intros id w s. by apply logs_only_call.
  - constructor.
Qed.

Lemma asks_phase1 active (s : ActionManager * W) :
  logs_only asks_or_stops unit s (phase1 env active s).
Proof.
  eapply logs_only_weaken; [|apply phase1_asks_and_stops]. by intros [].
Qed.

Lemma asks_deactivateIfHashDiffers w compID (s : ActionManager * W) :
  logs_only asks_or_stops unit s (deactivateIfHashDiffers env w compID s).
Proof.
  revert s.
  refine (holds_deactivateIfHashDiffers env (logs_only asks_or_stops) _ _ _ _ w compID).
  - constructor.
  - intros A B m k s. apply logs_only_bind.
  - intros w' s. by apply logs_only_call.
  - intros id w' s. by apply logs_only_call.
Qed.

Lemma for_desired_of_asks active (t : list Event) :
  Forall (fun ev => asks_or_stops ev = true) t ->
  Forall (fun ev => for_desired active ev = true) t.
Proof. apply logs_only_weaken. by intros []. Qed.

Lemma for_desired_of_activates_last active p h t :
  In p active ->
  activates_last (componentID p h) t ->
  Forall (fun ev => for_desired active ev = true) t.
Proof.
  intros Hp (pre & tail & -> & Hpre & Htail).
  apply Forall_app. split; [by apply for_desired_of_asks|].
  destruct Htail as [-> | (w & res & ->)]; [constructor|].
  repeat constructor. simpl. apply bool_decide_eq_true.
  rewrite path_of_componentID. by apply list_elem_of_In.
Qed.

Lemma for_desired_lookup active p (s : ActionManager * W) :
  In p active -> logs_only (for_desired active) _ s (lookup_pathHashes p s).
Proof.
  intros Hp. repeat constructor. simpl. apply bool_decide_eq_true.
  by apply list_elem_of_In.
Qed.

Lemma for_desired_phases active (s : ActionManager * W) :
  logs_only (for_desired active) unit s
    (bind (phase1 env active) (fun _ =>
       bind (phase2 env active) (fun _ =>
         bind (phase3 env active) (fun _ => phase4 env active))) s).
Proof.
  apply logs_only_bind.
  { apply for_desired_of_asks, asks_phase1. }
  intros _ s1 _ _. apply logs_only_bind.
  { unfold phase2. apply logs_only_for_range_In. intros p s2 Hp.
    apply logs_only_bind; [by apply for_desired_lookup|]. intros entry s3 _ _.
    eapply for_desired_of_activates_last; [exact Hp|].
    apply activateMissing_activates_last. }
  intros _ s2 _ _. apply logs_only_bind.
  { unfold phase3. apply logs_only_for_range_In. intros p s3 Hp.
    apply logs_only_bind; [by apply for_desired_lookup|].
    intros [h|] s4 _ _; [|constructor].
    eapply for_desired_of_activates_last; [exact Hp|].
    apply ensureSomeWorkerIsRunning_activates_last. }
  intros _ s3 _ _.
  unfold phase4. apply logs_only_for_range_In. intros p s4 Hp.
  apply logs_only_bind; [by apply for_desired_lookup|].
  intros [h|] s5 _ _; [|constructor].
  apply logs_only_bind; [constructor|]. intros ws s6 _ _.
  apply logs_only_for_range_In. intros w s7 _.
  apply for_desired_of_asks, asks_deactivateIfHashDiffers.
Qed.

End Desired.

(** X9.  A pass reads the desired set once, as its first call.  When the
    read fails the pass returns its error and calls nothing else.
    Otherwise every component the pass activates, and every path it looks
    up in the index, is of a path the read returned. *)
Theorem pass_activates_only_desired_paths :
  forall (W : Type) (env : Env W) (s : ActionManager * W),
    let r := HandleDirtyState env s in
    exists res rest,
      log r = EvFindActiveComponents res :: rest
      /\ (forall res', ~ In (EvFindActiveComponents res') rest)
      /\ match res with
         | Err e => rest = [] /\ outcome r = Fail e
         | Ok active =>
             (forall id w h,
                 In (EvActivate id w h) rest -> In (path_of id) active)
             /\ (forall p, In (EvIndexRead p) rest -> In p active)
         end.
Proof.
  intros W env s r. subst r. unfold HandleDirtyState.
  destruct (driver_FindActiveComponents env s.2) as [[active|e] world'] eqn:Hfind.
  - pose proof (for_desired_phases env active (s.1, world')) as Hq.
    erewrite bind_Return; cycle 1.
    { unfold FindActiveComponents, call. rewrite Hfind. reflexivity. }
    unfold logs_only in Hq. unfold log at 1. simpl.
    rewrite Forall_forall in Hq.
    exists (Ok active). eexists. split; [reflexivity|]. split; [|split].
    + intros res' Hin. apply list_elem_of_In, Hq in Hin. discriminate.
    + intros id w h Hin. apply list_elem_of_In, Hq in Hin. simpl in Hin.
      apply bool_decide_eq_true in Hin. by apply list_elem_of_In.
    + intros p Hin. apply list_elem_of_In, Hq in Hin. simpl in Hin.
      apply bool_decide_eq_true in Hin. by apply list_elem_of_In.
  - erewrite bind_Fail; cycle 1.
    { unfold FindActiveComponents, call. rewrite Hfind. reflexivity. }
    exists (Err e), []. repeat split; auto.
Qed.

Section Counting.

Context {W : Type} (env : Env W).

Lemma activations_app t1 t2 :
  activations (t1 ++ t2) = activations t1 + activations t2.
Proof. unfold activations. by rewrite List.filter_app, length_app. Qed.

Lemma activations_none (t : list Event) :
  Forall (fun ev => not_Activate ev = true) t -> activations t = 0.
Proof.
  unfold activations. induction 1 as [|ev t Hev _ IH]; [reflexivity|].
  destruct ev; simpl in *; try discriminate; exact IH.
Qed.

Lemma not_Activate_of_asks (t : list Event) :
  Forall (fun ev => asks_or_stops ev = true) t ->
  Forall (fun ev => not_Activate ev = true) t.
Proof. apply logs_only_weaken. by intros []. Qed.

Lemma activations_of_activates_last id t :
  activates_last id t -> activations t <= 1.
Proof.
  intros (pre & tail & -> & Hpre & Htail).
  rewrite activations_app, (activations_none pre (not_Activate_of_asks pre Hpre)).
  destruct Htail as [-> | (w & res & ->)]; unfold activations; simpl; lia.
Qed.

Lemma at_most_bind n1 n2 A B (m : M A) (k : A -> M B) (s : ActionManager * W) :
  at_most n1 A s (m s) ->
  (forall a s1 t1, m s = (Return a, s1, t1) -> at_most n2 B s1 (k a s1)) ->
  at_most (n1 + n2) B s (bind m k s).
Proof.
  unfold at_most, bind, log. intros Hm Hk.
  destruct (m s) as [[[a|e|] s1] t1]; simpl in *; try lia.
  specialize (Hk a s1 t1 eq_refl).
  destruct (k a s1) as [[o s2] t2]; simpl in *. rewrite activations_app. lia.
Qed.

Lemma at_most_for_range n {X} (xs : list X) (body : X -> M unit)
    (s : ActionManager * W) :
  (forall x s, at_most n unit s (body x s)) ->
  at_most (n * length xs) unit s (for_range xs body s).
Proof.
  intros Hbody. revert s. induction xs as [|x xs IH]; intros s; simpl.
  - unfold at_most. simpl. unfold activations. simpl. lia.
  - replace (n * S (length xs)) with (n + n * length xs) by lia.
    apply at_most_bind; [apply Hbody|]. intros _ s1 _ _. apply IH.
Qed.

Lemma at_most_quiet A (s : ActionManager * W)
    (r : Outcome A * (ActionManager * W) * list Event) :
  logs_only not_Activate A s r -> at_most 0 A s r.
Proof. unfold logs_only, at_most. intros H. by rewrite activations_none. Qed.

Lemma not_Activate_phase4 active (s : ActionManager * W) :
  logs_only not_Activate unit s (phase4 env active s).
Proof.
  revert s.
  refine (holds_phase4 env (logs_only not_Activate) _ _ _ _ _ _ active).
  - constructor.
  - intros A B m k s. apply logs_only_bind.
  - intros w s. by apply logs_only_call.
  - intros id w s. by apply logs_only_call.
  - constructor.
  - intros p s. by repeat constructor.
Qed.

Lemma at_most_lookup_then n A p (k : option string -> M A)
    (s : ActionManager * W) :
  (forall entry s, at_most n A s (k entry s)) ->
  at_most n A s (bind (lookup_pathHashes p) k s).
Proof.
  intros Hk. change n with (0 + n). apply at_most_bind.
  - unfold at_most, activations. simpl. lia.
  - intros entry s1 _ _. apply Hk.
Qed.

Lemma at_most_phases active (s : ActionManager * W) :
  at_most (2 * length active) unit s
    (bind (phase1 env active) (fun _ =>
       bind (phase2 env active) (fun _ =>
         bind (phase3 env active) (fun _ => phase4 env active))) s).
Proof.
  replace (2 * length active)
    with (0 + (1 * length active + (1 * length active + 0))) by lia.
  apply at_most_bind.
  { apply at_most_quiet, not_Activate_of_asks, asks_phase1. }
  intros _ s1 _ _. apply at_most_bind.
  { unfold phase2. apply at_most_for_range. intros p s2.
    apply at_most_lookup_then. intros entry s3.
    eapply activations_of_activates_last, activateMissing_activates_last. }
  intros _ s2 _ _. apply at_most_bind.
  { unfold phase3. apply at_most_for_range. intros p s3.
    apply at_most_lookup_then. intros [h|] s4.
    - eapply activations_of_activates_last,
        ensureSomeWorkerIsRunning_activates_last.
    - unfold at_most, activations. simpl. lia. }
  intros _ s3 _ _. apply at_most_quiet, not_Activate_phase4.
Qed.

End Counting.

(** X10.  A pass makes at most two activations for each path of the
    desired set as it read it: one in Phase 2 and one in Phase 3. *)
Theorem pass_activates_at_most_twice_per_desired_path :
  forall (W : Type) (env : Env W) (s : ActionManager * W)
         (active : list ComponentPath) (world' : W),
    driver_FindActiveComponents env s.2 = (Ok active, world') ->
    activations (log (HandleDirtyState env s)) <= 2 * length active.
Proof.
  intros W env s active world' Hfind.
  pose proof (at_most_phases env active (s.1, world')) as Hn.
  unfold HandleDirtyState.
  erewrite bind_Return; cycle 1.
  { unfold FindActiveComponents, call. rewrite Hfind. reflexivity. }
  unfold at_most in Hn. unfold log at 1. simpl.
  change (EvFindActiveComponents (Ok active) :: ?t)
    with ([EvFindActiveComponents (Ok active)] ++ t).
  rewrite activations_app. unfold activations at 1. simpl. exact Hn.
Qed.

Section Indexed.

Context {W : Type} (env : Env W).

Lemma deploys_quiet A (s : ActionManager * W)
    (r : Outcome A * (ActionManager * W) * list Event) :
  tracks A s r -> logs_only not_Activate A s r -> deploys_the_indexed A s r.
Proof.
  intros Ht Hq. split; [exact Ht|]. intros pre id w res post Hlog.
  unfold logs_only in Hq. rewrite Hlog in Hq.
  apply Forall_app in Hq as [_ Hq]. inversion Hq as [|? ? Hev _]. discriminate.
Qed.

Lemma deploys_bind A B (m : M A) (k : A -> M B) (s : ActionManager * W) :
  deploys_the_indexed A s (m s) ->
  (forall a s1 t1,
      m s = (Return a, s1, t1) -> deploys_the_indexed B s1 (k a s1)) ->
  deploys_the_indexed B s (bind m k s).
Proof.
  intros [Htm Hm] Hk. split.
  { apply tracks_bind; [exact Htm|]. intros a s1 t1 H.
    exact (proj1 (Hk a s1 t1 H)). }
  unfold bind, log in *.
  destruct (m s) as [[[a|e|] s1] t1] eqn:Hrun; simpl in *; auto.
  destruct (Hk a s1 t1 eq_refl) as [_ Hk'].
  destruct (k a s1) as [[o s2] t2]; simpl in *.
  intros pre id w res post Hlog.
  apply app_eq_inv in Hlog as [(l & Ht1 & Hl) | (l & -> & Hl)].
  - destruct l as [|ev l].
    + simpl in Hl. rewrite app_nil_r in Ht1. subst t1.
      pose proof (Htm (path_of id)) as Hp. unfold final, log in Hp.
      simpl in Hp. rewrite <- Hp.
      apply (Hk' [] id w res post). by rewrite <- Hl.
    + injection Hl as <- ->. apply (Hm pre id w res l). exact Ht1.
  - rewrite entry_after_app.
    pose proof (Htm (path_of id)) as Hp. unfold final, log in Hp.
    simpl in Hp. rewrite <- Hp.
    apply (Hk' l id w res post). exact Hl.
Qed.

Lemma deploys_for_range {X} (xs : list X) (body : X -> M unit)
    (s : ActionManager * W) :
  (forall x s, deploys_the_indexed unit s (body x s)) ->
  deploys_the_indexed unit s (for_range xs body s).
Proof.
  intros Hbody. revert s. induction xs as [|x xs IH]; intros s; simpl.
  - apply deploys_quiet; [apply tracks_ret | constructor].
  - apply deploys_bind; [apply Hbody|]. intros _ s1 _ _. apply IH.
Qed.

Lemma tracks_activateMissing id (s : ActionManager * W) :
  tracks unit s (activateMissing env id s).
Proof.
  revert s.
  refine (holds_activateMissing env (@tracks W) _ _ _ _ _ _ _ id).
  - intros A a s. apply tracks_ret.
  - by intros A s p.
  - intros A B m k s. apply tracks_bind.
  - intros w s. by apply tracks_call.
  - intros n s. apply tracks_Intn.
  - by intros s p.
  - intros id' w s. apply tracks_Activate.
Qed.

(** A step that activates [id] last, from a state whose index holds the
    hash of [id] at its path. *)
Lemma deploys_of_activates_last id (s : ActionManager * W)
    (r : Outcome unit * (ActionManager * W) * list Event) :
  tracks unit s r ->
  activates_last id (log r) ->
  id_Hash id = hash_to_deploy (pathHashes s.1 !! path_of id) ->
  deploys_the_indexed unit s r.
Proof.
  intros Ht (pre0 & tail & Hlog & Hpre & Htail) Hhash. split; [exact Ht|].
  intros pre id' w res post Hsplit. rewrite Hlog in Hsplit.
  apply not_Activate_of_asks in Hpre.
  destruct Htail as [-> | (w0 & res0 & ->)].
  - exfalso. rewrite app_nil_r in Hsplit. subst pre0.
    apply Forall_app in Hpre as [_ Hpre]. inversion Hpre as [|? ? Hev _].
    discriminate.
  - eapply (last_is_only (fun ev => not_Activate ev = true)) in Hsplit
      as (_ & [= <- <- <-] & ->); [|exact Hpre|done].
    by rewrite entry_after_quiet.
Qed.

Lemma deploys_lookup p (s : ActionManager * W) :
  deploys_the_indexed _ s (lookup_pathHashes p s).
Proof. apply deploys_quiet; [apply tracks_lookup | by repeat constructor]. Qed.

Lemma deploys_HandleDirtyState (s : ActionManager * W) :
  deploys_the_indexed unit s (HandleDirtyState env s).
Proof.
  unfold HandleDirtyState. apply deploys_bind.
  { apply deploys_quiet; [by apply tracks_call | by apply logs_only_call]. }
  intros active s1 _ _. apply deploys_bind.
  { apply deploys_quiet; [apply tracks_phase1|].
    apply not_Activate_of_asks, asks_phase1. }
  intros _ s2 _ _. apply deploys_bind.
  { unfold phase2. apply deploys_for_range. intros p s3.
    apply deploys_bind; [apply deploys_lookup|]. intros entry s4 t4 Hl.
    injection Hl as <- <- <-.
    apply (deploys_of_activates_last _ _ _ (tracks_activateMissing _ _)
             (activateMissing_activates_last env _ _)).
    rewrite path_of_componentID. simpl. by destruct (pathHashes s3.1 !! p). }
  intros _ s3 _ _. apply deploys_bind.
  { unfold phase3. apply deploys_for_range. intros p s4.
    apply deploys_bind; [apply deploys_lookup|]. intros entry s5 t5 Hl.
    injection Hl as <- <- <-.
    destruct (pathHashes s4.1 !! p) as [h|] eqn:Hentry.
    - apply (deploys_of_activates_last _ _ _
               (tracks_ensureSomeWorkerIsRunning env _ _)
               (ensureSomeWorkerIsRunning_activates_last env _ _)).
      rewrite path_of_componentID. simpl. by rewrite Hentry.
    - apply deploys_quiet; [apply tracks_ret | constructor]. }
  intros _ s4 _ _.
  apply deploys_quiet; [|apply not_Activate_phase4].
  revert s4. refine (holds_phase4 env (@tracks W) _ _ _ _ _ _ active).
  - intros A a s'. apply tracks_ret.
  - intros A B m k s'. apply tracks_bind.
  - intros w s'. by apply tracks_call.
  - intros id w s'. by apply tracks_call.
  - by intros s' p.
  - intros q s'. apply tracks_lookup.
Qed.

End Indexed.

(** X11.  Every activation of a pass asks for the hash that the index
    holds for the component's path at that point of the pass (the index of
    the start with the resolutions logged so far written to it), and for
    the sentinel ["HEAD"] when the index holds none. *)
Theorem pass_deploys_the_indexed_version :
  forall (W : Type) (env : Env W) (s : ActionManager * W)
         (pre : list Event) (id : ComponentID) (w : V9Worker)
         (res : Result string) (post : list Event),
    log (HandleDirtyState env s) = pre ++ EvActivate id w res :: post ->
    id_Hash id
    = hash_to_deploy
        (entry_after (path_of id) (pathHashes s.1 !! path_of id) pre).
Proof.
  intros W env s pre id w res post Hlog.
  exact (proj2 (deploys_HandleDirtyState env s) pre id w res post Hlog).
Qed.

(* ================================================================== *)
(** * Phase 3: the scan and the placement *)
(* ================================================================== *)

Section EnsureScan.

Context {W : Type} (env : Env W).

Lemma free_workers_app p t1 t2 :
  free_workers p (t1 ++ t2) = free_workers p t1 ++ free_workers p t2.
Proof.
  induction t1 as [|ev t1 IH]; [reflexivity|].
  destruct ev as [|w [st|e]| | | |]; simpl; try exact IH.
  destruct (negb (ContainsPath st p)); simpl; by rewrite IH.
Qed.

Lemma free_workers_none p (t : list Event) :
  Forall (fun ev => not_Status ev = true) t -> free_workers p t = [].
Proof.
  induction 1 as [|ev t Hev _ IH]; [reflexivity|].
  destruct ev; simpl in *; try discriminate; exact IH.
Qed.

Lemma ensure_loop_scan compID compPath ws acc (s : ActionManager * W) o s' t :
  ensureSomeWorkerIsRunning_loop env compID compPath ws acc s = (o, s', t) ->
  ensure_log compID ws (found o) t
  /\ forall l, o = Return (Some l) -> l = acc ++ free_workers compPath t.
Proof.
  revert acc s o s' t.
  induction ws as [|w ws IH]; intros acc s o s' t Hrun; simpl in Hrun.
  - injection Hrun as <- <- <-. split; [constructor|].
    intros l [= <-]. by rewrite app_nil_r.
  - bind_cases Hrun as status s1 t1 t2 Hm Hk.
    + apply call_inv in Hm
        as [(st & w0 & _ & [= <-] & -> & ->) | (e & w0 & _ & [=] & _)].
      destruct (ContainsExactly_loop (ActiveComponents status) compID) eqn:Hc.
      * injection Hk as <- <- <-. split; [by constructor | discriminate].
      * apply IH in Hk as [Hlog Hl]. split.
        -- simpl. by apply ensure_next.
        -- intros l Ho. rewrite (Hl l Ho). simpl.
           destruct (negb (ContainsPath status compPath)); simpl;
             by rewrite <- ?app_assoc.
    + apply call_inv in Hm
        as [(st & w0 & _ & [=] & _) | (e' & w0 & _ & [= <-] & _ & ->)].
      split; [constructor | discriminate].
    + apply call_inv in Hm
        as [(st & w0 & _ & [=] & _) | (e' & w0 & _ & [=] & _)].
Qed.

(** What a scan's log looks like, by the way the scan ended. *)
Lemma ensure_log_shape compID ws o t :
  ensure_log compID ws o t ->
  queried t `prefix_of` ws
  /\ Forall (fun ev => is_Status ev = true) t
  /\ match o with
     | Return true =>
         exists pre w status,
           t = pre ++ [EvStatus w (Ok status)]
           /\ ContainsExactly status compID = true
           /\ Forall (fun ev => misses compID ev = true) pre
     | Return false =>
         queried t = ws /\ Forall (fun ev => misses compID ev = true) t
     | Fail e =>
         exists pre w,
           t = pre ++ [EvStatus w (Err e)]
           /\ Forall (fun ev => misses compID ev = true) pre
     | Panic => False
     end.
Proof.
  induction 1 as [|w ws status Hc|w ws e|w ws status o t Hc Hscan (Hpre & Hst & IH)].
  - split; [apply prefix_nil|]. split; [constructor|].
    split; [reflexivity | constructor].
  - split; [apply prefix_cons, prefix_nil|]. split; [by repeat constructor|].
    exists [], w, status. repeat split; auto.
  - split; [apply prefix_cons, prefix_nil|]. split; [by repeat constructor|].
    exists [], w. repeat split; auto.
  - split; [by apply prefix_cons|]. split; [by constructor|].
    assert (Hhere : misses compID (EvStatus w (Ok status)) = true).
    { unfold misses. by rewrite Hc. }
    destruct o as [[|]|e|].
    + destruct IH as (pre & w' & st' & -> & Hc' & HF).
      exists (EvStatus w (Ok status) :: pre), w', st'. repeat split; auto.
    + destruct IH as [Hq HF]. split; [simpl; by rewrite Hq | by constructor].
    + destruct IH as (pre & w' & -> & HF).
      exists (EvStatus w (Ok status) :: pre), w'. repeat split; auto.
    + contradiction.
Qed.

(** The calls of a deployment: a draw, then on the worker drawn the
    deactivation (when no worker is free) and the activation, each only
    when the one before went through. *)
Lemma choose_places compID ws notRunning (s : ActionManager * W) :
  logs_only places _ s (choose env compID ws notRunning s).
Proof.
  unfold choose. destruct (0 <? length notRunning).
  - apply logs_only_bind; [by apply logs_only_Intn|].
    intros; apply logs_only_index.
  - apply logs_only_bind; [by apply logs_only_Intn|]. intros k s1 t1 _.
    apply logs_only_bind; [apply logs_only_index|]. intros w s2 t2 _.
    apply logs_only_bind; [by apply logs_only_call|]. constructor.
Qed.

Lemma choose_returns compID ws notRunning (s : ActionManager * W) target s' t :
  choose env compID ws notRunning s = (Return target, s', t) ->
  (notRunning <> []
   /\ exists k,
       notRunning !! k = Some target /\ t = [EvIntn (length notRunning) k])
  \/ (notRunning = []
      /\ exists k,
          ws !! k = Some target
          /\ t = [EvIntn (length ws) k; EvDeactivate compID target (Ok tt)]).
Proof.
  unfold choose. intros Hch.
  destruct notRunning as [|w0 l0]; simpl (0 <? _) in Hch; cbv iota in Hch.
  - right. split; [done|].
    bind_returns Hch as k s2 t3 t4 HI Hch.
    apply Intn_inv in HI as [(_ & [=] & _) | (k' & w' & Hn & Hr & [= <-] & -> & ->)].
    bind_returns Hch as w1 s3 t5 t6 Hidx Hch.
    apply index_inv in Hidx as (-> & -> & Hidx).
    destruct Hidx as [(a & Hlook & [= <-]) | (_ & [=])].
    bind_returns Hch as u s4 t7 t8 Hde Hch.
    apply call_inv in Hde as [([] & w2 & _ & _ & -> & ->) | (? & ? & _ & [=] & _)].
    injection Hch as <- <- <-. simpl. eauto.
  - left. split; [done|].
    bind_returns Hch as k s2 t3 t4 HI Hch.
    apply Intn_inv in HI as [([=] & _) | (k' & w' & Hn & Hr & [= <-] & -> & ->)].
    apply index_inv in Hch as (-> & -> & Hidx).
    destruct Hidx as [(a & Hlook & [= <-]) | (_ & [=])].
    rewrite app_nil_r. eauto.
Qed.

Lemma not_Status_of_places (t : list Event) :
  Forall (fun ev => places ev = true) t ->
  Forall (fun ev => not_Status ev = true) t.
Proof. apply logs_only_weaken. by intros []. Qed.

Lemma deploy_log compID ws notRunning (s : ActionManager * W) o s' t :
  bind (choose env compID ws notRunning) (fun workerToDeployTo =>
    bind (Activate env compID workerToDeployTo) (fun deployedHash =>
      if String.eqb (id_Hash compID) headHashSentinel
      then store_pathHashes (path_of compID) deployedHash
      else ret tt)) s = (o, s', t) ->
  Forall (fun ev => not_Status ev = true) t
  /\ forall w res,
      In (EvActivate compID w res) t ->
      (notRunning <> [] ->
       exists k,
         notRunning !! k = Some w
         /\ t = [EvIntn (length notRunning) k; EvActivate compID w res])
      /\ (notRunning = [] ->
          exists k,
            ws !! k = Some w
            /\ t = [EvIntn (length ws) k;
                    EvDeactivate compID w (Ok tt);
                    EvActivate compID w res]).
Proof.
  intros Hrun.
  pose proof (choose_places compID ws notRunning s) as Hq.
  bind_cases Hrun as target s1 t1 t2 Hch Hact;
    rewrite Hch in Hq; unfold logs_only, log in Hq; simpl in Hq.
  - apply Activate_then_store_log in Hact as (res' & ->).
    split.
    { apply Forall_app. split; [by apply not_Status_of_places|].
      by repeat constructor. }
    intros w res Hin. apply in_app_or in Hin as [Hin | [Hin | []]].
    { rewrite Forall_forall in Hq. apply list_elem_of_In, Hq in Hin.
      discriminate. }
    injection Hin as <- <-.
    apply choose_returns in Hch
      as [(Hne & k & Hk & ->) | (-> & k & Hk & ->)]; simpl.
    + split; [eauto | done].
    + split; [done | eauto].
  - split; [by apply not_Status_of_places|]. intros w res Hin.
    rewrite Forall_forall in Hq. apply list_elem_of_In, Hq in Hin. discriminate.
  - split; [by apply not_Status_of_places|]. intros w res Hin.
    rewrite Forall_forall in Hq. apply list_elem_of_In, Hq in Hin. discriminate.
Qed.

End EnsureScan.

Section EnsureShape.

Context {W : Type} (env : Env W).

(** The shape of a run of [ensureSomeWorkerIsRunning]: a scan, and after a
    scan that found the component nowhere, a deployment that asks for no
    status. *)
Lemma ensureSomeWorkerIsRunning_shape compID (s : ActionManager * W) :
  let r := ensureSomeWorkerIsRunning env compID s in
  exists o t_scan t_deploy,
    ensure_log compID (workers s.1) o t_scan
    /\ log r = t_scan ++ t_deploy
    /\ Forall (fun ev => not_Status ev = true) t_deploy
    /\ match o with
       | Return true =>
           t_deploy = [] /\ outcome r = Return tt /\ (final r).1 = s.1
       | Return false =>
           let free := free_workers (path_of compID) t_scan in
           forall w res,
             In (EvActivate compID w res) t_deploy ->
             (free <> [] ->
              exists k,
                free !! k = Some w
                /\ t_deploy = [EvIntn (length free) k; EvActivate compID w res])
             /\ (free = [] ->
                 exists k,
                   workers s.1 !! k = Some w
                   /\ t_deploy = [EvIntn (length (workers s.1)) k;
                                  EvDeactivate compID w (Ok tt);
                                  EvActivate compID w res])
       | Fail e => t_deploy = [] /\ outcome r = Fail e
       | Panic => False
       end.
Proof.
  intros r. subst r.
  destruct (ensureSomeWorkerIsRunning env compID s) as [[o s'] t] eqn:Hrun.
  unfold ensureSomeWorkerIsRunning in Hrun.
  bind_cases Hrun as ws s1 t1 t2 Hm Hk; [|discriminate Hm..].
  injection Hm as <- <- <-. simpl.
  pose proof (keeps_manager_ensureSomeWorkerIsRunning_loop env compID
                (path_of compID) (workers s.1) [] s) as Hmgr.
  bind_cases Hk as scan s2 t3 t4 Hloop Hk;
    rewrite Hloop in Hmgr; unfold keeps_manager, final in Hmgr; simpl in Hmgr;
    apply ensure_loop_scan in Hloop as [Hscan Hl]; simpl in Hscan.
  - destruct scan as [notRunning|].
    + exists (Return false), t3, t4. split; [exact Hscan|].
      split; [reflexivity|].
      specialize (Hl notRunning eq_refl). simpl in Hl. subst notRunning.
      apply (deploy_log env compID (workers s.1)) in Hk as [Hq Hact].
      split; [exact Hq | exact Hact].
    + injection Hk as <- <- <-.
      exists (Return true), t3, []. repeat split; auto.
  - exists (Fail e), t2, []. rewrite app_nil_r. repeat split; auto.
  - apply ensure_log_shape in Hscan as (_ & _ & []).
Qed.

End EnsureShape.

(** X12.  The Phase 3 step for [compID] asks the workers in fleet order.
    At the first answer that lists exactly [compID] it returns [nil] with
    nothing after that answer in its log, and leaves the manager as it is.
    It commands a worker only after every worker of the fleet has answered
    and none of the answers lists exactly [compID]. *)
Theorem ensureSomeWorkerIsRunning_stops_at_the_running_one :
  forall (W : Type) (env : Env W) (compID : ComponentID)
         (s : ActionManager * W),
    let r := ensureSomeWorkerIsRunning env compID s in
    queried (log r) `prefix_of` workers s.1
    /\ (forall pre w status post,
          log r = pre ++ EvStatus w (Ok status) :: post ->
          ContainsExactly status compID = true ->
          post = [] /\ outcome r = Return tt /\ (final r).1 = s.1)
    /\ (forall ev,
          In ev (log r) -> is_command ev = true ->
          queried (log r) = workers s.1
          /\ forall w status,
              In (EvStatus w (Ok status)) (log r) ->
              ContainsExactly status compID = false).
Proof.
  intros W env compID s r.
  destruct (ensureSomeWorkerIsRunning_shape env compID s)
    as (o & t_scan & t_deploy & Hscan & Hlog & Hdeploy & Hend).
  fold r in Hlog, Hend.
  apply ensure_log_shape in Hscan as (Hprefix & Hasks & Hshape).
  assert (Hq : queried (log r) = queried t_scan).
  { by rewrite Hlog, queried_app, (queried_no_Status t_deploy), app_nil_r. }
  assert (Hmiss : forall t w status,
            Forall (fun ev => misses compID ev = true) t ->
            In (EvStatus w (Ok status)) t ->
            ContainsExactly status compID = false).
  { intros t w status HF Hin. rewrite Forall_forall in HF.
    apply list_elem_of_In, HF in Hin. simpl in Hin.
    by apply negb_true_iff in Hin. }
  assert (Hdeploy_miss : forall w status,
            ~ In (EvStatus w (Ok status)) t_deploy).
  { intros w status Hin. rewrite Forall_forall in Hdeploy.
    apply list_elem_of_In, Hdeploy in Hin. discriminate. }
  assert (Hscan_quiet : forall ev, In ev t_scan -> is_command ev = false).
  { intros ev Hin. rewrite Forall_forall in Hasks.
    apply list_elem_of_In, Hasks in Hin. by destruct ev. }
  split; [by rewrite Hq|].
  destruct o as [[|]|e|]; [| | |contradiction].
  - (* the scan found the component *)
    destruct Hend as (-> & Hout & Hfin). rewrite app_nil_r in Hlog.
    destruct Hshape as (pre' & w' & st' & Hscan_eq & Hc & Hpre').
    split.
    + intros pre w status post Hsplit Hex. rewrite Hlog, Hscan_eq in Hsplit.
      eapply (last_is_only (fun ev => misses compID ev = true)) in Hsplit
        as (-> & _ & _); [done | exact Hpre' |].
      simpl. by rewrite Hex.
    + intros ev Hin Hcmd. rewrite Hlog in Hin.
      apply Hscan_quiet in Hin. congruence.
  - (* the scan found it nowhere *)
    destruct Hshape as [Hall Hnone]. split.
    + intros pre w status post Hsplit Hex. exfalso.
      assert (Hin : In (EvStatus w (Ok status)) (log r)).
      { rewrite Hsplit. apply in_or_app. right. by left. }
      rewrite Hlog in Hin. apply in_app_or in Hin as [Hin | Hin].
      * apply (Hmiss _ _ _ Hnone) in Hin. congruence.
      * by apply Hdeploy_miss in Hin.
    + intros ev _ _. split; [congruence|].
      intros w status Hin. rewrite Hlog in Hin.
      apply in_app_or in Hin as [Hin | Hin].
      * by apply (Hmiss _ _ _ Hnone) in Hin.
      * by apply Hdeploy_miss in Hin.
  - (* a status call failed *)
    destruct Hend as [-> Hout]. rewrite app_nil_r in Hlog.
    destruct Hshape as (pre' & w' & Hscan_eq & Hpre'). split.
    + intros pre w status post Hsplit Hex. exfalso.
      assert (Hin : In (EvStatus w (Ok status)) (log r)).
      { rewrite Hsplit. apply in_or_app. right. by left. }
      rewrite Hlog, Hscan_eq in Hin.
      apply in_app_or in Hin as [Hin | [Hin | []]]; [|discriminate].
      apply (Hmiss _ _ _ Hpre') in Hin. congruence.
    + intros ev Hin Hcmd. rewrite Hlog in Hin.
      apply Hscan_quiet in Hin. congruence.
Qed.

(** X13.  Where the Phase 3 step deploys.  When the step activates
    [compID] on [w], its log is the statuses of the scan, then one
    [rand.Intn], then the commands.  If some worker answered without any
    version of the path, the draw is over the number of these workers, [w]
    is the one of them at the number drawn, and the step has sent no
    [Deactivate].  If every worker answered with some version of the path,
    the draw is over the whole fleet, [w] is the worker at the number
    drawn, and the activation comes right after a successful [Deactivate]
    of [compID] on the same [w]. *)
Theorem ensureSomeWorkerIsRunning_prefers_a_free_worker :
  forall (W : Type) (env : Env W) (compID : ComponentID)
         (s : ActionManager * W) (w : V9Worker) (res : Result string),
    let r := ensureSomeWorkerIsRunning env compID s in
    let free := free_workers (path_of compID) (log r) in
    In (EvActivate compID w res) (log r) ->
    (free <> [] ->
     exists scan k,
       log r = scan ++ [EvIntn (length free) k; EvActivate compID w res]
       /\ Forall (fun ev => is_Status ev = true) scan
       /\ free !! k = Some w)
    /\ (free = [] ->
        exists scan k,
          log r = scan ++ [EvIntn (length (workers s.1)) k;
                           EvDeactivate compID w (Ok tt);
                           EvActivate compID w res]
          /\ Forall (fun ev => is_Status ev = true) scan
          /\ workers s.1 !! k = Some w).
Proof.
  intros W env compID s w res r free Hin.
  destruct (ensureSomeWorkerIsRunning_shape env compID s)
    as (o & t_scan & t_deploy & Hscan & Hlog & Hdeploy & Hend).
  fold r in Hlog, Hend.
  apply ensure_log_shape in Hscan as (_ & Hasks & Hshape).
  assert (Hfree : free = free_workers (path_of compID) t_scan).
  { unfold free. rewrite Hlog, free_workers_app.
    by rewrite (free_workers_none _ t_deploy), app_nil_r. }
  rewrite Hlog in Hin. apply in_app_or in Hin as [Hin | Hin].
  { rewrite Forall_forall in Hasks. apply list_elem_of_In, Hasks in Hin.
    discriminate. }
  destruct o as [[|]|e|]; [| | |contradiction].
  - destruct Hend as (-> & _). destruct Hin.
  - rewrite Hfree. destruct (Hend w res Hin) as [Hsome Hnone]. split.
    + intros Hne. destruct (Hsome Hne) as (k & Hw & Hd).
      exists t_scan, k. by rewrite Hlog, Hd.
    + intros He. destruct (Hnone He) as (k & Hw & Hd).
      exists t_scan, k. by rewrite Hlog, Hd.
  - destruct Hend as (-> & _). destruct Hin.
Qed.

(* ================================================================== *)
(** * The fleet of a pass *)
(* ================================================================== *)

Section Frames.

Context {W : Type} (env : Env W).

Lemma frame_activateMissing id (s : ActionManager * W) :
  frames unit s (activateMissing env id s).
Proof.
  revert s. refine (holds_activateMissing env (@frames W) _ _ _ _ _ _ _ id).
  - intros; apply frame_refl.
  - intros; apply frame_refl.
  - intros A B m k s. apply frame_bind.
  - intros w s. apply frame_call.
  - intros n s. apply frame_Intn.
  - intros s. apply frame_refl.
  - intros id' w s. apply frame_Activate.
Qed.

Lemma frame_ensureSomeWorkerIsRunning id (s : ActionManager * W) :
  frames unit s (ensureSomeWorkerIsRunning env id s).
Proof.
  revert s.
  refine (holds_ensureSomeWorkerIsRunning env (@frames W) _ _ _ _ _ _ _ _ id).
  - intros; apply frame_refl.
  - intros; apply frame_refl.
  - intros A B m k s. apply frame_bind.
  - intros w s. apply frame_call.
  - intros id' w s. apply frame_call.
  - intros n s. apply frame_Intn.
  - intros s. apply frame_refl.
  - intros id' w s. apply frame_Activate.
Qed.

Lemma frame_deactivateNonactive w active (s : ActionManager * W) :
  frames unit s (deactivateNonactive env w active s).
Proof.
  revert s. refine (holds_deactivateNonactive env (@frames W) _ _ _ _ w active).
  - intros; apply frame_refl.
  - intros A B m k s. apply frame_bind.
  - intros w' s. apply frame_call.
  - intros id' w' s. apply frame_call.
Qed.

Lemma frame_deactivateIfHashDiffers w compID (s : ActionManager * W) :
  frames unit s (deactivateIfHashDiffers env w compID s).
Proof.
  revert s.
  refine (holds_deactivateIfHashDiffers env (@frames W) _ _ _ _ w compID).
  - intros; apply frame_refl.
  - intros A B m k s. apply frame_bind.
  - intros w' s. apply frame_call.
  - intros id' w' s. apply frame_call.
Qed.

End Frames.

Section Within.

Context {W : Type} (env : Env W).

Lemma aims_In (ws : list V9Worker) w :
  In w ws -> bool_decide (w ∈ ws) = true.
Proof. intros H. by apply bool_decide_eq_true, list_elem_of_In. Qed.

Lemma aims_of_Status ws (t : list Event) :
  Forall (fun ev => is_Status ev = true) t ->
  (forall w, In w (queried t) -> In w ws) ->
  Forall (fun ev => aims_at ws ev = true) t.
Proof.
  induction 1 as [|ev t Hev _ IH]; intros Hq; [constructor|].
  destruct ev as [|w r| | | |]; try discriminate. simpl in Hq.
  constructor; [apply aims_In, Hq; by left|]. apply IH. auto.
Qed.

Lemma prefix_In (ws' ws : list V9Worker) w :
  ws' `prefix_of` ws -> In w ws' -> In w ws.
Proof. intros [k ->] Hin. apply in_or_app. by left. Qed.

Lemma aims_activateMissing id (s : ActionManager * W) :
  logs_only (aims_at (workers s.1)) unit s (activateMissing env id s).
Proof.
  unfold activateMissing.
  apply logs_only_bind; [constructor|]. intros ws s1 t1 Hget.
  injection Hget as <- <- <-.
  apply logs_only_bind.
  { destruct (activateMissing_loop env (path_of id) (workers s.1) s)
      as [[o s'] t] eqn:Hloop.
    pose proof (logs_only_activateMissing_loop env (path_of id) (workers s.1) s)
      as Hasks.
    rewrite Hloop in Hasks. apply activateMissing_loop_scan in Hloop.
    apply scan_log_shape in Hloop as [Hprefix _].
    apply aims_of_Status; [exact Hasks|]. intros w. by apply prefix_In. }
  intros running s2 t2 _. destruct running; [constructor|].
  apply logs_only_bind; [by apply logs_only_Intn|]. intros k s3 t3 _.
  apply logs_only_bind; [apply logs_only_index|]. intros w s4 t4 Hidx.
  apply index_inv in Hidx as (_ & _ & [(a & Hlook & [= <-]) | (_ & [=])]).
  apply logs_only_bind.
  { apply logs_only_call. intros res. simpl. apply aims_In.
    apply list_elem_of_In. by eapply list_elem_of_lookup_2. }
  intros h s5 t5 _. destruct (String.eqb _ _); constructor.
Qed.

Lemma free_workers_queried p t w :
  In w (free_workers p t) -> In w (queried t).
Proof.
  induction t as [|ev t IH]; simpl; [done|].
  destruct ev as [|w' [st|e]| | | |]; simpl; auto.
  destruct (negb (ContainsPath st p)); simpl; [|auto].
  intros [<- | Hin]; auto.
Qed.

Lemma aims_choose compID ws l (s : ActionManager * W) :
  (forall w, In w l -> In w ws) ->
  logs_only (aims_at ws) _ s (choose env compID ws l s).
Proof.
  intros Hl. unfold choose. destruct (0 <? length l).
  - apply logs_only_bind; [by apply logs_only_Intn|].
    intros; apply logs_only_index.
  - apply logs_only_bind; [by apply logs_only_Intn|]. intros k s1 t1 _.
    apply logs_only_bind; [apply logs_only_index|]. intros w s2 t2 Hidx.
    apply index_inv in Hidx as (_ & _ & [(a & Hlook & [= <-]) | (_ & [=])]).
    apply logs_only_bind; [|constructor].
    apply logs_only_call. intros res. simpl. apply aims_In.
    apply list_elem_of_In. by eapply list_elem_of_lookup_2.
Qed.

Lemma aims_ensureSomeWorkerIsRunning id (s : ActionManager * W) :
  logs_only (aims_at (workers s.1)) unit s (ensureSomeWorkerIsRunning env id s).
Proof.
  unfold ensureSomeWorkerIsRunning.
  apply logs_only_bind; [constructor|]. intros ws s1 t1 Hget.
  injection Hget as <- <- <-.
  destruct (ensureSomeWorkerIsRunning_loop env id (path_of id) (workers s.1) [] s)
    as [[o s'] t] eqn:Hloop.
  pose proof (logs_only_ensureSomeWorkerIsRunning_loop env id (path_of id)
                (workers s.1) [] s) as Hasks.
  rewrite Hloop in Hasks. unfold logs_only, log in Hasks. simpl in Hasks.
  pose proof Hloop as Hscan.
  apply ensure_loop_scan in Hscan as [Hscan Hl].
  apply ensure_log_shape in Hscan as (Hprefix & _ & _).
  apply logs_only_bind.
  { rewrite Hloop. apply aims_of_Status; [exact Hasks|].
    intros w. by apply prefix_In. }
  intros scan s2 t2 Hrun. rewrite Hloop in Hrun. injection Hrun as -> <- <-.
  destruct scan as [notRunning|]; [|constructor].
  specialize (Hl notRunning eq_refl). simpl in Hl.
  assert (Hsub : forall w, In w notRunning -> In w (workers s.1)).
  { intros w Hin. rewrite Hl in Hin.
    eapply prefix_In; [exact Hprefix|]. by eapply free_workers_queried. }
  change (logs_only (aims_at (workers s.1)) unit s'
            (bind (choose env id (workers s.1) notRunning) (fun workerToDeployTo =>
               bind (Activate env id workerToDeployTo) (fun deployedHash =>
                 if String.eqb (id_Hash id) headHashSentinel
                 then store_pathHashes (path_of id) deployedHash
                 else ret tt)) s')).
  apply logs_only_bind; [by apply aims_choose|]. intros w s3 t3 Hch.
  apply choose_returns in Hch as [(_ & k & Hin & _) | (_ & k & Hin & _)];
    apply list_elem_of_lookup_2, list_elem_of_In in Hin.
  - apply logs_only_bind.
    { apply logs_only_call. intros res. simpl. apply aims_In. auto. }
    intros h s5 t5 _. destruct (String.eqb _ _); constructor.
  - apply logs_only_bind.
    { apply logs_only_call. intros res. simpl. by apply aims_In. }
    intros h s5 t5 _. destruct (String.eqb _ _); constructor.
Qed.

Lemma aims_deactivateNonactive ws w active (s : ActionManager * W) :
  In w ws ->
  logs_only (aims_at ws) unit s (deactivateNonactive env w active s).
Proof.
  intros Hw. unfold deactivateNonactive.
  apply logs_only_bind.
  { apply logs_only_call. intros res. simpl. by apply aims_In. }
  intros st s1 t1 _. apply logs_only_for_range_In. intros id s2 _.
  apply logs_only_call. intros res. simpl. by apply aims_In.
Qed.

Lemma aims_deactivateIfHashDiffers ws w compID (s : ActionManager * W) :
  In w ws ->
  logs_only (aims_at ws) unit s (deactivateIfHashDiffers env w compID s).
Proof.
  intros Hw. unfold deactivateIfHashDiffers.
  apply logs_only_bind.
  { apply logs_only_call. intros res. simpl. by apply aims_In. }
  intros st s1 t1 _. apply logs_only_for_range_In. intros c s2 _.
  match goal with |- context [if ?b then _ else _] => destruct b end;
    [|constructor].
  apply logs_only_call. intros res. simpl. by apply aims_In.
Qed.

Lemma within_of ws A (s : ActionManager * W)
    (r : Outcome A * (ActionManager * W) * list Event) :
  frames A s r ->
  (workers s.1 = ws -> logs_only (aims_at ws) A s r) ->
  within ws A s r.
Proof.
  intros [(Hw & _) _] Hlogs Hws. split; [congruence | by apply Hlogs].
Qed.

Lemma within_bind ws A B (m : M A) (k : A -> M B) (s : ActionManager * W) :
  within ws A s (m s) ->
  (workers s.1 = ws ->
   forall a s1 t1, m s = (Return a, s1, t1) -> within ws B s1 (k a s1)) ->
  within ws B s (bind m k s).
Proof.
  unfold within, bind, final, log. intros Hm Hk Hws.
  specialize (Hm Hws). specialize (Hk Hws).
  destruct (m s) as [[[a|e|] s1] t1]; simpl in *; auto.
  destruct Hm as [Hw1 Ht1]. specialize (Hk a s1 t1 eq_refl Hw1).
  destruct (k a s1) as [[o s2] t2]; simpl in *.
  destruct Hk as [Hw2 Ht2]. split; [exact Hw2 | by apply Forall_app].
Qed.

Lemma within_for_range ws {X} (xs : list X) (body : X -> M unit)
    (s : ActionManager * W) :
  (forall x s, In x xs -> within ws unit s (body x s)) ->
  within ws unit s (for_range xs body s).
Proof.
  revert s. induction xs as [|x xs IH]; intros s Hbody; simpl.
  - intros Hws. split; [exact Hws | constructor].
  - apply within_bind; [apply Hbody; by left|].
    intros _ _ s1 _ _. apply IH. intros y s' Hy. apply Hbody. by right.
Qed.

Lemma within_quiet ws A (a : A) (t : list Event) (s : ActionManager * W) :
  Forall (fun ev => aims_at ws ev = true) t ->
  within ws A s (Return a, s, t).
Proof. intros Ht Hws. split; [exact Hws | exact Ht]. Qed.

Lemma within_HandleDirtyState (s : ActionManager * W) :
  within (workers s.1) unit s (HandleDirtyState env s).
Proof.
  set (ws := workers s.1). unfold HandleDirtyState.
  apply within_bind.
  { apply within_of; [apply frame_call|]. intros _. by apply logs_only_call. }
  intros _ active s1 _ _. apply within_bind.
  { unfold phase1. apply within_bind; [by apply within_quiet|].
    intros Hws ws' s2 t2 Hget. injection Hget as <- <- <-.
    apply within_for_range. intros w s3 Hw.
    apply within_of; [apply frame_deactivateNonactive|]. intros _.
    apply aims_deactivateNonactive. by rewrite <- Hws. }
  intros _ _ s2 _ _. apply within_bind.
  { unfold phase2. apply within_for_range. intros p s3 _.
    apply within_bind; [by apply within_quiet; repeat constructor|].
    intros _ entry s4 _ _.
    apply within_of; [apply frame_activateMissing|]. intros <-.
    apply aims_activateMissing. }
  intros _ _ s3 _ _. apply within_bind.
  { unfold phase3. apply within_for_range. intros p s4 _.
    apply within_bind; [by apply within_quiet; repeat constructor|].
    intros _ [h|] s5 _ _; [|by apply within_quiet].
    apply within_of; [apply frame_ensureSomeWorkerIsRunning|]. intros <-.
    apply aims_ensureSomeWorkerIsRunning. }
  intros _ _ s4 _ _.
  unfold phase4. apply within_for_range. intros p s5 _.
  apply within_bind; [by apply within_quiet; repeat constructor|].
  intros _ [h|] s6 _ _; [|by apply within_quiet].
  apply within_bind; [by apply within_quiet|].
  intros Hws ws' s7 t7 Hget. injection Hget as <- <- <-.
  apply within_for_range. intros w s8 Hw.
  apply within_of; [apply frame_deactivateIfHashDiffers|]. intros _.
  apply aims_deactivateIfHashDiffers. by rewrite <- Hws.
Qed.

End Within.

(** X14.  Every [Status], [Activate] and [Deactivate] of a pass goes to a
    worker of the manager's fleet. *)
Theorem pass_calls_only_the_fleet :
  forall (W : Type) (env : Env W) (s : ActionManager * W),
    Forall (fun ev =>
              match ev with
              | EvStatus w _ | EvActivate _ w _ | EvDeactivate _ w _ =>
                  In w (workers s.1)
              | _ => True
              end)
      (log (HandleDirtyState env s)).
Proof.
  intros W env s.
  destruct (within_HandleDirtyState env s eq_refl) as [_ Hall].
  eapply Forall_impl; [exact Hall|]. intros ev Hev.
  destruct ev; simpl in Hev; try exact I;
    apply bool_decide_eq_true in Hev; by apply list_elem_of_In.
Qed.

Section NoPanic.

Context {W : Type} (env : Env W).
Hypothesis Hrand : conforming env.

(** A draw does not panic when asked for a number below a positive one,
    and the number drawn is in range. *)
Lemma draw_returns {B} (n : nat) (k : nat -> M B) (s : ActionManager * W) s' t :
  0 < n ->
  bind (Intn env n) k s = (Panic, s', t) ->
  exists m s1 t1, m < n /\ k m s1 = (Panic, s', t1).
Proof.
  intros Hn Hrun.
  bind_panics Hrun as m s1 t1 t2 HI Hk.
  - apply Intn_inv in HI as [(_ & [=] & _) | (k' & w' & _ & Hr & [= <-] & -> & ->)].
    exists m, (s.1, w'), t2. split; [|exact Hk].
    pose proof (Hrand n s.2 Hn) as H. by rewrite Hr in H.
  - apply Intn_inv in HI as [(Hz & _) | (? & ? & _ & _ & [=] & _)]. lia.
Qed.

Lemma index_returns {A B} (l : list A) (m : nat) (k : A -> M B)
    (s : ActionManager * W) s' t :
  m < length l ->
  bind (index l m) k s = (Panic, s', t) ->
  exists a, k a s = (Panic, s', t).
Proof.
  intros Hlt Hrun.
  bind_panics Hrun as a s1 t1 t2 Hidx Hk.
  - apply index_inv in Hidx as (-> & -> & _). eauto.
  - apply index_inv in Hidx as (_ & _ & [(? & _ & [=]) | (Hnone & _)]).
    apply lookup_ge_None in Hnone. lia.
Qed.

Lemma length_pos {A} (l : list A) : l <> [] -> 0 < length l.
Proof. destruct l; [done | simpl; lia]. Qed.

Lemma Activate_then_store_returns id w (s : ActionManager * W) s' t :
  bind (Activate env id w) (fun h =>
    if String.eqb (id_Hash id) headHashSentinel
    then store_pathHashes (path_of id) h
    else ret tt) s <> (Panic, s', t).
Proof.
  intros Hrun. bind_panics Hrun as h s1 t1 t2 Hm Hk.
  - destruct (String.eqb _ _); discriminate.
  - apply call_inv in Hm as [(? & ? & _ & [=] & _) | (? & ? & _ & [=] & _)].
Qed.

Lemma activateMissing_returns id (s : ActionManager * W) :
  workers s.1 <> [] -> outcome (activateMissing env id s) <> Panic.
Proof.
  intros Hne.
  destruct (activateMissing env id s) as [[o s'] t] eqn:Hrun.
  unfold outcome. simpl. intros ->. unfold activateMissing in Hrun.
  bind_panics Hrun as ws s1 t1 t2 Hm Hk; [|discriminate].
  injection Hm as <- <- <-.
  bind_panics Hk as running s2 t3 t4 Hloop Hk.
  - destruct running; [discriminate|].
    apply draw_returns in Hk as (m & s3 & t5 & Hlt & Hk); [|by apply length_pos].
    apply index_returns in Hk as (w & Hk); [|exact Hlt].
    by apply Activate_then_store_returns in Hk.
  - apply activateMissing_loop_scan, scan_log_shape in Hloop as [_ []].
Qed.

Lemma bind_assoc {A B C} (m : M A) (f : A -> M B) (g : B -> M C)
    (s : ActionManager * W) :
  bind (bind m f) g s = bind m (fun a => bind (f a) g) s.
Proof.
  unfold bind. destruct (m s) as [[[a|e|] s1] t1]; try reflexivity.
  destruct (f a s1) as [[[b|e|] s2] t2]; try reflexivity.
  destruct (g b s2) as [[o s3] t3]. by rewrite app_assoc.
Qed.

Lemma ensureSomeWorkerIsRunning_returns id (s : ActionManager * W) :
  workers s.1 <> [] -> outcome (ensureSomeWorkerIsRunning env id s) <> Panic.
Proof.
  intros Hne.
  destruct (ensureSomeWorkerIsRunning env id s) as [[o s'] t] eqn:Hrun.
  unfold outcome. simpl. intros ->. unfold ensureSomeWorkerIsRunning in Hrun.
  bind_panics Hrun as ws s1 t1 t2 Hm Hk; [|discriminate].
  injection Hm as <- <- <-.
  bind_panics Hk as scan s2 t3 t4 Hloop Hk.
  - destruct scan as [notRunning|]; [|discriminate].
    cbv beta iota in Hk.
    destruct notRunning as [|w0 l0];
      [change (0 <? length (@nil V9Worker)) with false in Hk
      |change (0 <? length (w0 :: l0)) with true in Hk];
      cbv iota in Hk; rewrite bind_assoc in Hk.
    + apply draw_returns in Hk as (m & s3 & t5 & Hlt & Hk);
        [|by apply length_pos].
      rewrite bind_assoc in Hk.
      apply index_returns in Hk as (w & Hk); [|exact Hlt].
      rewrite bind_assoc in Hk.
      bind_panics Hk as u s4 t6 t7 Hde Hk.
      * bind_panics Hk as w' s5 t8 t9 Hret Hk; [|discriminate].
        injection Hret as <- <- <-.
        by apply Activate_then_store_returns in Hk.
      * apply call_inv in Hde as [(? & ? & _ & [=] & _) | (? & ? & _ & [=] & _)].
    + apply draw_returns in Hk as (m & s3 & t5 & Hlt & Hk); [|simpl; lia].
      apply index_returns in Hk as (w & Hk); [|exact Hlt].
      by apply Activate_then_store_returns in Hk.
  - apply ensure_loop_scan in Hloop as [Hscan _].
    apply ensure_log_shape in Hscan as (_ & _ & []).
Qed.

Lemma steady_of A (s : ActionManager * W)
    (r : Outcome A * (ActionManager * W) * list Event) :
  frames A s r -> (workers s.1 <> [] -> outcome r <> Panic) -> steady A s r.
Proof. intros [(Hw & _) _] Hp. by split. Qed.

Lemma steady_bind A B (m : M A) (k : A -> M B) (s : ActionManager * W) :
  steady A s (m s) ->
  (forall a s1 t1, m s = (Return a, s1, t1) -> steady B s1 (k a s1)) ->
  steady B s (bind m k s).
Proof.
  unfold steady, bind, final, outcome. intros [Hw Hp] Hk.
  destruct (m s) as [[[a|e|] s1] t1]; simpl in *.
  2:{ split; [exact Hw | discriminate]. }
  2:{ split; [exact Hw|]. intros Hne. by destruct (Hp Hne). }
  destruct (Hk a s1 t1 eq_refl) as [Hw' Hp'].
  destruct (k a s1) as [[o s2] t2]; simpl in *.
  split; [congruence|]. intros Hne. apply Hp'. congruence.
Qed.

Lemma steady_call A (f : W -> Result A * W) (ev : Result A -> Event)
    (s : ActionManager * W) :
  steady A s (call f ev s).
Proof.
  unfold steady, call, final, outcome.
  by destruct (f s.2) as [[a|e] w'].
Qed.

Lemma steady_ret A (a : A) (t : list Event) (s : ActionManager * W) :
  steady A s (Return a, s, t).
Proof. by split. Qed.

Lemma steady_for_range {X} (xs : list X) (body : X -> M unit)
    (s : ActionManager * W) :
  (forall x s, steady unit s (body x s)) ->
  steady unit s (for_range xs body s).
Proof.
  intros Hbody. revert s. induction xs as [|x xs IH]; intros s; simpl.
  - apply steady_ret.
  - apply steady_bind; [apply Hbody|]. intros _ s1 _ _. apply IH.
Qed.

Lemma steady_HandleDirtyState (s : ActionManager * W) :
  steady unit s (HandleDirtyState env s).
Proof.
  unfold HandleDirtyState.
  apply steady_bind; [apply steady_call|]. intros active s1 _ _.
  apply steady_bind.
  { revert s1. refine (holds_phase1 env (@steady W) _ _ _ _ _ active).
    - intros A a s'. apply steady_ret.
    - intros A B m k s'. apply steady_bind.
    - intros w s'. apply steady_call.
    - intros id w s'. apply steady_call.
    - intros s'. apply steady_ret. }
  intros _ s2 _ _. apply steady_bind.
  { unfold phase2. apply steady_for_range. intros p s3.
    apply steady_bind; [apply steady_ret|]. intros entry s4 _ _.
    apply steady_of; [apply frame_activateMissing|].
    apply activateMissing_returns. }
  intros _ s3 _ _. apply steady_bind.
  { unfold phase3. apply steady_for_range. intros p s4.
    apply steady_bind; [apply steady_ret|]. intros [h|] s5 _ _;
      [|apply steady_ret].
    apply steady_of; [apply frame_ensureSomeWorkerIsRunning|].
    apply ensureSomeWorkerIsRunning_returns. }
  intros _ s4 _ _.
  revert s4. refine (holds_phase4 env (@steady W) _ _ _ _ _ _ active).
  - intros A a s'. apply steady_ret.
  - intros A B m k s'. apply steady_bind.
  - intros w s'. apply steady_call.
  - intros id w s'. apply steady_call.
  - intros s'. apply steady_ret.
  - intros p s'. apply steady_ret.
Qed.

End NoPanic.

(** X15.  With a fleet that is not empty and a [rand.Intn] that answers
    within its range, a pass does not panic, whatever the other
    collaborators do: it returns [nil] or an error. *)
Theorem pass_does_not_panic_on_a_fleet :
  forall (W : Type) (env : Env W) (s : ActionManager * W),
    conforming env ->
    workers s.1 <> [] ->
    outcome (HandleDirtyState env s) <> Panic.
Proof.
  intros W env s Hrand Hne.
  exact (proj2 (steady_HandleDirtyState env Hrand s) Hne).
Qed.

(* ================================================================== *)
(** * What the deactivating steps stop *)
(* ================================================================== *)

Section Stopping.

Context {W : Type} (env : Env W).

(** A loop that deactivates, on [w], the elements that pass a test. *)
Lemma for_range_Deactivate {X} (xs : list X) (f : X -> bool)
    (g : X -> ComponentID) w (s : ActionManager * W) o s' t :
  for_range xs (fun x => if f x then Deactivate env (g x) w else ret tt) s
  = (o, s', t) ->
  Forall (fun ev => is_Deactivate ev = true) t
  /\ s'.1 = s.1
  /\ deactivations t `prefix_of` stop_on w (map g (List.filter f xs))
  /\ match o with
     | Return _ =>
         deactivations t = stop_on w (map g (List.filter f xs))
         /\ Forall succeeded t
     | Fail e => exists pre id, t = pre ++ [EvDeactivate id w (Err e)]
     | Panic => False
     end.
Proof.
  revert s o s' t. induction xs as [|x xs IH]; intros s o s' t Hrun;
    simpl in Hrun.
  - injection Hrun as <- <- <-.
    split; [constructor|]. split; [done|]. split; [done|].
    split; [done | constructor].
  - simpl. destruct (f x) eqn:Hf.
    + bind_cases Hrun as u s1 t1 t2 Hm Hk.
      * apply call_inv in Hm
          as [(u' & w' & _ & _ & -> & ->) | (? & ? & _ & [=] & _)].
        apply IH in Hk as (Hd & Hs & Hp & Ho). simpl.
        split; [by constructor|]. split; [exact Hs|].
        split; [by apply prefix_cons|].
        destruct o as [[]|e'|]; [| |done].
        -- destruct Ho as [-> Hok]. split; [done | by constructor].
        -- destruct Ho as (pre & id & ->).
           exists (EvDeactivate (g x) w (Ok u') :: pre), id. done.
      * apply call_inv in Hm
          as [(? & ? & _ & [=] & _) | (e' & w' & _ & [= <-] & -> & ->)].
        split; [by repeat constructor|]. split; [done|]. simpl.
        split; [apply prefix_cons, prefix_nil|].
        exists [], (g x). done.
      * apply call_inv in Hm
          as [(? & ? & _ & [=] & _) | (? & ? & _ & [=] & _)].
    + bind_cases Hrun as u s1 t1 t2 Hm Hk; [|discriminate Hm..].
      injection Hm as <- <- <-. simpl. by apply IH in Hk.
Qed.

Lemma filter_all {X} (xs : list X) : List.filter (fun _ => true) xs = xs.
Proof. induction xs as [|x xs IH]; simpl; by rewrite ?IH. Qed.



End Stopping.



Section NothingDesired.

Context {W : Type} (env : Env W).

Lemma stopped_In (t : list Event) id w :
  Forall (fun ev => is_Deactivate ev = true) t ->
  Forall succeeded t ->
  In (id, w) (deactivations t) ->
  In (EvDeactivate id w (Ok tt)) t.
Proof.
  induction 1 as [|ev t Hev _ IH]; intros Hok Hin; [done|].
  inversion Hok as [|? ? Hs Hok']; subst.
  destruct ev as [| | |id' w' [[]|e]| |]; try discriminate.
  simpl in Hin. destruct Hin as [[= -> ->] | Hin]; [by left|].
  right. by apply IH.
Qed.

(** A first phase that returned has asked every worker, and has told
    each to stop everything it reported that is not desired. *)
Lemma phase1_loop_complete active ws (s : ActionManager * W) s' t :
  for_range ws (fun w => deactivateNonactive env w active) s
  = (Return tt, s', t) ->
  queried t = ws
  /\ forall w status id,
      In (EvStatus w (Ok status)) t ->
      In id (FindNonactive status active) ->
      In (EvDeactivate id w (Ok tt)) t.
Proof.
  revert s s' t. induction ws as [|w ws IH]; intros s s' t Hrun; simpl in Hrun.
  - injection Hrun as <- <-. split; [done|]. by intros.
  - bind_returns Hrun as u s1 t1 t2 Hm Hk.
    apply IH in Hk as [Hq Hall].
    unfold deactivateNonactive in Hm.
    bind_returns Hm as status s2 t3 t4 Hst Hm.
    apply call_inv in Hst
      as [(st & w' & _ & [= <-] & -> & ->) | (? & ? & _ & [=] & _)].
    change (for_range (FindNonactive status active)
              (fun x => if (fun _ => true) x
                        then Deactivate env ((fun id => id) x) w else ret tt)
              (s.1, w') = (Return u, s1, t4)) in Hm.
    apply for_range_Deactivate in Hm as (Hd & _ & _ & Ho & Hok).
    rewrite filter_all, map_id in Ho.
    assert (Hq4 : queried t4 = []).
    { apply queried_no_Status. eapply Forall_impl; [exact Hd|]. by intros []. }
    change (([EvStatus w (Ok status)] ++ t4) ++ t2)
      with (EvStatus w (Ok status) :: t4 ++ t2).
    split.
    + simpl. by rewrite queried_app, Hq4, Hq.
    + intros w0 status0 id Hin Hid.
      destruct Hin as [[= <- <-] | Hin].
      * right. apply in_or_app. left.
        apply stopped_In; [exact Hd | exact Hok|].
        rewrite Ho. unfold stop_on. apply in_map_iff. eauto.
      * apply in_app_or in Hin as [Hin | Hin].
        -- rewrite Forall_forall in Hd. apply list_elem_of_In, Hd in Hin.
           discriminate.
        -- right. apply in_or_app. right. by eapply Hall.
Qed.

Lemma deactivateNonactive_queried w active (s : ActionManager * W) :
  queried (log (deactivateNonactive env w active s)) = [w].
Proof.
  destruct (deactivateNonactive env w active s) as [[o s'] t] eqn:Hrun.
  unfold log. simpl. unfold deactivateNonactive in Hrun.
  assert (Hcmds : forall ids s o s' t,
            for_range ids (fun id => Deactivate env id w) s = (o, s', t) ->
            queried t = []).
  { intros ids s0 o0 s0' t0 H0.
    pose proof (logs_only_for_range_In is_Deactivate ids
                  (fun id => Deactivate env id w) s0) as Hq.
    rewrite H0 in Hq. apply queried_no_Status.
    eapply Forall_impl; [apply Hq|by intros []].
    intros id s1 _. by apply logs_only_call. }
  bind_cases Hrun as status s1 t1 t2 Hm Hk.
  - apply call_inv in Hm
      as [(st & w' & _ & _ & -> & ->) | (? & ? & _ & [=] & _)].
    apply Hcmds in Hk. simpl. by rewrite Hk.
  - by apply call_inv in Hm
      as [(? & ? & _ & [=] & _) | (e' & w' & _ & _ & -> & ->)].
  - apply call_inv in Hm as [(? & ? & _ & [=] & _) | (? & ? & _ & [=] & _)].
Qed.

Lemma phase1_loop_queried active ws (s : ActionManager * W) :
  queried (log (for_range ws (fun w => deactivateNonactive env w active) s))
  `prefix_of` ws.
Proof.
  revert s. induction ws as [|w ws IH]; intros s; simpl; [done|].
  pose proof (deactivateNonactive_queried w active s) as Hq.
  unfold bind, log in *.
  destruct (deactivateNonactive env w active s) as [[[u|e|] s1] t1];
    simpl in *.
  - specialize (IH s1).
    destruct (for_range ws _ s1) as [[o s2] t2]. simpl in *.
    rewrite queried_app, Hq. by apply prefix_cons.
  - rewrite Hq. apply prefix_cons, prefix_nil.
  - rewrite Hq. apply prefix_cons, prefix_nil.
Qed.

Lemma phase1_returns active (s : ActionManager * W) :
  outcome (phase1 env active s) <> Panic.
Proof.
  revert s.
  refine (holds_phase1 env (fun A s r => outcome r <> Panic) _ _ _ _ _ active).
  - done.
  - intros A B m k s Hm Hk. unfold bind, outcome in *.
    destruct (m s) as [[[a|e|] s1] t1]; simpl in *; [|done..].
    specialize (Hk a s1 t1 eq_refl). by destruct (k a s1) as [[o s2] t2].
  - intros w s. unfold Status, call, outcome.
    by destruct (worker_Status env w s.2) as [[a|e] w'].
  - intros id w s. unfold Deactivate, call, outcome.
    by destruct (activator_Deactivate env id w s.2) as [[a|e] w'].
  - done.
Qed.

Lemma phase1_keeps_manager active (s : ActionManager * W) :
  keeps_manager unit s (phase1 env active s).
Proof.
  revert s. refine (holds_phase1 env (@keeps_manager W) _ _ _ _ _ active).
  - reflexivity.
  - intros A B m k s. apply keeps_manager_bind.
  - intros w s. apply keeps_manager_call.
  - intros id w s. apply keeps_manager_call.
  - by intros s.
Qed.

Lemma FindNonactive_nothing_desired status c :
  In c (ActiveComponents status) -> In (ID c) (FindNonactive status []).
Proof.
  intros Hin. unfold FindNonactive. rewrite FindNonactive_loop_filter.
  apply list_elem_of_In, list_elem_of_filter.
  split; [apply not_elem_of_nil|]. apply list_elem_of_In, in_map. exact Hin.
Qed.

End NothingDesired.

(** X18.  When the desired set is empty, a pass is its first phase: after
    the read it only asks workers for their status, in fleet order, and
    deactivates; it activates nothing, does not look at the index, leaves
    the manager as it is and does not panic, even with no workers.  When
    it returns [nil] it has asked every worker, and every component that
    an answer listed was deactivated, successfully, on the worker that
    listed it. *)
Theorem nothing_desired_stops_everything :
  forall (W : Type) (env : Env W) (mgr : ActionManager) (world world1 : W),
    driver_FindActiveComponents env world = (Ok [], world1) ->
    let r := HandleDirtyState env (mgr, world) in
    exists t,
      log r = EvFindActiveComponents (Ok []) :: t
      /\ Forall (fun ev => is_Status ev || is_Deactivate ev = true) t
      /\ queried t `prefix_of` workers mgr
      /\ outcome r <> Panic
      /\ (final r).1 = mgr
      /\ (outcome r = Return tt ->
          queried t = workers mgr
          /\ forall w status c,
              In (EvStatus w (Ok status)) t ->
              In c (ActiveComponents status) ->
              In (EvDeactivate (ID c) w (Ok tt)) t).
Proof.
  intros W env mgr world world1 Hfind r.
  destruct (phase1 env [] (mgr, world1)) as [[o1 s1] t1] eqn:Hp1.
  assert (Hrest : bind (phase1 env []) (fun _ =>
                    bind (phase2 env []) (fun _ =>
                      bind (phase3 env []) (fun _ => phase4 env [])))
                    (mgr, world1) = (o1, s1, t1)).
  { unfold bind at 1. rewrite Hp1.
    destruct o1 as [[]|e|]; [|reflexivity..].
    unfold phase2, phase3, phase4, bind, ret. simpl. by rewrite app_nil_r. }
  assert (Hr : r = (o1, s1, EvFindActiveComponents (Ok []) :: t1)).
  { subst r. unfold HandleDirtyState.
    erewrite bind_Return; cycle 1.
    { unfold FindActiveComponents, call. simpl. rewrite Hfind. reflexivity. }
    by rewrite Hrest. }
  rewrite Hr. unfold outcome, final, log. simpl.
  pose proof (phase1_asks_and_stops env [] (mgr, world1)) as Hasks.
  pose proof (phase1_keeps_manager env [] (mgr, world1)) as Hmgr.
  pose proof (phase1_returns env [] (mgr, world1)) as Hret.
  rewrite Hp1 in Hasks, Hmgr, Hret.
  unfold logs_only, keeps_manager, outcome, final, log in Hasks, Hmgr, Hret.
  simpl in Hasks, Hmgr, Hret.
  unfold phase1 in Hp1.
  bind_cases Hp1 as ws s2 t2 t3 Hget Hloop; [|discriminate Hget..].
  injection Hget as <- <- <-. simpl in *.
  exists t3. split; [reflexivity|]. split; [exact Hasks|]. split.
  { pose proof (phase1_loop_queried env [] (workers mgr) (mgr, world1)) as Hq.
    by rewrite Hloop in Hq. }
  split; [exact Hret|]. split; [exact Hmgr|].
  intros ->. apply phase1_loop_complete in Hloop as [Hq Hall].
  split; [exact Hq|]. intros w status c Hin Hc.
  apply (Hall w status); [exact Hin|].
  by apply FindNonactive_nothing_desired.
Qed.

(* ================================================================== *)
(** * Phase 2: where it deploys *)
(* ================================================================== *)

Section Placement.

Context {W : Type} (env : Env W).

Lemma Activate_then_store_outcome id w (s : ActionManager * W) o s' t :
  bind (Activate env id w) (fun h =>
    if String.eqb (id_Hash id) headHashSentinel
    then store_pathHashes (path_of id) h
    else ret tt) s = (o, s', t) ->
  exists res,
    t = [EvActivate id w res]
    /\ o = match res with Ok _ => Return tt | Err e => Fail e end.
Proof.
  intros Hrun. bind_cases Hrun as h s1 t1 t2 Hm Hk.
  - apply call_inv in Hm as [(h0 & w0 & _ & [= <-] & -> & ->) | (e & w0 & _ & [=] & _)].
    exists (Ok h). destruct (String.eqb _ _); by injection Hk as <- <- <-.
  - apply call_inv in Hm as [(h0 & w0 & _ & [=] & _) | (e' & w0 & _ & [= <-] & _ & ->)].
    by exists (Err e).
  - apply call_inv in Hm as [(h0 & w0 & _ & [=] & _) | (e' & w0 & _ & [=] & _)].
Qed.

End Placement.

(** X19.  Where the Phase 2 step deploys.  When the step activates [id] on
    [w], its log is the statuses of the whole fleet, in order, then one
    [rand.Intn] over the size of the fleet, then the activation; [w] is
    the worker at the number drawn; and the step returns [nil] when the
    activation succeeded and its error when it failed. *)
Theorem activateMissing_draws_from_the_whole_fleet :
  forall (W : Type) (env : Env W) (id : ComponentID) (s : ActionManager * W)
         (w : V9Worker) (res : Result string),
    let r := activateMissing env id s in
    In (EvActivate id w res) (log r) ->
    exists scan k,
      log r = scan ++ [EvIntn (length (workers s.1)) k; EvActivate id w res]
      /\ Forall (fun ev => is_Status ev = true) scan
      /\ queried scan = workers s.1
      /\ workers s.1 !! k = Some w
      /\ outcome r = match res with Ok _ => Return tt | Err e => Fail e end.
Proof.
  intros W env id s w res r. subst r.
  destruct (activateMissing env id s) as [[o s'] t] eqn:Hrun.
  unfold log, outcome. simpl. intros Hin. unfold activateMissing in Hrun.
  bind_cases Hrun as ws s1 t1 t2 Hm Hk; [|discriminate Hm..].
  injection Hm as <- <- <-. simpl in Hin |- *.
  pose proof (logs_only_activateMissing_loop env (path_of id) (workers s.1) s)
    as Hasks.
  assert (Hquiet : forall t0 : list Event,
            Forall (fun ev => is_Status ev = true) t0 ->
            ~ In (EvActivate id w res) t0).
  { intros t0 Ht0 Hin0. rewrite Forall_forall in Ht0.
    apply list_elem_of_In, Ht0 in Hin0. discriminate. }
  bind_cases Hk as running s2 t3 t4 Hloop Hk;
    rewrite Hloop in Hasks; unfold logs_only, log in Hasks; simpl in Hasks;
    [|by apply Hquiet in Hin..].
  apply activateMissing_loop_scan, scan_log_shape in Hloop as [_ Hshape].
  destruct running.
  { injection Hk as <- <- <-. rewrite app_nil_r in Hin. by apply Hquiet in Hin. }
  destruct Hshape as [Hall _].
  apply in_app_or in Hin as [Hin | Hin]; [by apply Hquiet in Hin|].
  bind_cases Hk as k s3 t5 t6 HI Hk.
  - apply Intn_inv in HI as [(_ & [=] & _) | (k' & w' & Hn & Hr & [= <-] & -> & ->)].
    bind_cases Hk as w0 s4 t7 t8 Hidx Hk;
      apply index_inv in Hidx as (-> & -> & Hidx).
    + destruct Hidx as [(a & Hlook & [= <-]) | (_ & [=])].
      apply Activate_then_store_outcome in Hk as (res' & -> & ->).
      destruct Hin as [Hin | [Hin | []]]; [discriminate|].
      injection Hin as <- <-.
      exists t3, k. repeat split; auto.
    + destruct Hin as [Hin | []]. discriminate.
    + destruct Hin as [Hin | []]. discriminate.
  - apply Intn_inv in HI as [(_ & [=] & _) | (k' & w' & _ & _ & [=] & _)].
  - apply Intn_inv in HI as [(_ & _ & _ & ->) | (k' & w' & _ & _ & [=] & _)].
    destruct Hin.
Qed.

(* ================================================================== *)
(** * The statuses a pass asks for *)
(* ================================================================== *)

Section Polls.

Context {W : Type} (env : Env W).

Lemma prefix_le (ws' ws : list V9Worker) :
  ws' `prefix_of` ws -> length ws' <= length ws.
Proof. intros [k ->]. rewrite length_app. lia. Qed.

Lemma activateMissing_polls id (s : ActionManager * W) :
  length (queried (log (activateMissing env id s))) <= length (workers s.1).
Proof.
  destruct (activateMissing_shape env id s)
    as (o & t_scan & t_place & Hscan & Hlog & _ & Hplace & _).
  apply scan_log_shape in Hscan as [Hprefix _].
  rewrite Hlog, queried_app, (queried_no_Status t_place Hplace), app_nil_r.
  by apply prefix_le.
Qed.

Lemma ensureSomeWorkerIsRunning_polls id (s : ActionManager * W) :
  length (queried (log (ensureSomeWorkerIsRunning env id s)))
  <= length (workers s.1).
Proof.
  destruct (ensureSomeWorkerIsRunning_shape env id s)
    as (o & t_scan & t_deploy & Hscan & Hlog & Hdeploy & _).
  apply ensure_log_shape in Hscan as (Hprefix & _ & _).
  rewrite Hlog, queried_app, (queried_no_Status t_deploy Hdeploy), app_nil_r.
  by apply prefix_le.
Qed.

Lemma deactivateIfHashDiffers_queried w compID (s : ActionManager * W) :
  queried (log (deactivateIfHashDiffers env w compID s)) = [w].
Proof.
  destruct (deactivateIfHashDiffers env w compID s) as [[o s'] t] eqn:Hrun.
  unfold log. simpl. unfold deactivateIfHashDiffers in Hrun.
  bind_cases Hrun as status s1 t1 t2 Hm Hk.
  - apply call_inv in Hm
      as [(st & w' & _ & _ & -> & ->) | (? & ? & _ & [=] & _)].
    change (for_range (ActiveComponents status)
              (fun x => if hash_differs compID x
                        then Deactivate env (ID x) w else ret tt)
              (s.1, w') = (o, s', t2)) in Hk.
    apply for_range_Deactivate in Hk as (Hd & _).
    simpl. rewrite queried_no_Status; [done|].
    eapply Forall_impl; [exact Hd|]. by intros [].
  - by apply call_inv in Hm
      as [(? & ? & _ & [=] & _) | (e' & w' & _ & _ & -> & ->)].
  - apply call_inv in Hm as [(? & ? & _ & [=] & _) | (? & ? & _ & [=] & _)].
Qed.

Lemma polls_of ws n A (s : ActionManager * W)
    (r : Outcome A * (ActionManager * W) * list Event) :
  frames A s r ->
  (workers s.1 = ws -> length (queried (log r)) <= n) ->
  polls ws n A s r.
Proof. intros [(Hw & _) _] Hn Hws. split; [congruence | by apply Hn]. Qed.

Lemma polls_bind ws n1 n2 A B (m : M A) (k : A -> M B) (s : ActionManager * W) :
  polls ws n1 A s (m s) ->
  (forall a s1 t1, m s = (Return a, s1, t1) -> polls ws n2 B s1 (k a s1)) ->
  polls ws (n1 + n2) B s (bind m k s).
Proof.
  unfold polls, bind, final, log. intros Hm Hk Hws. specialize (Hm Hws).
  destruct (m s) as [[[a|e|] s1] t1]; simpl in *;
    [|split; [tauto | lia]..].
  destruct Hm as [Hw1 Ht1]. specialize (Hk a s1 t1 eq_refl Hw1).
  destruct (k a s1) as [[o s2] t2]; simpl in *.
  destruct Hk as [Hw2 Ht2]. split; [exact Hw2|].
  rewrite queried_app, length_app. lia.
Qed.

Lemma polls_for_range ws n {X} (xs : list X) (body : X -> M unit)
    (s : ActionManager * W) :
  (forall x s, polls ws n unit s (body x s)) ->
  polls ws (n * length xs) unit s (for_range xs body s).
Proof.
  intros Hbody. revert s. induction xs as [|x xs IH]; intros s; simpl.
  - intros Hws. split; [exact Hws | simpl; lia].
  - replace (n * S (length xs)) with (n + n * length xs) by lia.
    apply polls_bind; [apply Hbody|]. intros _ s1 _ _. apply IH.
Qed.

Lemma polls_quiet ws A (a : A) (t : list Event) (s : ActionManager * W) :
  queried t = [] -> polls ws 0 A s (Return a, s, t).
Proof. intros Ht Hws. split; [exact Hws|]. unfold log. simpl. by rewrite Ht. Qed.

Lemma polls_lookup_then ws n A p (k : option string -> M A)
    (s : ActionManager * W) :
  (forall entry s, polls ws n A s (k entry s)) ->
  polls ws n A s (bind (lookup_pathHashes p) k s).
Proof.
  intros Hk. change n with (0 + n). apply polls_bind.
  - by apply polls_quiet.
  - intros entry s1 _ _. apply Hk.
Qed.

Lemma polls_phases ws active (s : ActionManager * W) :
  polls ws (length ws + (length ws * length active
                         + (length ws * length active
                            + length ws * length active))) unit s
    (bind (phase1 env active) (fun _ =>
       bind (phase2 env active) (fun _ =>
         bind (phase3 env active) (fun _ => phase4 env active))) s).
Proof.
  apply polls_bind.
  { unfold phase1. intros Hws.
    assert (Hloop : polls ws (1 * length ws) unit s
              (for_range ws (fun w => deactivateNonactive env w active) s)).
    { apply polls_for_range. intros w s1.
      apply polls_of; [apply frame_deactivateNonactive|]. intros _.
      by rewrite deactivateNonactive_queried. }
    destruct (Hloop Hws) as [Hw Hq]. unfold bind, get_workers.
    rewrite Hws. destruct (for_range ws _ s) as [[o s1] t1]. simpl in *.
    split; [exact Hw | lia]. }
  intros _ s1 _ _. apply polls_bind.
  { unfold phase2. apply polls_for_range. intros p s2.
    apply polls_lookup_then. intros entry s3.
    apply polls_of; [apply frame_activateMissing|]. intros <-.
    apply activateMissing_polls. }
  intros _ s2 _ _. apply polls_bind.
  { unfold phase3. apply polls_for_range. intros p s3.
    apply polls_lookup_then. intros [h|] s4.
    - apply polls_of; [apply frame_ensureSomeWorkerIsRunning|]. intros <-.
      apply ensureSomeWorkerIsRunning_polls.
    - intros Hws. split; [exact Hws | simpl; lia]. }
  intros _ s3 _ _.
  unfold phase4. apply polls_for_range. intros p s4.
  apply polls_lookup_then. intros [h|] s5;
    [|intros Hws; split; [exact Hws | simpl; lia]].
  intros Hws.
  assert (Hloop : polls ws (1 * length ws) unit s5
            (for_range ws (fun w =>
               deactivateIfHashDiffers env w (componentID p h)) s5)).
  { apply polls_for_range. intros w s6.
    apply polls_of; [apply frame_deactivateIfHashDiffers|]. intros _.
    by rewrite deactivateIfHashDiffers_queried. }
  destruct (Hloop Hws) as [Hw Hq]. unfold bind, get_workers.
  rewrite Hws. destruct (for_range ws _ s5) as [[o s6] t6]. simpl in *.
  split; [exact Hw | lia].
Qed.

End Polls.

(** X20.  A pass asks for at most [(1 + 3 * d) * n] statuses, for [d]
    paths in the desired set as read and [n] workers: Phase 1 asks each
    worker once, and each of the three other phases asks each worker at
    most once for each desired path. *)
Theorem pass_asks_a_bounded_number_of_statuses :
  forall (W : Type) (env : Env W) (s : ActionManager * W)
         (active : list ComponentPath) (world' : W),
    driver_FindActiveComponents env s.2 = (Ok active, world') ->
    length (queried (log (HandleDirtyState env s)))
    <= (1 + 3 * length active) * length (workers s.1).
Proof.
  intros W env s active world' Hfind.
  destruct (polls_phases env (workers s.1) active (s.1, world') eq_refl)
    as [_ Hn].
  unfold HandleDirtyState.
  erewrite bind_Return; cycle 1.
  { unfold FindActiveComponents, call. rewrite Hfind. reflexivity. }
  unfold log at 1. simpl. simpl in Hn. lia.
Qed.

(* ================================================================== *)
(** * Runs on concrete fleets *)
(* ================================================================== *)

Module Scenarios.
Import Fleet.
#[local] Open Scope string_scope.

(** A fleet at rest answers every status call from what it runs. *)
Lemma fleet_Status_reachable (f : Fleet) w :
  unreachable f = [] -> fleet_Status w f = (Ok (status_of (runs f w)), f).
Proof.
  intros Hnone. unfold fleet_Status. rewrite Hnone.
  rewrite bool_decide_eq_false_2; [reflexivity | apply not_elem_of_nil].
Qed.

(** ** The scenarios of the specification *)

(** Fresh deploy: nothing runs, nothing is known; one activation under the
    sentinel, and the index learns the resolved hash. *)
Example fresh_deploy :
  let r := HandleDirtyState fleetEnv
             (manager [W1; W2] [], fleet_of [alice_svc] [(W1, []); (W2, [])]) in
  outcome r = Return tt
  /\ commands (log r) = [EvActivate (alice_svc_at "HEAD") W1 (Ok "c0ffee")]
  /\ index_of r = [(alice_svc, "c0ffee")].
Proof. vm_compute. auto. Qed.

(** Version rollout: the new hash goes to the free worker, then the old
    one is taken down. *)
Example version_rollout :
  let r := HandleDirtyState fleetEnv
             (manager [W1; W2] [(alice_svc, "h2")],
              fleet_of [alice_svc] [(W1, [alice_svc_at "h1"]); (W2, [])]) in
  outcome r = Return tt
  /\ commands (log r)
     = [EvActivate (alice_svc_at "h2") W2 (Ok "h2");
        EvDeactivate (alice_svc_at "h1") W1 (Ok tt)].
Proof. vm_compute. auto. Qed.

(** Removal: nothing is desired; what runs is taken down in Phase 1. *)
Example removal :
  let r := HandleDirtyState fleetEnv
             (manager [W1] [], fleet_of [] [(W1, [alice_svc_at "h1"])]) in
  outcome r = Return tt
  /\ commands (log r) = [EvDeactivate (alice_svc_at "h1") W1 (Ok tt)].
Proof. vm_compute. auto. Qed.

(** An unreachable worker: the pass returns the error of the first status
    call that fails, and stops there. *)
Example unreachable_worker :
  let f := {| desired := Ok [alice_svc];
              running := ∅;
              unreachable := [URL W2];
              head_commit := "c0ffee";
              forwards_sentinel := false;
              random := [] |} in
  let r := HandleDirtyState fleetEnv (manager [W1; W2] [], f) in
  outcome r = Fail "connection refused"
  /\ queried (log r) = [W1; W2]
  /\ commands (log r) = [].
Proof. vm_compute. auto. Qed.

(** ** Phase 3 when every worker runs some version *)

(** C1.  One worker, running [alice/svc] at [h1]; the index says [h2].
    Phase 3 asks the worker, finds no free worker, draws the target from
    the whole fleet, and then sends [Deactivate] for [alice/svc] at [h2],
    the component it is about to activate and which no worker runs, not
    for the [h1] that the target is running; the [Activate] of [h2] on the
    target follows.  On a worker that stops what it is told to stop, [h1]
    is still running when [h2] is activated, and is only taken down by
    Phase 4 of the pass. *)
Theorem Phase3_deactivates_the_ID_it_deploys :
  let s := (manager [W1] [(alice_svc, "h2")],
            fleet_of [alice_svc] [(W1, [alice_svc_at "h1"])]) in
  let r := ensureSomeWorkerIsRunning fleetEnv (alice_svc_at "h2") s in
  let pass := HandleDirtyState fleetEnv s in
  outcome r = Return tt
  /\ queried (log r) = [W1]
  /\ commands (log r)
     = [EvDeactivate (alice_svc_at "h2") W1 (Ok tt);
        EvActivate (alice_svc_at "h2") W1 (Ok "h2")]
  /\ runs (final r).2 W1 = [alice_svc_at "h1"; alice_svc_at "h2"]
  /\ commands (log pass)
     = [EvDeactivate (alice_svc_at "h2") W1 (Ok tt);
        EvActivate (alice_svc_at "h2") W1 (Ok "h2");
        EvDeactivate (alice_svc_at "h1") W1 (Ok tt)].
Proof. vm_compute. auto 10. Qed.

(** ** Phase 2 and a worker further down the fleet *)

(** The first worker runs the path and the second cannot be reached: the
    Phase 2 step returns [nil] after asking the first worker only. *)
Lemma Phase2_skips_without_asking_the_rest :
  let s := (manager [W1; W2] [(alice_svc, "h1")], second_worker_down) in
  let r := activateMissing fleetEnv (alice_svc_at "h1") s in
  workers s.1 = [W1; W2]
  /\ (fleet_Status W2 s.2).1 = Err "connection refused"
  /\ outcome r = Return tt
  /\ queried (log r) = [W1].
Proof. vm_compute. auto. Qed.

(** ** A stale replica next to the correct one *)

(** Exactly one worker runs [alice/svc] at the indexed hash [h2] and
    nothing undesired runs, yet the pass deactivates the [h1] on the other
    worker. *)
Lemma pass_over_stale_replica_deactivates :
  let mgr := manager [W1; W2] [(alice_svc, "h2")] in
  let r := HandleDirtyState fleetEnv (mgr, stale_replica) in
  converged_to_the_letter (workers mgr)
    (fun w => status_of (runs stale_replica w)) [alice_svc] (pathHashes mgr)
  /\ outcome r = Return tt
  /\ commands (log r) = [EvDeactivate (alice_svc_at "h1") W2 (Ok tt)].
Proof.
  split; [|vm_compute; auto].
  split.
  - intros p [<- | []]. exists "h2". split; vm_compute; reflexivity.
  - intros w c [<- | [<- | []]]; vm_compute; intros [<- | []]; auto.
Qed.

Lemma converged_pass_issues_no_command_witness :
  let mgr := manager [W1; W2] [(alice_svc, "h2")] in
  let r := HandleDirtyState fleetEnv (mgr, at_rest) in
  outcome r = Return tt
  /\ (final r).1 = mgr
  /\ Forall (fun ev => is_Activate ev = false /\ is_Deactivate ev = false)
       (log r).
Proof.
  apply (converged_pass_issues_no_command Fleet fleetEnv (fun f => f = at_rest)
           (fun w => status_of (runs at_rest w))
           (manager [W1; W2] [(alice_svc, "h2")]) at_rest at_rest [alice_svc]).
  - intros world w -> _. exists at_rest. split; [|reflexivity].
    apply fleet_Status_reachable. reflexivity.
  - reflexivity.
  - reflexivity.
  - split.
    + intros w c [<- | [<- | []]]; vm_compute; [|tauto].
      intros [<- | []]. auto.
    + intros p [<- | []]. exists "h2". split; [vm_compute; reflexivity|]. split.
      * exists W1. split; [by left | vm_compute; reflexivity].
      * intros w c [<- | [<- | []]]; vm_compute; [|tauto].
        intros [<- | []] _. reflexivity.
Defined.

(** ** A path without an index entry *)

(** [alice/svc] is desired and has no index entry when the pass starts.
    Phase 2 activates it under the sentinel and writes the resolved hash to
    the index; Phases 3 and 4 then find an entry, do not skip the path, and
    send two [Deactivate]s for components of [alice/svc]. *)
Lemma desired_path_without_entry_is_torn_down :
  let mgr := manager [W1] [] in
  let r := HandleDirtyState fleetEnv (mgr, sentinel_forwarded) in
  desired sentinel_forwarded = Ok [alice_svc]
  /\ pathHashes mgr !! alice_svc = None
  /\ outcome r = Return tt
  /\ commands (log r)
     = [EvActivate (alice_svc_at "HEAD") W1 (Ok "c0ffee");
        EvDeactivate (alice_svc_at "c0ffee") W1 (Ok tt);
        EvActivate (alice_svc_at "c0ffee") W1 (Ok "c0ffee");
        EvDeactivate (alice_svc_at "HEAD") W1 (Ok tt)]
  /\ path_of (alice_svc_at "c0ffee") = alice_svc
  /\ path_of (alice_svc_at "HEAD") = alice_svc.
Proof. vm_compute. auto 10. Qed.

Lemma no_teardown_while_statuses_agree_witness :
  let r := HandleDirtyState fleetEnv (manager [W1; W2] [], leftover) in
  agrees alice_svc None (log r)
  /\ resolved_in (log r) alice_svc "c0ffee"
  /\ In (EvDeactivate bob_old W1 (Ok tt)) (log r)
  /\ path_of bob_old <> alice_svc.
Proof.
  assert (Hag : agrees alice_svc None
                  (log (HandleDirtyState fleetEnv
                          (manager [W1; W2] [], leftover)))).
  { vm_compute. repeat split; intros c Hc; vm_compute in Hc;
      repeat (destruct Hc as [<- | Hc]; [by intros _|]); destruct Hc. }
  assert (Hin : In (EvDeactivate bob_old W1 (Ok tt))
                  (log (HandleDirtyState fleetEnv
                          (manager [W1; W2] [], leftover)))).
  { vm_compute. auto 10. }
  split; [exact Hag|]. split.
  { exists (alice_svc_at "HEAD"), W1. vm_compute. auto 20. }
  split; [exact Hin|].
  exact (proj2 (no_teardown_while_statuses_agree Fleet fleetEnv
                  (manager [W1; W2] [], leftover) [alice_svc] leftover
                  alice_svc eq_refl (or_introl eq_refl) eq_refl)
           Hag bob_old W1 (Ok tt) Hin).
Defined.

(** ** Witnesses of the remaining theorems *)

Lemma HEAD_resolution_witness :
  let s := (manager [W1; W2] [], fleet_of [alice_svc] [(W1, []); (W2, [])]) in
  let r := activateMissing fleetEnv (alice_svc_at "HEAD") s in
  In (EvActivate (alice_svc_at "HEAD") W1 (Ok "c0ffee")) (log r)
  /\ pathHashes (final r).1 !! alice_svc = Some "c0ffee".
Proof.
  assert (Hin : In (EvActivate (alice_svc_at "HEAD") W1 (Ok "c0ffee"))
                  (log (activateMissing fleetEnv (alice_svc_at "HEAD")
                          (manager [W1; W2] [],
                           fleet_of [alice_svc] [(W1, []); (W2, [])])))).
  { vm_compute. auto 10. }
  split; [exact Hin|].
  apply (proj1 (HEAD_resolution Fleet fleetEnv) (alice_svc_at "HEAD")
           (manager [W1; W2] [], fleet_of [alice_svc] [(W1, []); (W2, [])])
           (activateMissing fleetEnv (alice_svc_at "HEAD"))
           (or_introl eq_refl) W1 "c0ffee" Hin).
  reflexivity.
Defined.

Lemma NotifyComponentStateChanged_coalesces_witness :
  notify_times 100 (NewActionManager [W1; W2])
  = NotifyComponentStateChanged (NewActionManager [W1; W2]).
Proof.
  apply (proj2 NotifyComponentStateChanged_coalesces
           (NewActionManager [W1; W2]) eq_refl).
  - unfold pending. simpl. lia.
  - lia.
Defined.

Lemma empty_fleet_panics_witness :
  outcome (HandleDirtyState fleetEnv (manager [] [], fleet_of [alice_svc] []))
  = Panic.
Proof.
  rewrite (proj1 (empty_fleet_panics Fleet fleetEnv (manager [] [])
                    (fleet_of [alice_svc] []) (fleet_of [alice_svc] [])
                    alice_svc [] eq_refl eq_refl)).
  reflexivity.
Defined.

End Scenarios.

(* ================================================================== *)
(** * Instances on a concrete network and on concrete fleets *)
(* ================================================================== *)

Module Instances.
Import Fleet.
#[local] Open Scope string_scope.

(** ** The worker client *)

Lemma refusal_same_read resp : same_read resp (refusal resp).
Proof. unfold same_read, refusal. simpl. by destruct (Body resp). Qed.

(** A worker that answers [500] to an activation: the client returns
    [nil]. *)
Lemma commands_do_not_read_the_reply_witness :
  Worker.Activate (answering refusal accepts) (fun _ => Ok "{}")
    W1 (alice_svc_at "h1") "svc.tar" tt
  = (Ok tt, tt,
     [POST "http://w1:8080/meta/activate" "application/json" "{}"]).
Proof.
  rewrite (proj1 (commands_do_not_read_the_reply unit accepts
                    (fun _ => Ok "{}") (fun _ => Ok "{}")
                    refusal W1 (alice_svc_at "h1") "svc.tar" tt
                    refusal_same_read)).
  reflexivity.
Defined.

(** ** The update queue *)

(** Two updates of [alice/svc] sent to a fresh manager and applied: the
    index holds the second. *)
Lemma updates_are_applied_in_order_witness :
  exists mgr1 mgr2,
    send_updates [alice_svc_at "h1"; alice_svc_at "h2"] (NewActionManager [W1])
    = Done mgr1
    /\ apply_updates 2 mgr1 = Done mgr2
    /\ pathHashes mgr2 !! alice_svc = Some "h2"
    /\ 0 < pending mgr2.
Proof.
  destruct (updates_are_applied_in_order (NewActionManager [W1])
              [alice_svc_at "h1"; alice_svc_at "h2"])
    as (mgr1 & mgr2 & Hsend & _ & _ & Happly & _ & _ & _ & Hlast & Hsig).
  { vm_compute. lia. }
  exists mgr1, mgr2. split; [exact Hsend|]. split; [exact Happly|]. split.
  - exact (Hlast [alice_svc_at "h1"] (alice_svc_at "h2") eq_refl).
  - apply Hsig; [simpl; lia | discriminate].
Defined.

(** ** Passes *)

(** The fleet's random source answers within range. *)
Lemma fleet_conforming : conforming fleetEnv.
Proof.
  intros n f Hn. simpl. unfold fleet_Intn.
  destruct (random f) as [|k rest]; simpl; [exact Hn|].
  apply Nat.mod_upper_bound. lia.
Qed.

Lemma pass_does_not_panic_on_a_fleet_witness :
  outcome (HandleDirtyState fleetEnv
             (manager [W1; W2] [], fleet_of [alice_svc] [(W1, []); (W2, [])]))
  <> Panic.
Proof.
  apply (pass_does_not_panic_on_a_fleet Fleet fleetEnv
           (manager [W1; W2] [], fleet_of [alice_svc] [(W1, []); (W2, [])])
           fleet_conforming).
  discriminate.
Defined.

(** On the fleet that lists a component under the ID it was sent, the
    pass activates [alice/svc] twice. *)
Lemma pass_activates_at_most_twice_per_desired_path_witness :
  activations
    (log (HandleDirtyState fleetEnv (manager [W1] [], sentinel_forwarded)))
  <= 2 * length [alice_svc].
Proof.
  exact (pass_activates_at_most_twice_per_desired_path Fleet fleetEnv
           (manager [W1] [], sentinel_forwarded) [alice_svc] sentinel_forwarded
           eq_refl).
Defined.

(** The rollout of [h2]: the activation of Phase 3 asks for the indexed
    hash. *)
Lemma pass_deploys_the_indexed_version_witness :
  let s := (manager [W1; W2] [(alice_svc, "h2")],
            fleet_of [alice_svc] [(W1, [alice_svc_at "h1"]); (W2, [])]) in
  let t := log (HandleDirtyState fleetEnv s) in
  nth_error t 9 = Some (EvActivate (alice_svc_at "h2") W2 (Ok "h2"))
  /\ id_Hash (alice_svc_at "h2")
     = hash_to_deploy
         (entry_after alice_svc (pathHashes s.1 !! alice_svc) (firstn 9 t)).
Proof.
  intros s t. split; [vm_compute; reflexivity|].
  apply (pass_deploys_the_indexed_version Fleet fleetEnv s (firstn 9 t)
           (alice_svc_at "h2") W2 (Ok "h2") (skipn 10 t)).
  vm_compute. reflexivity.
Defined.

(** [W1] runs the old version and [W2] nothing: the new version goes to
    [W2], and nothing is deactivated in Phase 3. *)
Lemma ensureSomeWorkerIsRunning_prefers_a_free_worker_witness :
  let s := (manager [W1; W2] [(alice_svc, "h2")],
            fleet_of [alice_svc] [(W1, [alice_svc_at "h1"]); (W2, [])]) in
  let r := ensureSomeWorkerIsRunning fleetEnv (alice_svc_at "h2") s in
  free_workers alice_svc (log r) = [W2]
  /\ In (EvActivate (alice_svc_at "h2") W2 (Ok "h2")) (log r)
  /\ exists scan k,
      log r = (scan ++ [EvIntn 1 k;
                        EvActivate (alice_svc_at "h2") W2 (Ok "h2")])%list
      /\ queried scan = [W1; W2].
Proof.
  intros s r. subst r.
  set (r := ensureSomeWorkerIsRunning fleetEnv (alice_svc_at "h2") s).
  assert (Hfree : free_workers (path_of (alice_svc_at "h2")) (log r) = [W2]).
  { vm_compute. reflexivity. }
  assert (Hin : In (EvActivate (alice_svc_at "h2") W2 (Ok "h2")) (log r)).
  { vm_compute. auto 10. }
  split; [exact Hfree|]. split; [exact Hin|].
  destruct (proj1 (ensureSomeWorkerIsRunning_prefers_a_free_worker Fleet
                     fleetEnv (alice_svc_at "h2") s W2 (Ok "h2") Hin))
    as (scan & k & Hlog & Hscan & _).
  { fold r. rewrite Hfree. discriminate. }
  fold r in Hlog. rewrite Hfree in Hlog. exists scan, k. split; [exact Hlog|].
  assert (Hq : queried (log r) = [W1; W2]) by (vm_compute; reflexivity).
  rewrite Hlog, queried_app in Hq. simpl in Hq. by rewrite app_nil_r in Hq.
Defined.

(** Nothing is desired and [W1] runs [alice/svc]: it is told to stop. *)
Lemma nothing_desired_stops_everything_witness :
  let r := HandleDirtyState fleetEnv
             (manager [W1] [], fleet_of [] [(W1, [alice_svc_at "h1"])]) in
  outcome r = Return tt
  /\ exists t,
      log r = EvFindActiveComponents (Ok []) :: t
      /\ In (EvDeactivate (alice_svc_at "h1") W1 (Ok tt)) t.
Proof.
  intros r. split; [vm_compute; reflexivity|].
  destruct (nothing_desired_stops_everything Fleet fleetEnv (manager [W1] [])
              (fleet_of [] [(W1, [alice_svc_at "h1"])])
              (fleet_of [] [(W1, [alice_svc_at "h1"])]) eq_refl)
    as (t & Hlog & _ & _ & _ & _ & Hall).
  exists t. split; [exact Hlog|].
  destruct (Hall eq_refl) as [_ Hstop].
  apply (Hstop W1 (status_of [alice_svc_at "h1"]) (stats_of (alice_svc_at "h1"))).
  - assert (Hin : In (EvStatus W1 (Ok (status_of [alice_svc_at "h1"])))
                    (log (HandleDirtyState fleetEnv
                            (manager [W1] [],
                             fleet_of [] [(W1, [alice_svc_at "h1"])])))).
    { vm_compute. auto. }
    rewrite Hlog in Hin. destruct Hin as [Hin | Hin]; [discriminate | exact Hin].
  - by left.
Defined.

(** Nothing runs [alice/svc]: Phase 2 asks both workers, draws, and
    activates on the worker drawn. *)
Lemma activateMissing_draws_from_the_whole_fleet_witness :
  let s := (manager [W1; W2] [], fleet_of [alice_svc] [(W1, []); (W2, [])]) in
  let r := activateMissing fleetEnv (alice_svc_at "HEAD") s in
  In (EvActivate (alice_svc_at "HEAD") W1 (Ok "c0ffee")) (log r)
  /\ exists scan k,
      log r = (scan ++ [EvIntn 2 k;
                        EvActivate (alice_svc_at "HEAD") W1 (Ok "c0ffee")])%list
      /\ queried scan = [W1; W2]
      /\ [W1; W2] !! k = Some W1.
Proof.
  intros s r.
  assert (Hin : In (EvActivate (alice_svc_at "HEAD") W1 (Ok "c0ffee")) (log r)).
  { vm_compute. auto 10. }
  split; [exact Hin|].
  destruct (activateMissing_draws_from_the_whole_fleet Fleet fleetEnv
              (alice_svc_at "HEAD") s W1 (Ok "c0ffee") Hin)
    as (scan & k & Hlog & _ & Hq & Hk & _).
  exists scan, k. auto.
Defined.

(** One worker that lists the component under the ID it was sent: every
    phase asks it once for the one desired path, and the bound is met. *)
Lemma pass_asks_a_bounded_number_of_statuses_witness :
  let r := HandleDirtyState fleetEnv (manager [W1] [], sentinel_forwarded) in
  length (queried (log r)) = 4
  /\ length (queried (log r)) <= (1 + 3 * length [alice_svc]) * length [W1].
Proof.
  intros r. split; [vm_compute; reflexivity|].
  exact (pass_asks_a_bounded_number_of_statuses Fleet fleetEnv
           (manager [W1] [], sentinel_forwarded) [alice_svc] sentinel_forwarded
           eq_refl).
Defined.

End Instances.
